(** * cf_ai_latency_explorer: the edge directory, the stream reassembler,
      the Worker and the views

    A shallow embedding of the components of the repository that carry
    correctness properties:

    - [src/data/edges.ts]: the static table [EDGE_LOCATIONS], the linear scan
      [findNearestEdge] over the Haversine distance, and [getEdgeByCode];
    - [client/src/App.tsx], [handleSendMessage]: the loop that turns the
      chunked byte stream of the chat reply into the growing answer text,
      the request it sends and the messages of the conversation it keeps;
    - [src/index.ts]: the routes of the Worker, the answers of its JSON
      endpoints and the messages its chat endpoint gives to the model;
    - [components/Chat.tsx] and [components/WorldMap.tsx]: the form, the
      connected edge, the flags, the zoom and the pan.

    JavaScript numbers are IEEE 754 binary64 values, modelled by Rocq's
    primitive [float]; JavaScript strings are sequences of UTF-16 code units,
    modelled by lists of code units.  What the source calls and does not
    define ([Math], [TextDecoder], [String.prototype], [JSON]) is modelled
    after ECMA-262 and the WHATWG Encoding standard. *)

From Stdlib Require Import ZArith NArith PArith List Bool Ascii String Lia.
From Stdlib Require Import Floats.
Import ListNotations.

Set Warnings "-inexact-float,-register-all".
#[local] Open Scope bool_scope.
#[local] Open Scope list_scope.

(** * Part I: the model *)

(** ** JavaScript strings *)

(** A string is its sequence of UTF-16 code units. *)
Definition jsstring := list N.

(** The string an ASCII literal of the source denotes. *)
Definition lit (s : string) : jsstring :=
  map (fun c => N.of_nat (nat_of_ascii c)) (list_ascii_of_string s).

(** Strict equality [===] of two strings: the same code units in the same
    order. *)
Fixpoint str_eqb (a b : jsstring) : bool :=
  match a, b with
  | [], [] => true
  | x :: a', y :: b' => N.eqb x y && str_eqb a' b'
  | _, _ => false
  end.

(** The double quote and the line feed, which a literal cannot hold. *)
Definition dquote : string := String (ascii_of_nat 34) EmptyString.

Definition line_feed : string := String (ascii_of_nat 10) EmptyString.

(** ** The Math object

    [Math.sin], [Math.cos], [Math.atan2] and the exponentiation operator are
    implementation-approximated in ECMAScript: the language fixes their
    values at special arguments only.  The distance is therefore computed
    over an arbitrary library [M]. *)
Record MathLib : Type := {
  Math_sin : float -> float;
  Math_cos : float -> float;
  Math_atan2 : float -> float -> float;
  (** [x ** 2], that is Number::exponentiate(x, 2) *)
  pow2 : float -> float
}.

(** What ECMA-262 fixes of a library and the proofs use: Math.sin,
    Number::exponentiate and Math.atan2 at NaN and at +0, Math.cos at
    +Infinity. *)
Record MathLaws (M : MathLib) : Prop := {
  sin_nan : Math_sin M nan = nan;
  sin_zero : Math_sin M zero = zero;
  pow2_nan : pow2 M nan = nan;
  pow2_zero : pow2 M zero = zero;
  atan2_nan_l : forall x, Math_atan2 M nan x = nan;
  atan2_zero_one : Math_atan2 M zero one = zero;
  cos_infinity : Math_cos M infinity = nan
}.

(** An odd sine and an even square.  The standard does not ask for them; the
    fdlibm-derived libraries of the engines have them.  They are assumed for
    the symmetry of the distance and nowhere else. *)
Record MathSymmetry (M : MathLib) : Prop := {
  sin_odd : forall x, Math_sin M (- x) = (- Math_sin M x)%float;
  pow2_even : forall x, pow2 M (- x) = pow2 M x
}.

(** A reference library: the sine, the cosine and the arctangent of two
    arguments computed in integer fixed-point arithmetic with 128 fractional
    bits and rounded once, to the nearest binary64 value, at the end; the
    correctly rounded square.  The special cases are those of ECMA-262.  The
    argument of the sine and of the cosine is reduced modulo pi/2 with as
    many bits of pi as its exponent asks for, so that the library is
    accurate over the whole range of the finite numbers.  A result is the
    correctly rounded one unless the exact value lies closer to the middle
    of two binary64 values than the series resolve; the libraries of the
    engines (fdlibm and its descendants) stay within one unit in the last
    place of it.  The theorems are stated over an arbitrary library; this
    one instantiates them. *)
Module RefMath.
#[local] Open Scope Z_scope.

(** The terms after the first of the series of arctan(1/q), scaled. *)
Fixpoint atan_inv_terms (fuel : nat) (q2 n term : Z) (negative : bool) : Z :=
  match fuel with
  | O => 0
  | S fuel' =>
      let term' := term / q2 in
      if term' =? 0 then 0
      else (if negative then - (term' / (2 * n + 1)) else term' / (2 * n + 1))
           + atan_inv_terms fuel' q2 (n + 1) term' (negb negative)
  end.

(** arctan(1/q) scaled by [2 ^ bits] *)
Definition atan_inv (q bits : Z) : Z :=
  let term := 2 ^ bits / q in
  term + atan_inv_terms (Z.to_nat bits) (q * q) 1 term true.

Definition pi_scale : Z := 1344.

(** pi scaled by [2 ^ pi_scale], by Machin's formula
    pi = 16 arctan(1/5) - 4 arctan(1/239). *)
Definition pi_bits : Z :=
  Eval vm_compute in
    Z.shiftr (16 * atan_inv 5 (pi_scale + 32) - 4 * atan_inv 239 (pi_scale + 32)) 32.

(** The binary64 value nearest to [m * 2 ^ e]. *)
Definition round (m e : Z) : float := SF2Prim (binary_normalize prec emax m e false).

(** The fractional bits of the series. *)
Definition guard : Z := 128.

Definition unit : Z := 2 ^ guard.

(** sin r / r and cos r as series in [z], the square of r, by Horner's
    rule from the term of index [i] on. *)
Fixpoint sin_factor (k : nat) (i z : Z) : Z :=
  match k with
  | O => unit
  | S k' => unit - Z.shiftr (z * sin_factor k' (i + 1) z) guard / (2 * i * (2 * i + 1))
  end.

Fixpoint cos_factor (k : nat) (i z : Z) : Z :=
  match k with
  | O => unit
  | S k' => unit - Z.shiftr (z * cos_factor k' (i + 1) z) guard / ((2 * i - 1) * (2 * i))
  end.

Definition terms : nat := 20.

(** The argument [m * 2 ^ e] modulo pi/2: the scale [P], the multiple [k]
    of pi/2 nearest to the argument and the rest scaled by [2 ^ P], at most
    pi/4 in absolute value. *)
Definition reduce (m : positive) (e : Z) : Z * Z * Z :=
  let P := 253 + Z.abs e in
  let X := Z.shiftl (Zpos m) (P + e) in
  let H := Z.shiftr pi_bits (pi_scale + 1 - P) in
  let k := (2 * X + H) / (2 * H) in
  (P, k, X - k * H).

(** The sine and the cosine of the rest, as a mantissa and an exponent. *)
Definition sin_rest (P R : Z) : Z * Z :=
  let z := Z.shiftr (R * R) (2 * P - guard) in
  (R * sin_factor terms 1 z, - (P + guard)).

Definition cos_rest (P R : Z) : Z * Z :=
  let z := Z.shiftr (R * R) (2 * P - guard) in
  (cos_factor terms 1 z, - guard).

Definition negated (v : Z * Z) : Z * Z := (- fst v, snd v).

(** The sine of the absolute value of [x]; of a zero, [x] itself. *)
Definition sin_abs (x : float) : float :=
  match Prim2SF x with
  | S754_finite _ m e =>
      let '(P, k, R) := reduce m e in
      let q := k mod 4 in
      let v := if q =? 0 then sin_rest P R
               else if q =? 1 then cos_rest P R
               else if q =? 2 then negated (sin_rest P R)
               else negated (cos_rest P R) in
      round (fst v) (snd v)
  | S754_zero _ => x
  | _ => nan
  end.

Definition sin (x : float) : float :=
  if (x <? 0)%float then (- sin_abs (- x))%float else sin_abs x.

Definition cos (x : float) : float :=
  match Prim2SF x with
  | S754_finite _ m e =>
      let '(P, k, R) := reduce m e in
      let q := k mod 4 in
      let v := if q =? 0 then cos_rest P R
               else if q =? 1 then negated (sin_rest P R)
               else if q =? 2 then negated (cos_rest P R)
               else sin_rest P R in
      round (fst v) (snd v)
  | S754_zero _ => 1%float
  | _ => nan
  end.

(** arctan t / t as a series in [u], the square of t. *)
Fixpoint atan_factor (k : nat) (i u : Z) : Z :=
  match k with
  | O => unit / (2 * i + 1)
  | S k' => unit / (2 * i + 1) - Z.shiftr (u * atan_factor k' (i + 1) u) guard
  end.

Definition atan_terms : nat := 24.

(** The fractional bits of a tangent. *)
Definition width : Z := 160.

(** tan(arctan(t) / 2) = t / (1 + sqrt(1 + t * t)) *)
Definition halve (t : Z) : Z :=
  Z.shiftl t width / (2 ^ width + Z.sqrt (2 ^ (2 * width) + t * t)).

(** The arctangent of the quotient of [ma * 2 ^ ea] by [mb * 2 ^ eb], which
    is at most 1, as a mantissa [A] and a scale [s]: [A * 2 ^ (- s)].  A
    small quotient goes into the series as it is, another one after three
    halvings of the angle. *)
Definition atan_ratio (ma : positive) (ea : Z) (mb : positive) (eb : Z) : Z * Z :=
  let T := Z.shiftl (Zpos ma) 200 / Zpos mb in
  let s := 200 + eb - ea in
  if 210 <=? s then
    let U := Z.shiftr (T * T) (2 * s - guard) in
    (T * atan_factor atan_terms 0 U, s + guard)
  else
    let t := Z.shiftl T (width - s) in
    let t3 := halve (halve (halve t)) in
    let U := Z.shiftr (t3 * t3) (2 * width - guard) in
    (8 * t3 * atan_factor atan_terms 0 U, width + guard).

(** [ma * 2 ^ ea <= mb * 2 ^ eb] *)
Definition le_magnitude (ma : positive) (ea : Z) (mb : positive) (eb : Z) : bool :=
  Z.shiftl (Zpos ma) (ea - Z.min ea eb) <=? Z.shiftl (Zpos mb) (eb - Z.min ea eb).

Definition PI : float := round pi_bits (- pi_scale).

(** The angle of the point of ordinate [|y|] and of abscissa [|x|], negated
    when [negative], from the positive half of the first axis: between 0
    and pi. *)
Definition atan2_abs (y x : spec_float) (negative : bool) : float :=
  match y, x with
  | S754_nan, _ | _, S754_nan => nan
  | S754_infinity _, S754_infinity _ =>
      if negative then round (3 * pi_bits) (- pi_scale - 2) else round pi_bits (- pi_scale - 2)
  | S754_infinity _, _ => round pi_bits (- pi_scale - 1)
  | _, S754_infinity _ => if negative then PI else 0%float
  | S754_zero _, _ => if negative then PI else 0%float
  | _, S754_zero _ => round pi_bits (- pi_scale - 1)
  | S754_finite _ my ey, S754_finite _ mx ex =>
      let scale := width + guard in
      if le_magnitude my ey mx ex then
        let '(A, s) := atan_ratio my ey mx ex in
        if negative
        then round (Z.shiftr pi_bits (pi_scale - scale) - Z.shiftr A (s - scale)) (- scale)
        else round A (- s)
      else
        let '(A, s) := atan_ratio mx ex my ey in
        let half_pi := Z.shiftr pi_bits (pi_scale + 1 - scale) in
        round (if negative then half_pi + Z.shiftr A (s - scale)
               else half_pi - Z.shiftr A (s - scale)) (- scale)
  end.

Definition sign_bit (x : spec_float) : bool :=
  match x with
  | S754_zero s | S754_infinity s | S754_finite s _ _ => s
  | S754_nan => false
  end.

Definition atan2 (y x : float) : float :=
  if is_nan y || is_nan x then nan
  else
    let angle := atan2_abs (Prim2SF y) (Prim2SF x) (sign_bit (Prim2SF x)) in
    if sign_bit (Prim2SF y) then (- angle)%float else angle.

Definition lib : MathLib :=
  {| Math_sin := sin; Math_cos := cos; Math_atan2 := atan2;
     pow2 := fun x => (x * x)%float |}.

End RefMath.
(** ** src/data/edges.ts *)

Module Edges.

Record EdgeLocation : Type := {
  code : jsstring;
  city : jsstring;
  country : jsstring;
  lat : float;
  lng : float
}.

Definition edge (c ci co : string) (la ln : float) : EdgeLocation :=
  {| code := lit c; city := lit ci; country := lit co; lat := la; lng := ln |}.

#[local] Open Scope string_scope.
#[local] Open Scope float_scope.

Definition EDGE_LOCATIONS : list EdgeLocation := [
  (* North America *)
  edge "SJC" "San Jose" "US" 37.36 (-121.93);
  edge "LAX" "Los Angeles" "US" 33.94 (-118.41);
  edge "SEA" "Seattle" "US" 47.45 (-122.31);
  edge "ORD" "Chicago" "US" 41.97 (-87.91);
  edge "IAD" "Washington DC" "US" 38.95 (-77.46);
  edge "EWR" "Newark" "US" 40.69 (-74.17);
  edge "MIA" "Miami" "US" 25.80 (-80.29);
  edge "DFW" "Dallas" "US" 32.90 (-97.04);
  edge "ATL" "Atlanta" "US" 33.64 (-84.43);
  edge "DEN" "Denver" "US" 39.86 (-104.67);
  edge "PHX" "Phoenix" "US" 33.43 (-112.01);
  edge "YYZ" "Toronto" "CA" 43.68 (-79.63);
  edge "YVR" "Vancouver" "CA" 49.19 (-123.18);
  edge "MEX" "Mexico City" "MX" 19.44 (-99.07);
  (* Europe *)
  edge "LHR" "London" "GB" 51.47 (-0.45);
  edge "AMS" "Amsterdam" "NL" 52.31 4.77;
  edge "FRA" "Frankfurt" "DE" 50.04 8.56;
  edge "CDG" "Paris" "FR" 49.01 2.55;
  edge "MAD" "Madrid" "ES" 40.47 (-3.56);
  edge "MXP" "Milan" "IT" 45.63 8.72;
  edge "ZRH" "Zurich" "CH" 47.46 8.56;
  edge "VIE" "Vienna" "AT" 48.11 16.57;
  edge "WAW" "Warsaw" "PL" 52.17 20.97;
  edge "ARN" "Stockholm" "SE" 59.65 17.95;
  edge "HEL" "Helsinki" "FI" 60.32 24.96;
  edge "DUB" "Dublin" "IE" 53.43 (-6.25);
  (* Asia Pacific *)
  edge "NRT" "Tokyo" "JP" 35.77 140.39;
  edge "HND" "Tokyo Haneda" "JP" 35.55 139.78;
  edge "SIN" "Singapore" "SG" 1.36 103.99;
  edge "HKG" "Hong Kong" "HK" 22.31 113.92;
  edge "ICN" "Seoul" "KR" 37.46 126.44;
  edge "SYD" "Sydney" "AU" (-33.94) 151.18;
  edge "MEL" "Melbourne" "AU" (-37.67) 144.84;
  edge "BOM" "Mumbai" "IN" 19.09 72.87;
  edge "DEL" "New Delhi" "IN" 28.56 77.10;
  edge "BKK" "Bangkok" "TH" 13.69 100.75;
  edge "KUL" "Kuala Lumpur" "MY" 2.75 101.71;
  edge "CGK" "Jakarta" "ID" (-6.13) 106.66;
  edge "MNL" "Manila" "PH" 14.51 121.02;
  edge "TPE" "Taipei" "TW" 25.08 121.23;
  (* South America *)
  edge "GRU" "Sao Paulo" "BR" (-23.44) (-46.47);
  edge "GIG" "Rio de Janeiro" "BR" (-22.81) (-43.25);
  edge "EZE" "Buenos Aires" "AR" (-34.82) (-58.54);
  edge "SCL" "Santiago" "CL" (-33.39) (-70.79);
  edge "BOG" "Bogota" "CO" 4.70 (-74.15);
  edge "LIM" "Lima" "PE" (-12.02) (-77.11);
  (* Africa & Middle East *)
  edge "JNB" "Johannesburg" "ZA" (-26.14) 28.24;
  edge "CPT" "Cape Town" "ZA" (-33.97) 18.60;
  edge "DXB" "Dubai" "AE" 25.25 55.36;
  edge "TLV" "Tel Aviv" "IL" 32.01 34.89;
  edge "CAI" "Cairo" "EG" 30.11 31.40;
  edge "NBO" "Nairobi" "KE" (-1.32) 36.93;
  edge "LOS" "Lagos" "NG" 6.58 3.32
].

(** [Math.PI], the binary64 value nearest to pi. *)
Definition Math_PI : float := 3.141592653589793.

Definition toRad (deg : float) : float := (deg * Math_PI) / 180.

Definition haversineDistance (M : MathLib) (lat1 lng1 lat2 lng2 : float) : float :=
  let R := 6371 in
  let dLat := toRad (lat2 - lat1) in
  let dLng := toRad (lng2 - lng1) in
  let a :=
    pow2 M (Math_sin M (dLat / 2)) +
    Math_cos M (toRad lat1) * Math_cos M (toRad lat2) * pow2 M (Math_sin M (dLng / 2)) in
  R * 2 * Math_atan2 M (sqrt a) (sqrt (1 - a)).

(** [const dist = haversineDistance(lat, lng, edge.lat, edge.lng)] *)
Definition dist (M : MathLib) (lat0 lng0 : float) (e : EdgeLocation) : float :=
  haversineDistance M lat0 lng0 (lat e) (lng e).

(** One iteration of the [for ... of] loop of [findNearestEdge] on the pair
    [(minDist, nearest)]. *)
Definition scan_step (M : MathLib) (lat0 lng0 : float)
    (st : float * EdgeLocation) (e : EdgeLocation) : float * EdgeLocation :=
  if dist M lat0 lng0 e <? fst st then (dist M lat0 lng0 e, e) else st.

(** The loop over [table], started as the source starts it:
    [minDist = Infinity] and [nearest = first], the element of index 0. *)
Definition nearestIn (M : MathLib) (first : EdgeLocation) (table : list EdgeLocation)
    (lat0 lng0 : float) : EdgeLocation :=
  snd (fold_left (scan_step M lat0 lng0) table (infinity, first)).

(** [findNearestEdge] over an arbitrary table.  On an empty table
    [EDGE_LOCATIONS[0]] is [undefined], the loop body never runs and
    [undefined] is returned: [None]. *)
Definition findNearestEdgeIn (M : MathLib) (table : list EdgeLocation) (lat0 lng0 : float)
    : option EdgeLocation :=
  match table with
  | [] => None
  | first :: _ => Some (nearestIn M first table lat0 lng0)
  end.

Definition findNearestEdge (M : MathLib) (lat0 lng0 : float) : option EdgeLocation :=
  findNearestEdgeIn M EDGE_LOCATIONS lat0 lng0.

(** [table.find((e) => e.code === code)] *)
Definition getEdgeByCodeIn (table : list EdgeLocation) (c : jsstring) : option EdgeLocation :=
  find (fun e => str_eqb (code e) c) table.

Definition getEdgeByCode (c : jsstring) : option EdgeLocation :=
  getEdgeByCodeIn EDGE_LOCATIONS c.

(** The conditions of the data model, as checks. *)
Definition in_range (e : EdgeLocation) : bool :=
  (-90 <=? lat e) && (lat e <=? 90) && (-180 <=? lng e) && (lng e <=? 180).

Fixpoint distinct_codes (l : list jsstring) : bool :=
  match l with
  | [] => true
  | c :: r => negb (existsb (str_eqb c) r) && distinct_codes r
  end.

(** The variables [(minDist, nearest)] of the loop after the elements
    [seen]: no element seen is strictly below [minDist]; and either nothing
    was selected yet, or [minDist] is the distance of [nearest], an element
    seen, before which no element seen is at an equal distance. *)
Definition scan_inv (M : MathLib) (lat0 lng0 : float) (first : EdgeLocation)
    (seen : list EdgeLocation) (st : float * EdgeLocation) : Prop :=
  (forall e, In e seen -> (dist M lat0 lng0 e <? fst st) = false)
  /\ ((fst st = infinity /\ snd st = first)
      \/ (fst st = dist M lat0 lng0 (snd st)
          /\ exists before after, seen = (before ++ snd st :: after)%list
               /\ forall e, In e before ->
                    (dist M lat0 lng0 e =? dist M lat0 lng0 (snd st)) = false)).

End Edges.

(** ** The platform functions of the stream loop *)

(** *** TextDecoder: the UTF-8 decoder of the WHATWG Encoding standard *)

Module TextDecoder.

(** The state of the UTF-8 decoder: code point, bytes seen, bytes needed and
    the bounds of the next continuation byte. *)
Record utf8_state : Type := {
  code_point : N;
  bytes_seen : N;
  bytes_needed : N;
  lower_boundary : N;
  upper_boundary : N
}.

Definition utf8_initial : utf8_state :=
  {| code_point := 0; bytes_seen := 0; bytes_needed := 0;
     lower_boundary := 0x80; upper_boundary := 0xBF |}.

Definition between (lo hi b : N) : bool := (lo <=? b)%N && (b <=? hi)%N.

(** The handler at a byte when no byte is needed: the emitted code points and
    the next state. *)
Definition utf8_lead (b : N) : utf8_state * list N :=
  if between 0x00 0x7F b then (utf8_initial, [b])
  else if between 0xC2 0xDF b then
    ({| code_point := N.land b 0x1F; bytes_seen := 0; bytes_needed := 1;
        lower_boundary := 0x80; upper_boundary := 0xBF |}, [])
  else if between 0xE0 0xEF b then
    ({| code_point := N.land b 0xF; bytes_seen := 0; bytes_needed := 2;
        lower_boundary := if (b =? 0xE0)%N then 0xA0 else 0x80;
        upper_boundary := if (b =? 0xED)%N then 0x9F else 0xBF |}, [])
  else if between 0xF0 0xF4 b then
    ({| code_point := N.land b 0x7; bytes_seen := 0; bytes_needed := 3;
        lower_boundary := if (b =? 0xF0)%N then 0x90 else 0x80;
        upper_boundary := if (b =? 0xF4)%N then 0x8F else 0xBF |}, [])
  else (utf8_initial, [0xFFFD%N]).

(** The handler at a byte.  A byte outside the bounds ends the sequence with
    U+FFFD and is then handled again from the initial state. *)
Definition utf8_byte (st : utf8_state) (b : N) : utf8_state * list N :=
  if (bytes_needed st =? 0)%N then utf8_lead b
  else if negb (between (lower_boundary st) (upper_boundary st) b) then
    let '(st', out) := utf8_lead b in (st', 0xFFFD%N :: out)
  else
    let cp := N.lor (N.shiftl (code_point st) 6) (N.land b 0x3F) in
    if (bytes_seen st + 1 =? bytes_needed st)%N then (utf8_initial, [cp])
    else ({| code_point := cp; bytes_seen := bytes_seen st + 1;
             bytes_needed := bytes_needed st;
             lower_boundary := 0x80; upper_boundary := 0xBF |}, []).

(** A scalar value as UTF-16 code units. *)
Definition code_units (cp : N) : jsstring :=
  if (cp <? 0x10000)%N then [cp]
  else [(0xD800 + N.shiftr (cp - 0x10000) 10)%N; (0xDC00 + N.land (cp - 0x10000) 0x3FF)%N].

(** A [TextDecoder] for UTF-8 with the default options ([fatal] and
    [ignoreBOM] both false), between two calls of [decode] with
    [{ stream: true }]. *)
Record t : Type := {
  utf8 : utf8_state;
  BOM_seen : bool
}.

Definition create : t := {| utf8 := utf8_initial; BOM_seen := false |}.

(** Serializing one emitted code point: the first one of the stream is
    dropped when it is U+FEFF. *)
Definition serialize (bom : bool) (cp : N) : jsstring :=
  if negb bom && (cp =? 0xFEFF)%N then [] else code_units cp.

Fixpoint serialize_all (bom : bool) (cps : list N) : bool * jsstring :=
  match cps with
  | [] => (bom, [])
  | cp :: r =>
      let '(bom', out) := serialize_all true r in
      (bom', serialize bom cp ++ out)
  end.

Definition decode_byte (d : t) (b : Byte.byte) : t * jsstring :=
  let '(st, cps) := utf8_byte (utf8 d) (Byte.to_N b) in
  let '(bom, out) := serialize_all (BOM_seen d) cps in
  ({| utf8 := st; BOM_seen := bom |}, out).

(** [decoder.decode(value, { stream: true })]: the bytes of the chunk are
    consumed in order; an incomplete trailing sequence stays in the state. *)
Fixpoint decode (d : t) (value : list Byte.byte) : t * jsstring :=
  match value with
  | [] => (d, [])
  | b :: r =>
      let '(d1, out1) := decode_byte d b in
      let '(d2, out2) := decode d1 r in
      (d2, out1 ++ out2)
  end.

(** The decoder never holds a sequence whose code point could complete
    below U+0040: either no byte is needed, or the code point so far is not
    zero, or the next byte is bound to bring a non-zero part and is not the
    last one. *)
Definition utf8_wf (st : utf8_state) : Prop :=
  bytes_needed st = 0%N
  \/ code_point st <> 0%N
  \/ ((0x90 <= lower_boundary st)%N
      /\ (upper_boundary st <= 0xBF)%N
      /\ (bytes_seen st + 1)%N <> bytes_needed st).

End TextDecoder.

(** *** String.prototype methods used by the loop *)

(** [s.split("\n")]: never empty; the last element is the text after the last
    line feed. *)
Fixpoint split_lines (s : jsstring) : list jsstring :=
  match s with
  | [] => [[]]
  | c :: r =>
      if (c =? 10)%N then [] :: split_lines r
      else match split_lines r with
           | l :: ls => (c :: l) :: ls
           | [] => [[c]]
           end
  end.

(** WhiteSpace and LineTerminator code units, the ones [trim] removes. *)
Definition is_white_space (c : N) : bool :=
  (TextDecoder.between 0x09 0x0D c) || (c =? 0x20)%N || (c =? 0xA0)%N || (c =? 0x1680)%N
  || (TextDecoder.between 0x2000 0x200A c) || (c =? 0x2028)%N || (c =? 0x2029)%N
  || (c =? 0x202F)%N || (c =? 0x205F)%N || (c =? 0x3000)%N || (c =? 0xFEFF)%N.

Fixpoint trim_start (s : jsstring) : jsstring :=
  match s with
  | c :: r => if is_white_space c then trim_start r else s
  | [] => []
  end.

Definition trim (s : jsstring) : jsstring :=
  rev (trim_start (rev (trim_start s))).

Fixpoint startsWith (s prefix : jsstring) {struct prefix} : bool :=
  match prefix, s with
  | [], _ => true
  | p :: prefix', c :: s' => (c =? p)%N && startsWith s' prefix'
  | _ :: _, [] => false
  end.

(** [s.slice(n)] for a non-negative [n]. *)
Definition slice (n : nat) (s : jsstring) : jsstring := skipn n s.

(** *** Numbers and their decimal forms *)

Module Number.
#[local] Open Scope Z_scope.

(** The binary64 value nearest to [m * 10 ^ e], ties to even: the value of a
    decimal literal. *)
Definition of_decimal (negative : bool) (m : Z) (e : Z) : float :=
  match m with
  | Zpos p =>
      if 0 <=? e then
        SF2Prim (binary_normalize prec emax
                   (if negative then Z.opp (m * 10 ^ e) else m * 10 ^ e) 0 false)
      else
        SF2Prim (SFdiv prec emax (S754_finite negative p 0)
                   (S754_finite false (Z.to_pos (10 ^ (- e))) 0))
  | _ => if negative then neg_zero else zero
  end.

(** The decimal digits of a non-negative integer. *)
Fixpoint digits_of (fuel : nat) (n : Z) (acc : jsstring) : jsstring :=
  match fuel with
  | O => acc
  | S fuel' =>
      let acc' := Z.to_N (48 + n mod 10) :: acc in
      if n <? 10 then acc' else digits_of fuel' (n / 10) acc'
  end.

Definition decimal (n : Z) : jsstring := digits_of (S (Z.to_nat (Z.log2 n))) n [].

(** [num / den < 10 ^ n] and the integer part of [num / den / 10 ^ n]. *)
Definition below_pow10 (num den n : Z) : bool :=
  if 0 <=? n then num <? den * 10 ^ n else num * 10 ^ (- n) <? den.

Definition scaled_floor (num den n : Z) : Z :=
  if 0 <=? n then num / (den * 10 ^ n) else (num * 10 ^ (- n)) / den.

(** The least [n] from [n0] on with [num / den < 10 ^ n]. *)
Fixpoint decimal_exponent (fuel : nat) (n0 num den : Z) : Z :=
  match fuel with
  | O => n0
  | S fuel' => if below_pow10 num den n0 then n0 else decimal_exponent fuel' (n0 + 1) num den
  end.

(** The shortest digits: the least number [k] of digits, from the given one
    on, for which an integer [s] of [k] digits has [s * 10 ^ (n - k)] round
    to [x]; of two such integers the one nearest to [x], the even one in a
    tie.  Seventeen digits always suffice. *)
Fixpoint shortest (fuel : nat) (k : Z) (x : float) (num den n : Z) : Z * Z * Z :=
  let s0 := scaled_floor num den (n - k) in
  let back s := PrimFloat.Leibniz.eqb (of_decimal false s (n - k)) x in
  let upper := if s0 + 1 =? 10 ^ k then (10 ^ (k - 1), k, n + 1) else (s0 + 1, k, n) in
  (* 2 * num / den against (2 * s0 + 1) * 10 ^ (n - k) *)
  let low_is_nearer :=
    let c := if 0 <=? n - k
             then (2 * num) ?= (2 * s0 + 1) * 10 ^ (n - k) * den
             else (2 * num * 10 ^ (k - n)) ?= (2 * s0 + 1) * den in
    match c with Lt => true | Gt => false | Eq => Z.even s0 end in
  let found :=
    match back s0, back (s0 + 1) with
    | true, true => Some (if low_is_nearer then (s0, k, n) else upper)
    | true, false => Some (s0, k, n)
    | false, true => Some upper
    | false, false => None
    end in
  match found, fuel with
  | Some r, _ => r
  | None, S fuel' => shortest fuel' (k + 1) x num den n
  | None, O => (s0, k, n)
  end.

Definition zeros (n : Z) : jsstring := repeat 48%N (Z.to_nat n).

Definition format (s k n : Z) : jsstring :=
  let d := decimal s in
  if (k <=? n) && (n <=? 21) then d ++ zeros (n - k)
  else if (0 <? n) && (n <=? 21) then firstn (Z.to_nat n) d ++ 46%N :: skipn (Z.to_nat n) d
  else if (-6 <? n) && (n <=? 0) then 48%N :: 46%N :: zeros (- n) ++ d
  else
    let e := n - 1 in
    let exponent := 101%N :: (if e <? 0 then 45%N else 43%N) :: decimal (Z.abs e) in
    match d with
    | [] => []
    | [c] => c :: exponent
    | c :: r => c :: 46%N :: r ++ exponent
    end.

(** Number::toString(x, 10). *)
Definition toString (x : float) : jsstring :=
  match Prim2SF x with
  | S754_nan => lit "NaN"
  | S754_zero _ => lit "0"
  | S754_infinity negative => (if negative then [45%N] else []) ++ lit "Infinity"
  | S754_finite negative m e =>
      let num := if 0 <=? e then Z.pos m * 2 ^ e else Z.pos m in
      let den := if 0 <=? e then 1 else 2 ^ (- e) in
      let n := decimal_exponent 640 (-324) num den in
      let '(s, k, n') := shortest 17 1 (abs x) num den n in
      (if negative then [45%N] else []) ++ format s k n'
  end.

End Number.

(** *** JSON.parse *)

Module JSON.

(** The values [JSON.parse] builds.  An object keeps its members in source
    order, duplicates included; the later member of a duplicated key is the
    one the object holds. *)
Inductive JSValue : Type :=
  | JNull
  | JBool (b : bool)
  | JNumber (n : float)
  | JString (s : jsstring)
  | JArray (elements : list JSValue)
  | JObject (members : list (jsstring * JSValue)).

Definition is_json_ws (c : N) : bool :=
  (c =? 0x09)%N || (c =? 0x0A)%N || (c =? 0x0D)%N || (c =? 0x20)%N.

Fixpoint skip_ws (s : jsstring) : jsstring :=
  match s with
  | c :: r => if is_json_ws c then skip_ws r else s
  | [] => []
  end.

Definition is_digit (c : N) : bool := TextDecoder.between 48 57 c.

Definition hex_value (c : N) : option N :=
  if TextDecoder.between 48 57 c then Some (c - 48)%N
  else if TextDecoder.between 65 70 c then Some (c - 55)%N
  else if TextDecoder.between 97 102 c then Some (c - 87)%N
  else None.

Definition hex4 (a b c d : N) : option N :=
  match hex_value a, hex_value b, hex_value c, hex_value d with
  | Some x, Some y, Some z, Some w => Some (x * 4096 + y * 256 + z * 16 + w)%N
  | _, _, _, _ => None
  end.

(** The characters of a string after its opening quote, up to and including
    the closing one. *)
Fixpoint parse_chars (s : jsstring) : option (jsstring * jsstring) :=
  match s with
  | [] => None
  | 34%N :: r => Some ([], r)
  | 92%N :: 117%N :: a :: b :: c :: d :: r =>
      match hex4 a b c d, parse_chars r with
      | Some u, Some (str, rest) => Some (u :: str, rest)
      | _, _ => None
      end
  | 92%N :: e :: r =>
      let unescaped :=
        match e with
        | 34%N => Some 34%N | 92%N => Some 92%N | 47%N => Some 47%N
        | 98%N => Some 8%N | 102%N => Some 12%N | 110%N => Some 10%N
        | 114%N => Some 13%N | 116%N => Some 9%N
        | _ => None
        end in
      match unescaped, parse_chars r with
      | Some u, Some (str, rest) => Some (u :: str, rest)
      | _, _ => None
      end
  | c :: r =>
      if (c <? 0x20)%N || (c =? 92)%N then None
      else match parse_chars r with
           | Some (str, rest) => Some (c :: str, rest)
           | None => None
           end
  end.

(** The longest prefix of digits, as its decimal value and length. *)
Fixpoint digits (s : jsstring) (value : Z) (count : Z) : Z * Z * jsstring :=
  match s with
  | c :: r => if is_digit c then digits r (10 * value + Z.of_N (c - 48)) (count + 1)
              else (value, count, s)
  | [] => (value, count, [])
  end.

(** A JSON number: [-? int frac? exp?]. *)
Definition parse_number (s : jsstring) : option (float * jsstring) :=
  let '(negative, s1) :=
    match s with 45%N :: r => (true, r) | _ => (false, s) end in
  let '(int, n_int, s2) := digits s1 0%Z 0%Z in
  let leading_zero := match s1 with 48%N :: _ => true | _ => false end in
  if (n_int =? 0)%Z || (leading_zero && (1 <? n_int)%Z) then None
  else
    let frac :=
      match s2 with
      | 46%N :: r =>
          let '(m, n_frac, s3) := digits r int 0%Z in
          if (n_frac =? 0)%Z then None else Some (m, n_frac, s3)
      | _ => Some (int, 0%Z, s2)
      end in
    match frac with
    | None => None
    | Some (m, n_frac, s3) =>
        let exponent :=
          match s3 with
          | (101%N | 69%N) :: r =>
              let '(exp_negative, r1) :=
                match r with
                | 45%N :: r' => (true, r')
                | 43%N :: r' => (false, r')
                | _ => (false, r)
                end in
              let '(x, n_exp, s4) := digits r1 0%Z 0%Z in
              if (n_exp =? 0)%Z then None
              else Some (if exp_negative then Z.opp x else x, s4)
          | _ => Some (0%Z, s3)
          end in
        match exponent with
        | None => None
        | Some (x, s4) => Some (Number.of_decimal negative m (x - n_frac), s4)
        end
    end.

Definition expect (word : jsstring) (v : JSValue) (s : jsstring) : option (JSValue * jsstring) :=
  if startsWith s word then Some (v, skipn (List.length word) s) else None.

(** A JSON value, then the elements of an array and the members of an object
    after their first one.  Every call consumes a character before the next
    one, so a fuel above the length of the text is never exhausted. *)
Fixpoint parse_value (fuel : nat) (s : jsstring) {struct fuel} : option (JSValue * jsstring) :=
  match fuel with
  | O => None
  | S fuel' =>
      match skip_ws s with
      | 34%N :: r =>
          match parse_chars r with
          | Some (str, rest) => Some (JString str, rest)
          | None => None
          end
      | 91%N :: r =>
          match skip_ws r with
          | 93%N :: rest => Some (JArray [], rest)
          | _ =>
              match parse_elements fuel' r with
              | Some (vs, rest) => Some (JArray vs, rest)
              | None => None
              end
          end
      | 123%N :: r =>
          match skip_ws r with
          | 125%N :: rest => Some (JObject [], rest)
          | _ =>
              match parse_members fuel' r with
              | Some (ms, rest) => Some (JObject ms, rest)
              | None => None
              end
          end
      | (110%N :: _) as w => expect (lit "null") JNull w
      | (116%N :: _) as w => expect (lit "true") (JBool true) w
      | (102%N :: _) as w => expect (lit "false") (JBool false) w
      | w =>
          match parse_number w with
          | Some (n, rest) => Some (JNumber n, rest)
          | None => None
          end
      end
  end
with parse_elements (fuel : nat) (s : jsstring) {struct fuel}
  : option (list JSValue * jsstring) :=
  match fuel with
  | O => None
  | S fuel' =>
      match parse_value fuel' s with
      | Some (v, r) =>
          match skip_ws r with
          | 44%N :: r' =>
              match parse_elements fuel' r' with
              | Some (vs, rest) => Some (v :: vs, rest)
              | None => None
              end
          | 93%N :: rest => Some ([v], rest)
          | _ => None
          end
      | None => None
      end
  end
with parse_members (fuel : nat) (s : jsstring) {struct fuel}
  : option (list (jsstring * JSValue) * jsstring) :=
  match fuel with
  | O => None
  | S fuel' =>
      match skip_ws s with
      | 34%N :: r =>
          match parse_chars r with
          | Some (key, r1) =>
              match skip_ws r1 with
              | 58%N :: r2 =>
                  match parse_value fuel' r2 with
                  | Some (v, r3) =>
                      match skip_ws r3 with
                      | 44%N :: r4 =>
                          match parse_members fuel' r4 with
                          | Some (ms, rest) => Some ((key, v) :: ms, rest)
                          | None => None
                          end
                      | 125%N :: rest => Some ([(key, v)], rest)
                      | _ => None
                      end
                  | None => None
                  end
              | _ => None
              end
          | None => None
          end
      | _ => None
      end
  end.

(** [JSON.parse(text)]: [None] when it throws a SyntaxError. *)
Definition parse (text : jsstring) : option JSValue :=
  match parse_value (2 * List.length text + 2) text with
  | Some (v, rest) => match skip_ws rest with [] => Some v | _ => None end
  | None => None
  end.

End JSON.

(** ** client/src/App.tsx: the streaming branch of [handleSendMessage] *)

Module Stream.
Import JSON.

(** An abrupt completion is a thrown exception; the loop only ever tells
    whether one was thrown. *)
Inductive completion (A : Type) : Type :=
  | Normal (a : A)
  | Throw.
Arguments Normal {A} a.
Arguments Throw {A}.

(** The own property of an object for a key: the last member with that key,
    [None] for [undefined]. *)
Fixpoint own_property (key : jsstring) (members : list (jsstring * JSValue)) : option JSValue :=
  match members with
  | [] => None
  | (k, v) :: r =>
      match own_property key r with
      | Some v' => Some v'
      | None => if str_eqb k key then Some v else None
      end
  end.

(** [parsed.response], with [None] for [undefined]: a TypeError on [null];
    [undefined] on a primitive or an array, whose prototypes have no such
    property. *)
Definition get_response (parsed : JSValue) : completion (option JSValue) :=
  match parsed with
  | JNull => Throw
  | JObject members => Normal (own_property (lit "response") members)
  | _ => Normal None
  end.

(** ToBoolean, with [None] for [undefined]. *)
Definition ToBoolean (v : option JSValue) : bool :=
  match v with
  | None => false
  | Some JNull => false
  | Some (JBool b) => b
  | Some (JNumber n) => negb (is_zero n || is_nan n)
  | Some (JString s) => match s with [] => false | _ => true end
  | Some (JArray _) => true
  | Some (JObject _) => true
  end.

Section Loop.
(** [JSON.parse], [None] when it throws, and Number::toString. *)
Variable JSON_parse : jsstring -> option JSValue.
Variable Number_toString : float -> jsstring.

(** The string a value contributes to a concatenation.  An array is joined
    with commas, [null] elements being empty; an object is
    ["[object Object]"] through [Object.prototype.toString], unless an own
    member [toString] shadows it: that member is not callable and the
    conversion throws a TypeError. *)
Fixpoint ToString (v : JSValue) : completion jsstring :=
  match v with
  | JNull => Normal (lit "null")
  | JBool b => Normal (lit (if b then "true" else "false"))
  | JNumber n => Normal (Number_toString n)
  | JString s => Normal s
  | JArray elements =>
      (fix join (l : list JSValue) : completion jsstring :=
         match l with
         | [] => Normal []
         | x :: r =>
             let head := match x with JNull => Normal [] | _ => ToString x end in
             match r with
             | [] => head
             | _ :: _ =>
                 match head, join r with
                 | Normal a, Normal b => Normal (a ++ 44%N :: b)
                 | _, _ => Throw
                 end
             end
         end) elements
  | JObject members =>
      match own_property (lit "toString") members with
      | Some _ => Throw
      | None => Normal (lit "[object Object]")
      end
  end.

(** The body of the [try] block on the payload [data]: the new value of
    [fullResponse], or the exception. *)
Definition try_block (fullResponse data : jsstring) : completion jsstring :=
  match JSON_parse data with
  | None => Throw
  | Some parsed =>
      match get_response parsed with
      | Throw => Throw
      | Normal response =>
          if ToBoolean response then
            match response with
            | Some v =>
                match ToString v with
                | Normal s => Normal (fullResponse ++ s)
                | Throw => Throw
                end
            | None => Normal fullResponse
            end
          else Normal fullResponse
      end
  end.

(** [try { ... } catch { fullResponse += data; }] *)
Definition processData (fullResponse data : jsstring) : jsstring :=
  match try_block fullResponse data with
  | Normal fullResponse' => fullResponse'
  | Throw => fullResponse ++ data
  end.

(** The body of [for (const line of lines)]. *)
Definition processLine (fullResponse line : jsstring) : jsstring :=
  let trimmed := trim line in
  if startsWith trimmed (lit "data: ") then
    let data := slice 6 trimmed in
    if str_eqb data (lit "[DONE]") then fullResponse
    else processData fullResponse data
  else fullResponse.

(** The variables of the loop. *)
Record state : Type := {
  decoder : TextDecoder.t;
  buffer : jsstring;
  fullResponse : jsstring
}.

Definition initial : state :=
  {| decoder := TextDecoder.create; buffer := []; fullResponse := [] |}.

(** One iteration of [while (true)] on a chunk [value] that
    [reader.read()] delivered with [done] false. *)
Definition step (st : state) (value : list Byte.byte) : state :=
  let '(d, chunk) := TextDecoder.decode (decoder st) value in
  let lines := split_lines (buffer st ++ chunk) in
  {| decoder := d;
     buffer := last lines [];
     fullResponse := fold_left processLine (removelast lines) (fullResponse st) |}.

(** The loop over the chunks of the body, up to [done]. *)
Definition run (chunks : list (list Byte.byte)) : state :=
  fold_left step chunks initial.

(** The streaming branch of [handleSendMessage] on a response whose body
    delivers [chunks] and then ends: the value of [fullResponse] when the
    loop exits, which is the last content of the assistant message. *)
Definition handleSendMessage (chunks : list (list Byte.byte)) : jsstring :=
  fullResponse (run chunks).

(** The contents the assistant message is set to, one per chunk. *)
Fixpoint snapshots (st : state) (chunks : list (list Byte.byte)) : list jsstring :=
  match chunks with
  | [] => []
  | value :: r => let st' := step st value in fullResponse st' :: snapshots st' r
  end.

(** What the specification asks at the end of the data: the retained buffer
    goes through the per-line rule once more.  The source has no such
    step; the definition only states the specification's reading. *)
Definition final_flush (st : state) : jsstring :=
  processLine (fullResponse st) (buffer st).

Definition handleSendMessage_with_flush (chunks : list (list Byte.byte)) : jsstring :=
  final_flush (run chunks).

End Loop.

(** The state of the loop between two chunks: the decoder is well formed and
    the buffer holds no line feed. *)
Definition state_ok (st : state) : Prop :=
  TextDecoder.utf8_wf (TextDecoder.utf8 (decoder st))
  /\ Forall (fun u => u <> 10%N) (buffer st).

(** The bytes of an ASCII literal. *)
Definition bytes (s : string) : list Byte.byte := list_byte_of_string s.

(** The frame whose payload is the JSON object with the one member
    [response], of value the string [text]; without its line feed. *)
Definition frame (text : string) : string :=
  ("data: {" ++ dquote ++ "response" ++ dquote ++ ":" ++ dquote ++ text ++ dquote ++ "}")%string.

(** The text the decoder produces for the whole stream. *)
Definition decoded (chunks : list (list Byte.byte)) : jsstring :=
  snd (TextDecoder.decode TextDecoder.create (List.concat chunks)).

End Stream.

(** *** JSON.stringify *)

Module JSONText.
Import JSON.

(** A hexadecimal digit, in lower case. *)
Definition hex_digit (n : N) : N := if (n <? 10)%N then (48 + n)%N else (87 + n)%N.

(** UnicodeEscape: a code unit as a backslash, [u] and its four hexadecimal
    digits. *)
Definition UnicodeEscape (c : N) : jsstring :=
  [92%N; 117%N; hex_digit (c / 4096); hex_digit ((c / 256) mod 16);
   hex_digit ((c / 16) mod 16); hex_digit (c mod 16)].

Definition is_leading_surrogate (c : N) : bool := TextDecoder.between 0xD800 0xDBFF c.

Definition is_trailing_surrogate (c : N) : bool := TextDecoder.between 0xDC00 0xDFFF c.

(** The text of a code point that is a single code unit: the
    two-character escapes of the backspace, the tab, the line feed, the form
    feed, the carriage return, the quote and the backslash; UnicodeEscape
    for another control character or for a surrogate, which is a lone one
    here; the code unit itself otherwise. *)
Definition quote_unit (c : N) : jsstring :=
  if (c =? 8)%N then [92%N; 98%N]
  else if (c =? 9)%N then [92%N; 116%N]
  else if (c =? 10)%N then [92%N; 110%N]
  else if (c =? 12)%N then [92%N; 102%N]
  else if (c =? 13)%N then [92%N; 114%N]
  else if (c =? 34)%N then [92%N; 34%N]
  else if (c =? 92)%N then [92%N; 92%N]
  else if (c <? 0x20)%N || is_leading_surrogate c || is_trailing_surrogate c
  then UnicodeEscape c
  else [c].

(** The code points of the string in order: a leading surrogate that a
    trailing one follows is a pair, written as it is. *)
Fixpoint quote_units (s : jsstring) : jsstring :=
  match s with
  | [] => []
  | c :: r =>
      match r with
      | d :: r' =>
          if is_leading_surrogate c && is_trailing_surrogate d
          then c :: d :: quote_units r'
          else quote_unit c ++ quote_units r
      | [] => quote_unit c
      end
  end.

(** QuoteJSONString *)
Definition QuoteJSONString (s : jsstring) : jsstring :=
  34%N :: quote_units s ++ [34%N].

(** [JSON.stringify(v)] without replacer and indentation, for a value that
    JSON can hold: a number that is not finite is written [null], the
    elements of an array and the members of an object are separated by
    commas, the members being in the order of the keys of the object. *)
Fixpoint stringify (v : JSValue) : jsstring :=
  match v with
  | JNull => lit "null"
  | JBool b => lit (if b then "true" else "false")
  | JNumber n => if is_finite n then Number.toString n else lit "null"
  | JString s => QuoteJSONString s
  | JArray elements =>
      91%N ::
      (fix join (l : list JSValue) : jsstring :=
         match l with
         | [] => []
         | x :: r =>
             match r with
             | [] => stringify x
             | _ :: _ => stringify x ++ 44%N :: join r
             end
         end) elements ++ [93%N]
  | JObject members =>
      123%N ::
      (fix join (l : list (jsstring * JSValue)) : jsstring :=
         match l with
         | [] => []
         | (k, x) :: r =>
             match r with
             | [] => QuoteJSONString k ++ 58%N :: stringify x
             | _ :: _ => QuoteJSONString k ++ 58%N :: stringify x ++ 44%N :: join r
             end
         end) members ++ [125%N]
  end.

(** The stages of [parse_number]: the sign, the leading zero, the fraction
    after the integer [int] and the exponent. *)
Definition number_sign (s : jsstring) : bool * jsstring :=
  match s with 45%N :: r => (true, r) | _ => (false, s) end.

Definition leading_zero (s1 : jsstring) : bool :=
  match s1 with 48%N :: _ => true | _ => false end.

Definition number_fraction (int : Z) (s2 : jsstring) : option (Z * Z * jsstring) :=
  match s2 with
  | 46%N :: r =>
      let '(m, n_frac, s3) := digits r int 0%Z in
      if (n_frac =? 0)%Z then None else Some (m, n_frac, s3)
  | _ => Some (int, 0%Z, s2)
  end.

Definition exponent_sign (r : jsstring) : bool * jsstring :=
  match r with
  | 45%N :: r' => (true, r')
  | 43%N :: r' => (false, r')
  | _ => (false, r)
  end.

Definition number_exponent (s3 : jsstring) : option (Z * jsstring) :=
  match s3 with
  | (101%N | 69%N) :: r =>
      let '(exp_negative, r1) := exponent_sign r in
      let '(x, n_exp, s4) := digits r1 0%Z 0%Z in
      if (n_exp =? 0)%Z then None
      else Some (if exp_negative then Z.opp x else x, s4)
  | _ => Some (0%Z, s3)
  end.

(** What may follow a value in a JSON text without white space: nothing, a
    comma, a closing bracket or a closing brace. *)
Definition closed (rest : jsstring) : Prop :=
  rest = [] \/ exists c r, rest = c :: r /\ (c = 44%N \/ c = 93%N \/ c = 125%N).

(** A finite number whose decimal form [parse_number] reads back as the
    number itself.  The form is the shortest that rounds to the number, so
    every finite number but -0, written [0], is expected to pass; the check
    is computed where a number is given. *)
Definition reads_back (n : float) : bool :=
  is_finite n
  && match parse_number (Number.toString n) with
     | Some (m, []) => PrimFloat.Leibniz.eqb m n
     | _ => false
     end.

(** The values all of whose numbers read back. *)
Fixpoint readable (v : JSValue) : bool :=
  match v with
  | JNumber n => reads_back n
  | JArray elements => forallb readable elements
  | JObject members => forallb (fun m => readable (snd m)) members
  | _ => true
  end.

(** The number of values and of elements and members in a value: a fuel
    that suffices for [parse_value] to read its text. *)
Fixpoint size (v : JSValue) : nat :=
  match v with
  | JArray elements => S (list_sum (map (fun x => S (size x)) elements))
  | JObject members => S (list_sum (map (fun m => S (size (snd m))) members))
  | _ => 1
  end.

(** The elements between the brackets and the members between the braces,
    as [stringify] writes them. *)
Fixpoint join_values (l : list JSValue) : jsstring :=
  match l with
  | [] => []
  | x :: r =>
      match r with
      | [] => stringify x
      | _ :: _ => stringify x ++ 44%N :: join_values r
      end
  end.

Fixpoint join_members (l : list (jsstring * JSValue)) : jsstring :=
  match l with
  | [] => []
  | (k, x) :: r =>
      match r with
      | [] => QuoteJSONString k ++ 58%N :: stringify x
      | _ :: _ => QuoteJSONString k ++ 58%N :: stringify x ++ 44%N :: join_members r
      end
  end.

(** The characters a JSON text can start with. *)
Definition opening (c : N) : Prop :=
  c = 110%N \/ c = 116%N \/ c = 102%N \/ c = 34%N \/ c = 91%N \/ c = 123%N
  \/ c = 45%N \/ (48 <= c <= 57)%N.

End JSONText.

(** *** The events of the chat stream

    The stream of the chat endpoint is a sequence of server-sent events:
    one per token, whose data is a JSON object with the member [response],
    and the sentinel. *)

Module EventStream.
Import JSON.

Inductive Event : Type :=
  | Token (response : jsstring)
  | Done.

Definition data (e : Event) : jsstring :=
  match e with
  | Token response => JSONText.stringify (JObject [(lit "response", JString response)])
  | Done => lit "[DONE]"
  end.

(** An event on the wire: its [data: ] line and the empty line that ends
    it. *)
Definition event_text (e : Event) : jsstring :=
  lit "data: " ++ data e ++ [10%N; 10%N].

Definition stream_text (events : list Event) : jsstring :=
  List.concat (map event_text events).

(** The responses of the tokens, in order. *)
Definition responses (events : list Event) : jsstring :=
  List.concat (map (fun e => match e with Token response => response | Done => [] end) events).

(** The lines of such a stream as a client may receive them, whatever the
    server wrote between the tokens of its JSON texts, and what each adds to
    the answer: a [data: ] line whose payload parses to an object with the
    member [response], a string, adds that string; the sentinel line and a
    line that is no [data: ] line (an empty line, a comment, another field)
    add nothing. *)
Inductive adds : jsstring -> jsstring -> Prop :=
  | adds_token (line data : jsstring) (members : list (jsstring * JSValue))
      (response : jsstring) :
      trim line = lit "data: " ++ data ->
      JSON.parse data = Some (JObject members) ->
      Stream.own_property (lit "response") members = Some (JString response) ->
      adds line response
  | adds_sentinel (line : jsstring) :
      trim line = lit "data: [DONE]" -> adds line []
  | adds_other (line : jsstring) :
      startsWith (trim line) (lit "data: ") = false -> adds line [].

End EventStream.
(** ** src/index.ts: the Worker *)

Module Worker.
Import JSON Stream.

Definition SYSTEM_PROMPT : jsstring := lit
"You are an expert on Cloudflare's global edge network and latency optimization. You help users understand:

1. How edge computing reduces latency by processing requests closer to users
2. Cloudflare's global network spanning 300+ cities in 100+ countries
3. Why the user is connected to their specific data center
4. Technical concepts like RTT (Round Trip Time), TTFB (Time To First Byte), and CDN caching
5. How Cloudflare is within 50ms of 95% of the Internet-connected population

Be concise, friendly, and technically accurate. Use simple analogies to explain complex concepts.
When discussing the user's connection, reference their specific location data if available.
Keep responses brief (2-3 sentences) unless asked for more detail.

Important facts:
- Each Cloudflare data center is named with a 3-letter IATA airport code (like LHR for London Heathrow)
- Requests are automatically routed to the nearest healthy data center
- Edge computing means running code closer to users instead of in a central location".

(** [request.cf], every property of which is optional. *)
Module Cf.
Record t : Type := {
  colo : option jsstring;
  city : option jsstring;
  country : option jsstring;
  latitude : option jsstring;
  longitude : option jsstring;
  timezone : option jsstring;
  region : option jsstring;
  regionCode : option jsstring;
  asn : option float;
  asOrganization : option jsstring
}.
End Cf.

(** What [fetch] reads of the request: its method, the path of its URL,
    [request.cf], and the text that [request.json()] parses. *)
Record Request : Type := {
  method : jsstring;
  pathname : jsstring;
  cf : option Cf.t;
  text : jsstring
}.

(** The arguments of [new Response(body, { status, headers })]: the body is
    [null], a string, or the stream that [env.AI.run] returned; the status
    is 200 when the source gives none. *)
Inductive Body (ReadableStream : Type) : Type :=
  | Null
  | Text (s : jsstring)
  | Readable (stream : ReadableStream).
Arguments Null {ReadableStream}.
Arguments Text {ReadableStream} s.
Arguments Readable {ReadableStream} stream.

Record Response (ReadableStream : Type) : Type := {
  body : Body ReadableStream;
  status : N;
  headers : list (jsstring * jsstring)
}.
Arguments body {ReadableStream} r.
Arguments status {ReadableStream} r.
Arguments headers {ReadableStream} r.

Definition corsHeaders : list (jsstring * jsstring) :=
  [(lit "Access-Control-Allow-Origin", lit "*");
   (lit "Access-Control-Allow-Methods", lit "GET, POST, OPTIONS");
   (lit "Access-Control-Allow-Headers", lit "Content-Type")].

(** [v || d] on an optional string and on an optional number. *)
Definition or_string (v : option jsstring) (d : jsstring) : jsstring :=
  match v with
  | Some (c :: s) => c :: s
  | _ => d
  end.

Definition or_number (v : option float) (d : float) : float :=
  match v with
  | Some n => if is_zero n || is_nan n then d else n
  | None => d
  end.

(** [cf?.p] *)
Definition optional {A : Type} (p : Cf.t -> option A) (cf : option Cf.t) : option A :=
  match cf with
  | Some c => p c
  | None => None
  end.

Definition locationData (cf : option Cf.t) : JSValue :=
  JObject
    [(lit "colo", JString (or_string (optional Cf.colo cf) (lit "Unknown")));
     (lit "city", JString (or_string (optional Cf.city cf) (lit "Unknown")));
     (lit "country", JString (or_string (optional Cf.country cf) (lit "Unknown")));
     (lit "latitude", JString (or_string (optional Cf.latitude cf) (lit "0")));
     (lit "longitude", JString (or_string (optional Cf.longitude cf) (lit "0")));
     (lit "timezone", JString (or_string (optional Cf.timezone cf) (lit "Unknown")));
     (lit "region", JString (or_string (optional Cf.region cf) (lit "Unknown")));
     (lit "regionCode", JString (or_string (optional Cf.regionCode cf) (lit "Unknown")));
     (lit "asn", JNumber (or_number (optional Cf.asn cf) 0));
     (lit "asOrganization",
      JString (or_string (optional Cf.asOrganization cf) (lit "Unknown")))].

(** An entry of the table and the table as the values [JSON.stringify]
    writes. *)
Definition edge_value (e : Edges.EdgeLocation) : JSValue :=
  JObject
    [(lit "code", JString (Edges.code e));
     (lit "city", JString (Edges.city e));
     (lit "country", JString (Edges.country e));
     (lit "lat", JNumber (Edges.lat e));
     (lit "lng", JNumber (Edges.lng e))].

Definition edges_value (table : list Edges.EdgeLocation) : JSValue :=
  JArray (map edge_value table).

(** *** The chat endpoint

    The body of the request is whatever JSON text the client sent: the
    handler is modelled on the values of [JSON.parse], with [None] for
    [undefined]. *)

Definition bind {A B : Type} (c : completion A) (f : A -> completion B) : completion B :=
  match c with
  | Normal a => f a
  | Throw => Throw
  end.

#[local] Notation "x <- c ;; f" := (bind c (fun x => f))
  (at level 61, c at next level, right associativity).

(** [v.key] for a key that no prototype defines: a TypeError on [null], the
    own property of an object, [undefined] on an array or a primitive. *)
Definition get (key : string) (v : JSValue) : completion (option JSValue) :=
  match v with
  | JNull => Throw
  | JObject members => Normal (own_property (lit key) members)
  | _ => Normal None
  end.

(** The string of a value in a template literal. *)
Definition template (v : option JSValue) : completion jsstring :=
  match v with
  | None => Normal (lit "undefined")
  | Some v => ToString Number.toString v
  end.

(** [getEdgeByCode(code)] on a value: [e.code === code] holds for a string
    of the same code units only. *)
Definition edge_of (code : option JSValue) : option Edges.EdgeLocation :=
  match code with
  | Some (JString c) => Edges.getEdgeByCode c
  | _ => None
  end.

(** The text the handler appends to the prompt for a [location] that is
    truthy, hence neither [null] nor [undefined]. *)
Definition connection_info (location : JSValue) : completion jsstring :=
  colo <- get "colo" location ;;
  let edge := edge_of colo in
  city <- get "city" location ;;
  city <- template city ;;
  country <- get "country" location ;;
  country <- template country ;;
  colo <- template colo ;;
  Normal (lit (line_feed ++ line_feed ++ "Current user connection info:" ++ line_feed
               ++ "- User location: ")
          ++ city ++ lit ", " ++ country
          ++ lit (line_feed ++ "- Connected to edge: ") ++ colo
          ++ match edge with
             | Some e => lit " (" ++ Edges.city e ++ lit ", " ++ Edges.country e ++ lit ")"
             | None => []
             end).

Definition contextPrompt (location : option JSValue) : completion jsstring :=
  match location with
  | Some l =>
      if ToBoolean location then
        info <- connection_info l ;; Normal (SYSTEM_PROMPT ++ info)
      else Normal SYSTEM_PROMPT
  | None => Normal SYSTEM_PROMPT
  end.

(** An element of the [messages] array. *)
Record Message : Type := {
  role : option JSValue;
  content : option JSValue
}.

(** [history.map((m) => ({ role: m.role, content: m.content }))] on the
    elements of an array. *)
Fixpoint history_map (elements : list JSValue) : completion (list Message) :=
  match elements with
  | [] => Normal []
  | m :: r =>
      role <- get "role" m ;;
      content <- get "content" m ;;
      rest <- history_map r ;;
      Normal ({| role := role; content := content |} :: rest)
  end.

(** [history = []] in the destructuring, then [history.map]: the default
    stands for [undefined] only, and what is not an array has no callable
    [map]. *)
Definition history_messages (history : option JSValue) : completion (list Message) :=
  match history with
  | None => Normal []
  | Some (JArray elements) => history_map elements
  | Some _ => Throw
  end.

(** The [messages] array built from the parsed body. *)
Definition chat_messages (body : JSValue) : completion (list Message) :=
  message <- get "message" body ;;
  history <- get "history" body ;;
  location <- get "location" body ;;
  prompt <- contextPrompt location ;;
  mapped <- history_messages history ;;
  Normal ({| role := Some (JString (lit "system")); content := Some (JString prompt) |}
          :: mapped ++ [{| role := Some (JString (lit "user")); content := message |}]).

Section Fetch.
(** [env.AI.run] of the model on [{ messages, stream: true, max_tokens: 500 }]:
    the stream it resolves to, or its rejection. *)
Variable ReadableStream : Type.
Variable AI_run : list Message -> completion ReadableStream.

(** The [try] block of the chat endpoint. *)
Definition chat (request : Request) : completion ReadableStream :=
  match JSON.parse (text request) with
  | None => Throw
  | Some body => messages <- chat_messages body ;; AI_run messages
  end.

Definition json_headers : list (jsstring * jsstring) :=
  (lit "Content-Type", lit "application/json") :: corsHeaders.

Definition fetch (request : Request) : Response ReadableStream :=
  if str_eqb (method request) (lit "OPTIONS") then
    {| body := Null; status := 200; headers := corsHeaders |}
  else if str_eqb (pathname request) (lit "/api/location") then
    {| body := Text (JSONText.stringify (locationData (cf request)));
       status := 200; headers := json_headers |}
  else if str_eqb (pathname request) (lit "/api/edges") then
    {| body := Text (JSONText.stringify (edges_value Edges.EDGE_LOCATIONS));
       status := 200; headers := json_headers |}
  else if str_eqb (pathname request) (lit "/api/chat")
          && str_eqb (method request) (lit "POST") then
    match chat request with
    | Normal response =>
        {| body := Readable response; status := 200;
           headers := (lit "Content-Type", lit "text/event-stream")
                      :: (lit "Cache-Control", lit "no-cache") :: corsHeaders |}
    | Throw =>
        {| body := Text (JSONText.stringify
                           (JObject [(lit "error",
                                      JString (lit "Failed to process chat request"))]));
           status := 500; headers := json_headers |}
    end
  else
    {| body := Text (lit "Not Found"); status := 404; headers := corsHeaders |}.

End Fetch.

End Worker.
(** ** client/src/App.tsx: the connected edge and the messages *)

Module App.
Import JSON.

Record LocationData : Type := {
  colo : jsstring;
  city : jsstring;
  country : jsstring;
  latitude : jsstring;
  longitude : jsstring;
  timezone : jsstring;
  region : jsstring
}.

Record Message : Type := {
  id : jsstring;
  role : jsstring;
  content : jsstring
}.

(** [edges.find((e) => e.code === locationData?.colo)]: without location
    data the code sought is [undefined], which no code equals. *)
Definition connectedEdge (edges : list Edges.EdgeLocation)
    (locationData : option LocationData) : option Edges.EdgeLocation :=
  match locationData with
  | Some l => Edges.getEdgeByCodeIn edges (colo l)
  | None => None
  end.

(** The demo data of [fetchData], set when a request or the reading of an
    answer fails. *)
Definition demo_location : JSValue :=
  JObject
    [(lit "colo", JString (lit "LHR")); (lit "city", JString (lit "London"));
     (lit "country", JString (lit "GB")); (lit "latitude", JString (lit "51.5074"));
     (lit "longitude", JString (lit "-0.1278"));
     (lit "timezone", JString (lit "Europe/London"));
     (lit "region", JString (lit "England"))].

(** The state [locationData] after [fetchData]: [location] and [edges] are
    what [locationRes.json()] and [edgesRes.json()] resolve to, [None] when
    the request or the parsing of its answer fails.  The state is whatever
    value the answer of [/api/location] parses to, with all of its keys;
    before [fetchData] it is [null]. *)
Definition fetchData (location edges : option JSValue) : JSValue :=
  match location, edges with
  | Some l, Some _ => l
  | _, _ => demo_location
  end.

(** The object [handleSendMessage] passes to [JSON.stringify] as the body
    of its request: [text] is the message, [messages] the state of the
    conversation the callback was created with, [location] the value of
    [locationData]. *)
Definition request_body (text : jsstring) (messages : list Message) (location : JSValue)
    : JSValue :=
  JObject
    [(lit "message", JString text);
     (lit "history",
      JArray (map (fun m => JObject [(lit "role", JString (role m));
                                     (lit "content", JString (content m))]) messages));
     (lit "location", location)].

(** The three messages [handleSendMessage] creates; [now] is the value of
    [Date.now()] at their creation. *)
Definition userMessage (now : float) (text : jsstring) : Message :=
  {| id := lit "user-" ++ Number.toString now; role := lit "user"; content := text |}.

Definition assistantId (now : float) : jsstring :=
  lit "assistant-" ++ Number.toString now.

Definition assistantMessage (now : float) : Message :=
  {| id := assistantId now; role := lit "assistant"; content := [] |}.

Definition errorMessage (now : float) : Message :=
  {| id := lit "error-" ++ Number.toString now; role := lit "assistant";
     content := lit "Sorry, I encountered an error. Please make sure you're running this on Cloudflare Workers to use the AI features." |}.

(** [prev.map((msg) => msg.id === assistantId ? { ...msg, content: fullResponse } : msg)] *)
Definition set_content (assistantId fullResponse : jsstring) (prev : list Message)
    : list Message :=
  map (fun msg =>
         if str_eqb (id msg) assistantId
         then {| id := id msg; role := role msg; content := fullResponse |}
         else msg) prev.

(** What happens to the request of [handleSendMessage]: [fetch] rejects or
    the response is not [ok]; or the body delivers [chunks] and then ends,
    or fails after them. *)
Inductive Outcome : Type :=
  | Failed
  | Streamed (chunks : list (list Byte.byte)) (broken : bool).

(** The state [messages] after [handleSendMessage(text)] on the state
    [prev], the updates being applied in the order of the calls of
    [setMessages]: the user message; then either the error message of the
    [catch] block, or the empty assistant message, one update per chunk
    read and, when reading fails, the error message.  The branch for a
    response without a body is not part of the definition. *)
Definition handleSendMessage (prev : list Message) (text : jsstring)
    (t_user t_assistant t_error : float) (outcome : Outcome) : list Message :=
  let sent := prev ++ [userMessage t_user text] in
  match outcome with
  | Failed => sent ++ [errorMessage t_error]
  | Streamed chunks broken =>
      let updated :=
        fold_left (fun messages fullResponse =>
                     set_content (assistantId t_assistant) fullResponse messages)
          (Stream.snapshots JSON.parse Number.toString Stream.initial chunks)
          (sent ++ [assistantMessage t_assistant]) in
      if broken then updated ++ [errorMessage t_error] else updated
  end.

End App.

(** ** components/Chat.tsx *)

Module Chat.

(** ToBoolean of a string. *)
Definition truthy (s : jsstring) : bool :=
  match s with
  | [] => false
  | _ :: _ => true
  end.

(** [handleSubmit]: the message passed to [onSendMessage], if any, and the
    value of [input] afterwards. *)
Definition handleSubmit (input : jsstring) (isLoading : bool) : option jsstring * jsstring :=
  if truthy (trim input) && negb isLoading then (Some (trim input), [])
  else (None, input).

End Chat.

(** ** components/WorldMap.tsx *)

Module WorldMap.
Import Stream.
#[local] Open Scope float_scope.

(** *** The flag of a country *)

(** [s.charCodeAt(i)], [None] for NaN. *)
Definition charCodeAt (s : jsstring) (i : nat) : option N := nth_error s i.

(** [String.fromCodePoint] on two numbers: a RangeError on one that is not
    a code point, NaN among them. *)
Definition fromCodePoint (a b : option N) : completion jsstring :=
  match a, b with
  | Some a, Some b =>
      if (a <=? 0x10FFFF)%N && (b <=? 0x10FFFF)%N
      then Normal (TextDecoder.code_units a ++ TextDecoder.code_units b)
      else Throw
  | _, _ => Throw
  end.

Definition plus (c : option N) (offset : N) : option N :=
  match c with
  | Some c => Some (c + offset)%N
  | None => None
  end.

Section Flag.
(** [String.prototype.toUpperCase] *)
Variable toUpperCase : jsstring -> jsstring.

Definition countryCodeToFlag (countryCode : jsstring) : completion jsstring :=
  let code := toUpperCase countryCode in
  let offset := (0x1F1E6 - 65)%N in
  fromCodePoint (plus (charCodeAt code 0) offset) (plus (charCodeAt code 1) offset).

End Flag.

(** The upper case of an ASCII code unit. *)
Definition upper_ascii (c : N) : N :=
  if TextDecoder.between 97 122 c then (c - 32)%N else c.

(** What the proofs use of [toUpperCase]: the case mapping goes code point
    by code point, and on an ASCII one it is [upper_ascii]. *)
Record CaseLaws (toUpperCase : jsstring -> jsstring) : Prop := {
  upper_nil : toUpperCase [] = [];
  upper_cons : forall c s, (c < 128)%N ->
    toUpperCase (c :: s) = upper_ascii c :: toUpperCase s
}.

(** The mapping on ASCII strings, at which the theorems are instantiated. *)
Definition ascii_toUpperCase (s : jsstring) : jsstring := map upper_ascii s.

(** *** The connected edge *)

Record UserLocation : Type := {
  latitude : jsstring;
  longitude : jsstring;
  colo : jsstring
}.

Definition connectedEdge (edges : list Edges.EdgeLocation)
    (userLocation : option UserLocation) : option Edges.EdgeLocation :=
  match userLocation with
  | Some l =>
      match colo l with
      | [] => None
      | _ :: _ => Edges.getEdgeByCodeIn edges (colo l)
      end
  | None => None
  end.

(** [isConnected={connectedEdge?.code === edge.code}] *)
Definition isConnected (connected : option Edges.EdgeLocation) (edge : Edges.EdgeLocation)
    : bool :=
  match connected with
  | Some c => str_eqb (Edges.code c) (Edges.code edge)
  | None => false
  end.

(** The location data as the map receives it. *)
Definition userLocation (locationData : option App.LocationData) : option UserLocation :=
  match locationData with
  | Some l => Some {| latitude := App.latitude l; longitude := App.longitude l;
                      colo := App.colo l |}
  | None => None
  end.

(** *** Zoom and pan *)

Definition is_negative_zero (a : float) : bool := is_zero a && get_sign a.

(** [Math.max] and [Math.min] of two numbers: NaN when one is NaN, and +0 is
    above -0. *)
Definition Math_max (a b : float) : float :=
  if is_nan a || is_nan b then nan
  else if a <? b then b
  else if b <? a then a
  else if is_negative_zero a then b else a.

Definition Math_min (a b : float) : float :=
  if is_nan a || is_nan b then nan
  else if a <? b then a
  else if b <? a then b
  else if is_negative_zero a then a else b.

Definition WIDTH : float := 1000.

Definition HEIGHT : float := 500.

Definition MIN_ZOOM : float := 1.

Definition MAX_ZOOM : float := 4.

Record Point : Type := {
  x : float;
  y : float
}.

(** The states [zoom] and [pan]. *)
Record View : Type := {
  zoom : float;
  pan : Point
}.

Definition initial : View := {| zoom := 1; pan := {| x := 0; y := 0 |} |}.

Definition handleZoomIn (v : View) : View :=
  {| zoom := Math_min (zoom v * 1.5) MAX_ZOOM; pan := pan v |}.

(** [handleZoomOut] reads the [zoom] of the render it was created in; the
    actions are taken one per render. *)
Definition handleZoomOut (v : View) : View :=
  let newZoom := Math_max (zoom v / 1.5) MIN_ZOOM in
  {| zoom := newZoom;
     pan := if newZoom =? 1 then {| x := 0; y := 0 |} else pan v |}.

Definition handleZoomReset (v : View) : View :=
  {| zoom := 1; pan := {| x := 0; y := 0 |} |}.

Definition viewBoxWidth (v : View) : float := WIDTH / zoom v.

Definition viewBoxHeight (v : View) : float := HEIGHT / zoom v.

(** The move handlers while a drag is on: [rect] is the size of the
    bounding rectangle cached at its start, [start] the last position and
    [client] the position of the event. *)
Definition handleMouseMove (v : View) (rect start client : Point) : View :=
  let scaleX := viewBoxWidth v / x rect in
  let scaleY := viewBoxHeight v / y rect in
  let dx := (x client - x start) * scaleX in
  let dy := (y client - y start) * scaleY in
  {| zoom := zoom v; pan := {| x := x (pan v) - dx; y := y (pan v) - dy |} |}.

Definition maxPanX (v : View) : float := Math_max 0 ((WIDTH - viewBoxWidth v) / 2).

Definition maxPanY (v : View) : float := Math_max 0 ((HEIGHT - viewBoxHeight v) / 2).

Definition clampedPanX (v : View) : float :=
  Math_max (- maxPanX v) (Math_min (maxPanX v) (x (pan v))).

Definition clampedPanY (v : View) : float :=
  Math_max (- maxPanY v) (Math_min (maxPanY v) (y (pan v))).

Definition viewBoxX (v : View) : float := WIDTH / 2 - viewBoxWidth v / 2 + clampedPanX v.

Definition viewBoxY (v : View) : float := HEIGHT / 2 - viewBoxHeight v / 2 + clampedPanY v.

(** What the user does to the map. *)
Inductive Action : Type :=
  | ZoomIn
  | ZoomOut
  | ZoomReset
  | Move (rect start client : Point).

Definition handle (v : View) (a : Action) : View :=
  match a with
  | ZoomIn => handleZoomIn v
  | ZoomOut => handleZoomOut v
  | ZoomReset => handleZoomReset v
  | Move rect start client => handleMouseMove v rect start client
  end.

(** The values [zoom] takes. *)
Definition zoom_levels : list float :=
  [1; 1.5; 2.25; 3.375; 4; 2.6666666666666665; 1.7777777777777777; 1.1851851851851851].

End WorldMap.
(** * Part II: the theorems *)

(** ** Facts of binary64 arithmetic *)

Module FloatFacts.
#[local] Open Scope float_scope.

Lemma Prim2SF_nan : Prim2SF nan = S754_nan.
Proof. reflexivity. Qed.

Lemma is_nan_spec (x : float) : is_nan x = true <-> x = nan.
Proof.
  unfold is_nan. rewrite eqb_spec. split.
  - intros H. apply Prim2SF_inj. rewrite Prim2SF_nan.
    destruct (Prim2SF x) as [s|s| |s m e]; try reflexivity; exfalso.
    + now destruct s.
    + now destruct s.
    + unfold SFeqb, SFcompare in H.
      rewrite Z.compare_refl in H.
      assert (Hm : Pos.compare_cont Eq m m = Eq) by apply Pos.compare_refl.
      rewrite Hm in H. now destruct s.
  - intros ->. reflexivity.
Qed.

(** NaN is absorbing. *)
Lemma sub_nan_r x : x - nan = nan.
Proof. apply Prim2SF_inj. rewrite sub_spec, Prim2SF_nan. now destruct (Prim2SF x) as [[]|[]| |[] ? ?]. Qed.

Lemma add_nan_l x : nan + x = nan.
Proof. apply Prim2SF_inj. rewrite add_spec, Prim2SF_nan. reflexivity. Qed.

Lemma add_nan_r x : x + nan = nan.
Proof. apply Prim2SF_inj. rewrite add_spec, Prim2SF_nan. now destruct (Prim2SF x) as [[]|[]| |[] ? ?]. Qed.

Lemma mul_nan_l x : nan * x = nan.
Proof. apply Prim2SF_inj. rewrite mul_spec, Prim2SF_nan. reflexivity. Qed.

Lemma mul_nan_r x : x * nan = nan.
Proof. apply Prim2SF_inj. rewrite mul_spec, Prim2SF_nan. now destruct (Prim2SF x) as [[]|[]| |[] ? ?]. Qed.

(** Below zero are the negative infinity and the negative finite numbers. *)
Lemma ltb_zero x :
  (x <? 0) = match Prim2SF x with
             | S754_infinity true | S754_finite true _ _ => true
             | _ => false
             end.
Proof.
  rewrite ltb_spec. change (Prim2SF 0) with (S754_zero false).
  now destruct (Prim2SF x) as [[]|[]| |[] m e].
Qed.

Lemma ltb_nan_l x : (nan <? x) = false.
Proof. rewrite ltb_spec, Prim2SF_nan. reflexivity. Qed.

(** The sign goes through rounding. *)
Lemma binary_round_aux_opp s m e l :
  binary_round_aux prec emax (negb s) m e l = SFopp (binary_round_aux prec emax s m e l).
Proof.
  unfold binary_round_aux.
  destruct (shr_fexp prec emax m e l) as [mrs' e'].
  destruct (shr_fexp prec emax _ e' loc_Exact) as [mrs'' e''].
  destruct (shr_m mrs''); try reflexivity.
  now destruct (Z.leb e'' (emax - prec)).
Qed.

Lemma SFmul_opp_l x y : SF64mul (SFopp x) y = SFopp (SF64mul x y).
Proof.
  destruct x as [sx|sx| |sx mx ex], y as [sy|sy| |sy my ey]; simpl; try reflexivity;
    try (now destruct sx, sy).
  unfold SF64mul, SFmul.
  replace (xorb (negb sx) sy) with (negb (xorb sx sy)) by now destruct sx, sy.
  apply binary_round_aux_opp.
Qed.

Lemma SFmul_comm x y : SF64mul x y = SF64mul y x.
Proof.
  destruct x as [sx|sx| |sx mx ex], y as [sy|sy| |sy my ey]; simpl; try reflexivity;
    try (now destruct sx, sy).
  unfold SF64mul, SFmul. now rewrite xorb_comm, Pos.mul_comm, Z.add_comm.
Qed.

Lemma SFdiv_opp_l x y : SF64div (SFopp x) y = SFopp (SF64div x y).
Proof.
  destruct x as [sx|sx| |sx mx ex], y as [sy|sy| |sy my ey]; simpl; try reflexivity;
    try (now destruct sx, sy).
  unfold SF64div, SFdiv.
  destruct (SFdiv_core_binary prec emax (Z.pos mx) ex (Z.pos my) ey) as [[mz ez] lz].
  replace (xorb (negb sx) sy) with (negb (xorb sx sy)) by now destruct sx, sy.
  apply binary_round_aux_opp.
Qed.

Lemma mul_opp_l x y : (- x) * y = - (x * y).
Proof. apply Prim2SF_inj. rewrite mul_spec, !opp_spec, mul_spec. apply SFmul_opp_l. Qed.

Lemma mul_comm x y : x * y = y * x.
Proof. apply Prim2SF_inj. rewrite !mul_spec. apply SFmul_comm. Qed.

Lemma opp_involutive x : - - x = x.
Proof. apply Prim2SF_inj. rewrite !opp_spec. now destruct (Prim2SF x) as [[]|[]| |[] ? ?]. Qed.

Lemma mul_opp_opp x : (- x) * (- x) = x * x.
Proof. now rewrite mul_opp_l, (mul_comm x (- x)), mul_opp_l, opp_involutive. Qed.

Lemma div_opp_l x y : (- x) / y = - (x / y).
Proof. apply Prim2SF_inj. rewrite div_spec, !opp_spec, div_spec. apply SFdiv_opp_l. Qed.

Lemma binary_round_opp s m e :
  binary_round prec emax (negb s) m e = SFopp (binary_round prec emax s m e).
Proof.
  unfold binary_round.
  destruct (shl_align m e _) as [mz ez]. apply binary_round_aux_opp.
Qed.

Lemma binary_normalize_opp m e :
  m <> 0%Z ->
  binary_normalize prec emax (- m) e false = SFopp (binary_normalize prec emax m e false).
Proof.
  destruct m as [|p|p]; simpl; intros H.
  - now elim H.
  - apply (binary_round_opp false).
  - rewrite (binary_round_opp true). simpl. now destruct (binary_round prec emax true p e) as [[]|[]| |[] ? ?].
Qed.

(** Swapping the operands of a subtraction negates the result, except that
    an exact zero difference is [+0] both ways. *)
Lemma SFsub_swap x y :
  SF64sub y x = SFopp (SF64sub x y)
  \/ (SF64sub x y = S754_zero false /\ SF64sub y x = S754_zero false).
Proof.
  destruct x as [sx|sx| |sx mx ex], y as [sy|sy| |sy my ey]; simpl;
    try (now left); try (destruct sx, sy; simpl; auto; fail).
  unfold SF64sub, SFsub. rewrite (Z.min_comm ey ex).
  set (ez := Z.min ex ey).
  set (X := cond_Zopp sx (Z.pos (fst (shl_align mx ex ez)))).
  set (Y := cond_Zopp sy (Z.pos (fst (shl_align my ey ez)))).
  destruct (Z.eq_dec (X - Y) 0) as [E|E].
  - right. replace (Y - X)%Z with 0%Z by lia. now rewrite E.
  - left. replace (Y - X)%Z with (- (X - Y))%Z by lia. now apply binary_normalize_opp.
Qed.

Lemma sub_swap x y : y - x = - (x - y) \/ (x - y = zero /\ y - x = zero).
Proof.
  destruct (SFsub_swap (Prim2SF x) (Prim2SF y)) as [H|[H1 H2]].
  - left. apply Prim2SF_inj. now rewrite opp_spec, !sub_spec.
  - right. split; apply Prim2SF_inj; now rewrite sub_spec.
Qed.

(** The comparison of two numbers, neither of them NaN, as a [comparison]. *)
Ltac sf_cases :=
  repeat match goal with
  | s : bool |- _ => destruct s
  | |- context [Z.compare ?a ?b] => destruct (Z.compare_spec a b)
  | H : context [Z.compare ?a ?b] |- _ => destruct (Z.compare_spec a b)
  | |- context [Pos.compare_cont Eq ?a ?b] =>
      change (Pos.compare_cont Eq a b) with (Pos.compare a b);
      destruct (Pos.compare_spec a b)
  | H : context [Pos.compare_cont Eq ?a ?b] |- _ =>
      change (Pos.compare_cont Eq a b) with (Pos.compare a b) in H;
      destruct (Pos.compare_spec a b)
  end;
  simpl in *; subst; try congruence; try lia.

Lemma SFltb_trans x y z : SFltb x y = true -> SFltb y z = true -> SFltb x z = true.
Proof.
  unfold SFltb, SFcompare.
  destruct x as [sx|sx| |sx mx ex], y as [sy|sy| |sy my ey], z as [sz|sz| |sz mz ez];
    try discriminate; intros H1 H2; sf_cases.
Qed.

Lemma SFltb_total x y :
  x <> S754_nan -> y <> S754_nan -> SFltb x y = false -> SFleb y x = true.
Proof.
  unfold SFltb, SFleb, SFcompare.
  destruct x as [sx|sx| |sx mx ex], y as [sy|sy| |sy my ey];
    try congruence; intros _ _ H; sf_cases.
Qed.

Lemma SFeqb_ltb x y z : SFeqb x y = true -> SFltb y z = true -> SFltb x z = true.
Proof.
  unfold SFltb, SFeqb, SFcompare.
  destruct x as [sx|sx| |sx mx ex], y as [sy|sy| |sy my ey], z as [sz|sz| |sz mz ez];
    try discriminate; intros H1 H2; sf_cases.
Qed.

Lemma ltb_trans x y z : (x <? y) = true -> (y <? z) = true -> (x <? z) = true.
Proof. rewrite !ltb_spec. apply SFltb_trans. Qed.

Lemma ltb_total x y :
  is_nan x = false -> is_nan y = false -> (x <? y) = false -> (y <=? x) = true.
Proof.
  intros Hx Hy. rewrite ltb_spec, leb_spec. apply SFltb_total.
  - intros E. assert (x = nan) by (apply Prim2SF_inj; now rewrite E). subst. discriminate.
  - intros E. assert (y = nan) by (apply Prim2SF_inj; now rewrite E). subst. discriminate.
Qed.

Lemma eqb_ltb x y z : (x =? y) = true -> (y <? z) = true -> (x <? z) = true.
Proof. rewrite eqb_spec, !ltb_spec. apply SFeqb_ltb. Qed.

Lemma ltb_nan_r x : (x <? nan) = false.
Proof. rewrite ltb_spec, Prim2SF_nan. unfold SFltb, SFcompare. now destruct (Prim2SF x) as [[]|[]| |[] ? ?]. Qed.

(** A number below [Infinity] is not NaN. *)
Lemma below_infinity_number x : (x <? infinity) = true -> is_nan x = false.
Proof.
  intros H. destruct (is_nan x) eqn:E; [|reflexivity].
  apply is_nan_spec in E. subst x. now rewrite ltb_nan_l in H.
Qed.

(** Only NaN and [Infinity] are not below [Infinity]. *)
Lemma not_ltb_infinity x : (x <? infinity) = false -> x = nan \/ x = infinity.
Proof.
  rewrite ltb_spec. change (Prim2SF infinity) with (S754_infinity false).
  destruct (Prim2SF x) as [s|s| |s m e] eqn:E; unfold SFltb, SFcompare; try (destruct s; discriminate).
  - destruct s; try discriminate. intros _. right. apply Prim2SF_inj. now rewrite E.
  - intros _. left. apply Prim2SF_inj. now rewrite E.
Qed.

Lemma ltb_irrefl x : (x <? x) = false.
Proof.
  rewrite ltb_spec. unfold SFltb, SFcompare.
  destruct (Prim2SF x) as [[]|[]| |[] m e]; try reflexivity;
    rewrite Z.compare_refl; change (Pos.compare_cont Eq m m) with (Pos.compare m m);
    now rewrite Pos.compare_refl.
Qed.

(** The finite numbers are the zeros and the numbers with a mantissa. *)
Lemma is_finite_spec x :
  is_finite x = match Prim2SF x with
                | S754_zero _ | S754_finite _ _ _ => true
                | _ => false
                end.
Proof.
  unfold is_finite, is_nan, is_infinity. rewrite !eqb_spec, abs_spec.
  change (Prim2SF infinity) with (S754_infinity false).
  destruct (Prim2SF x) as [[]|[]| |s m e]; try reflexivity.
  unfold SFeqb, SFcompare. rewrite Z.compare_refl.
  change (Pos.compare_cont Eq m m) with (Pos.compare m m). rewrite Pos.compare_refl.
  now destruct s.
Qed.

Lemma is_finite_opp x : is_finite (- x) = is_finite x.
Proof. rewrite !is_finite_spec, opp_spec. now destruct (Prim2SF x). Qed.

Lemma sub_diag x : x - x = if is_finite x then zero else nan.
Proof.
  rewrite is_finite_spec. apply Prim2SF_inj. rewrite sub_spec.
  destruct (Prim2SF x) as [[]|[]| |s m e]; try reflexivity.
  unfold SF64sub, SFsub. rewrite Z.sub_diag. reflexivity.
Qed.

(** [0 + f * 0] is [0] for a finite [f] and NaN otherwise. *)
Lemma add_zero_mul_zero f : zero + f * zero = if is_finite f then zero else nan.
Proof.
  rewrite is_finite_spec. apply Prim2SF_inj. rewrite add_spec, mul_spec.
  change (Prim2SF zero) with (S754_zero false).
  now destruct (Prim2SF f) as [[]|[]| |[] m e].
Qed.

Lemma float_eq_dec (x y : float) : {x = y} + {x <> y}.
Proof.
  destruct (PrimFloat.Leibniz.eqb x y) eqn:E.
  - left. now apply Leibniz.eqb_spec.
  - right. intros H. apply Leibniz.eqb_spec in H. congruence.
Qed.

End FloatFacts.

(** ** The edge directory *)

Module EdgesProofs.
Import Edges FloatFacts.
#[local] Open Scope string_scope.
#[local] Open Scope float_scope.

Lemma str_eqb_eq (a b : jsstring) : str_eqb a b = true <-> a = b.
Proof.
  revert b. induction a as [|x a IH]; intros [|y b]; simpl; split; try easy.
  - rewrite andb_true_iff, N.eqb_eq, IH. now intros [-> ->].
  - intros [= -> ->]. now rewrite N.eqb_refl, (proj2 (IH b)).
Qed.

Lemma EdgeLocation_eq_dec (a b : EdgeLocation) : {a = b} + {a <> b}.
Proof.
  destruct a as [c1 ci1 co1 la1 ln1], b as [c2 ci2 co2 la2 ln2].
  destruct (list_eq_dec N.eq_dec c1 c2); [|right; congruence].
  destruct (list_eq_dec N.eq_dec ci1 ci2); [|right; congruence].
  destruct (list_eq_dec N.eq_dec co1 co2); [|right; congruence].
  destruct (float_eq_dec la1 la2); [|right; congruence].
  destruct (float_eq_dec ln1 ln2); [|right; congruence].
  left. congruence.
Qed.

(** *** The scan of [findNearestEdge] *)

Section Scan.
Variable M : MathLib.
Variables lat0 lng0 : float.

#[local] Abbreviation d := (dist M lat0 lng0).

Lemma scan_inv_step first seen st e :
  scan_inv M lat0 lng0 first seen st ->
  scan_inv M lat0 lng0 first (seen ++ [e]) (scan_step M lat0 lng0 st e).
Proof.
  intros [Hmin Hpos]. unfold scan_step, scan_inv.
  destruct (d e <? fst st) eqn:Hlt; simpl.
  - split.
    + intros e' [He'|[<-|[]]]%in_app_iff; [|apply ltb_irrefl].
      destruct (d e' <? d e) eqn:E; [|reflexivity].
      pose proof (Hmin e' He') as C. now rewrite (ltb_trans _ _ _ E Hlt) in C.
    + right. split; [reflexivity|]. exists seen, []. split; [reflexivity|].
      intros e' He'. destruct (d e' =? d e) eqn:E; [|reflexivity].
      pose proof (Hmin e' He') as C. now rewrite (eqb_ltb _ _ _ E Hlt) in C.
  - split.
    + intros e' [He'|[<-|[]]]%in_app_iff; auto.
    + destruct Hpos as [Hinit|[Hd (before & after & -> & Hb)]]; [now left|right].
      split; [assumption|]. exists before, (after ++ [e])%list.
      now rewrite <- app_assoc.
Qed.

Lemma scan_inv_fold first todo : forall seen st,
  scan_inv M lat0 lng0 first seen st ->
  scan_inv M lat0 lng0 first (seen ++ todo) (fold_left (scan_step M lat0 lng0) todo st).
Proof.
  induction todo as [|e todo IH]; intros seen st H; simpl.
  - now rewrite app_nil_r.
  - replace (seen ++ e :: todo)%list with ((seen ++ [e]) ++ todo)%list
      by now rewrite <- app_assoc.
    apply IH. now apply scan_inv_step.
Qed.

(** The result over a non-empty table: an element of the table that no
    element is strictly closer than, and before which no element is at an
    equal distance. *)
Lemma nearestIn_minimal first rest :
  let table := first :: rest in
  let r := nearestIn M first table lat0 lng0 in
  (forall e, In e table -> (d e <? d r) = false)
  /\ exists before after, table = (before ++ r :: after)%list
       /\ forall e, In e before -> (d e =? d r) = false.
Proof.
  intros table r. subst r. unfold nearestIn.
  assert (H : scan_inv M lat0 lng0 first ([] ++ table)
                (fold_left (scan_step M lat0 lng0) table (infinity, first))).
  { apply scan_inv_fold. split; [intros e []|]. now left. }
  change ([] ++ table)%list with table in H.
  set (st := fold_left (scan_step M lat0 lng0) table (infinity, first)) in *.
  destruct H as [Hmin [[Hinf Hr]|[Hd Hb]]].
  - rewrite Hinf in Hmin. split.
    + intros e He. destruct (not_ltb_infinity _ (Hmin first (or_introl eq_refl))) as [E|E];
        rewrite Hr, E; [apply ltb_nan_r|now apply Hmin].
    + exists [], rest. rewrite Hr. split; [reflexivity|intros e []].
  - split; [|exact Hb]. intros e He. rewrite <- Hd. now apply Hmin.
Qed.

(** When every distance is NaN no comparison succeeds and the loop leaves
    its variables as they were. *)
Lemma scan_all_nan table st :
  (forall e, In e table -> d e = nan) ->
  fold_left (scan_step M lat0 lng0) table st = st.
Proof.
  revert st. induction table as [|e table IH]; intros st H; simpl; [reflexivity|].
  unfold scan_step at 2. rewrite (H e (or_introl eq_refl)), ltb_nan_l.
  apply IH. intros e' He'. apply H. now right.
Qed.

(** The minimum so far is [Infinity] as long as nothing was selected; once
    an element is selected it is the distance of that element, a number
    below [Infinity]. *)
Lemma scan_selected first todo : forall st,
  (fst st = infinity /\ snd st = first)
  \/ (fst st = d (snd st) /\ (d (snd st) <? infinity) = true) ->
  let st' := fold_left (scan_step M lat0 lng0) todo st in
  (fst st' = infinity /\ snd st' = first)
  \/ (fst st' = d (snd st') /\ (d (snd st') <? infinity) = true).
Proof.
  induction todo as [|e todo IH]; intros st H; simpl; [exact H|].
  apply IH. unfold scan_step. destruct (d e <? fst st) eqn:Hlt; [|exact H].
  right. simpl. split; [reflexivity|].
  destruct H as [[Hinf _]|[Hd Hb]].
  - now rewrite Hinf in Hlt.
  - rewrite Hd in Hlt. exact (ltb_trans _ _ _ Hlt Hb).
Qed.

(** The result over a non-empty table: the element of index 0 when no
    distance is below [Infinity], an element at a distance below [Infinity]
    otherwise. *)
Lemma nearestIn_cases first rest :
  let table := first :: rest in
  let r := nearestIn M first table lat0 lng0 in
  ((forall e, In e table -> (d e <? infinity) = false) /\ r = first)
  \/ (d r <? infinity) = true.
Proof.
  intros table r. subst r. unfold nearestIn.
  assert (H : scan_inv M lat0 lng0 first ([] ++ table)
                (fold_left (scan_step M lat0 lng0) table (infinity, first))).
  { apply scan_inv_fold. split; [intros e []|]. now left. }
  change ([] ++ table)%list with table in H.
  pose proof (scan_selected first table (infinity, first) (or_introl (conj eq_refl eq_refl)))
    as S. cbv zeta in S.
  set (st := fold_left (scan_step M lat0 lng0) table (infinity, first)) in *.
  destruct H as [Hmin _]. destruct S as [[Hinf Hr]|[_ Hb]].
  - left. split; [|exact Hr]. intros e He. rewrite <- Hinf. now apply Hmin.
  - now right.
Qed.

End Scan.

(** *** Lookup by code and the table *)

Lemma distinct_codes_NoDup (l : list jsstring) : distinct_codes l = true <-> NoDup l.
Proof.
  induction l as [|c l IH]; simpl.
  - split; [constructor|reflexivity].
  - rewrite andb_true_iff, negb_true_iff, IH. split.
    + intros [Hc Hl]. constructor; [|assumption].
      intros Hin. apply not_true_iff_false in Hc. apply Hc.
      apply existsb_exists. exists c. split; [assumption|now apply str_eqb_eq].
    + intros H. inversion_clear H as [|? ? Hc Hl]. split; [|assumption].
      apply not_true_iff_false. intros (x & Hx & E)%existsb_exists.
      apply str_eqb_eq in E. now subst.
Qed.

Lemma getEdgeByCodeIn_None table c :
  getEdgeByCodeIn table c = None <-> forall e, In e table -> code e <> c.
Proof.
  unfold getEdgeByCodeIn. split.
  - intros H e He E. apply (find_none _ _ H) in He. simpl in He.
    apply (proj2 (str_eqb_eq _ _)) in E. congruence.
  - intros H. induction table as [|e table IH]; [reflexivity|]. simpl.
    destruct (str_eqb (code e) c) eqn:E.
    + apply str_eqb_eq in E. now elim (H e (or_introl eq_refl)).
    + apply IH. intros e' He'. apply H. now right.
Qed.

Lemma getEdgeByCodeIn_Some table c e :
  getEdgeByCodeIn table c = Some e -> In e table /\ code e = c.
Proof.
  unfold getEdgeByCodeIn. intros [H E]%find_some. split; [assumption|now apply str_eqb_eq].
Qed.

Lemma getEdgeByCodeIn_unique table e :
  NoDup (map code table) -> In e table -> getEdgeByCodeIn table (code e) = Some e.
Proof.
  unfold getEdgeByCodeIn. induction table as [|x table IH]; simpl; [easy|].
  intros Hnd [->|He]; inversion_clear Hnd as [|? ? Hx Hrest].
  - now rewrite (proj2 (str_eqb_eq _ _) eq_refl).
  - destruct (str_eqb (code x) (code e)) eqn:E; [|now apply IH].
    apply str_eqb_eq in E. elim Hx. rewrite E. now apply in_map.
Qed.

Lemma codes_distinct : NoDup (map code EDGE_LOCATIONS).
Proof. apply distinct_codes_NoDup. vm_compute. reflexivity. Qed.

(** C9: the table is well formed: the codes of its entries are pairwise
    distinct, every latitude is in [-90, 90] and every longitude in
    [-180, 180]. *)
Theorem EDGE_LOCATIONS_well_formed :
  NoDup (map code EDGE_LOCATIONS)
  /\ Forall (fun e => (-90 <=? lat e) = true /\ (lat e <=? 90) = true
                      /\ (-180 <=? lng e) = true /\ (lng e <=? 180) = true)
       EDGE_LOCATIONS.
Proof.
  split.
  - exact codes_distinct.
  - apply Forall_forall. intros e He.
    assert (H : forallb in_range EDGE_LOCATIONS = true) by (vm_compute; reflexivity).
    rewrite forallb_forall in H. specialize (H e He). unfold in_range in H.
    now rewrite !andb_true_iff in H.
Qed.

(** C7: [getEdgeByCode] is a function of its argument alone, so that equal
    arguments give equal results, and it matches the code exactly, code unit
    by code unit.  On a code that no entry has it returns absence; otherwise
    it returns the entry of the table with that code, which is the only
    one. *)
Theorem getEdgeByCode_exact (c : jsstring) :
  match getEdgeByCode c with
  | None => forall e, In e EDGE_LOCATIONS -> code e <> c
  | Some e => In e EDGE_LOCATIONS /\ code e = c
              /\ forall e', In e' EDGE_LOCATIONS -> code e' = c -> e' = e
  end.
Proof.
  unfold getEdgeByCode. destruct (getEdgeByCodeIn EDGE_LOCATIONS c) as [e|] eqn:E.
  - destruct (getEdgeByCodeIn_Some _ _ _ E) as [He Hc]. repeat split; try assumption.
    intros e' He' Hc'. subst c.
    pose proof (getEdgeByCodeIn_unique _ e' codes_distinct He') as H.
    rewrite Hc' in H. congruence.
  - now apply getEdgeByCodeIn_None.
Qed.

(** The match is case-sensitive. *)
Example getEdgeByCode_case :
  getEdgeByCode (lit "LHR") = Some (edge "LHR" "London" "GB" 51.47 (-0.45))
  /\ getEdgeByCode (lit "lhr") = None
  /\ getEdgeByCode (lit "XXX") = None.
Proof. repeat split; vm_compute; reflexivity. Qed.

(** *** The Haversine distance *)

(** Values of the reference library: the sine and the cosine at [Math.PI]
    and at 1e22, whose reduction takes more than a thousand bits of pi, and
    the angles of the diagonals. *)
Example RefMath_values :
  RefMath.sin 3.141592653589793 = 1.2246467991473532e-16
  /\ RefMath.cos 3.141592653589793 = -1
  /\ RefMath.sin 1e22 = -0.8522008497671888
  /\ RefMath.cos 1e22 = 0.523214785395139
  /\ RefMath.sin 0.5 = 0.479425538604203
  /\ RefMath.atan2 1 1 = 0.7853981633974483
  /\ RefMath.atan2 1 (-1) = 2.356194490192345
  /\ RefMath.atan2 (-0) (-1) = -3.141592653589793
  /\ RefMath.PI = Math_PI.
Proof. repeat split; vm_compute; reflexivity. Qed.

Lemma RefMath_laws : MathLaws RefMath.lib.
Proof. constructor; vm_compute; reflexivity. Qed.

Lemma RefMath_symmetry : MathSymmetry RefMath.lib.
Proof.
  constructor; simpl.
  - intros x. unfold RefMath.sin, RefMath.sin_abs.
    rewrite !ltb_zero, !opp_spec.
    destruct (Prim2SF x) as [s|s| |s m e] eqn:E; cbn [SFopp].
    + reflexivity.
    + now destruct s.
    + reflexivity.
    + destruct s; cbn [negb]; [now rewrite opp_involutive|reflexivity].
  - intros x. apply mul_opp_opp.
Qed.

Lemma toRad_opp x : toRad (- x) = - toRad x.
Proof. unfold toRad. now rewrite mul_opp_l, div_opp_l. Qed.

Section Distance.
Variable M : MathLib.
Hypothesis laws : MathLaws M.

(** The haversine term of a NaN difference is NaN, of a zero difference 0. *)
Lemma hav_nan : pow2 M (Math_sin M (toRad nan / 2)) = nan.
Proof.
  change (toRad nan / 2) with nan. now rewrite (sin_nan M laws), (pow2_nan M laws).
Qed.

Lemma hav_zero : pow2 M (Math_sin M (toRad zero / 2)) = zero.
Proof.
  change (toRad zero / 2) with zero. now rewrite (sin_zero M laws), (pow2_zero M laws).
Qed.

(** The last line of [haversineDistance] at [a = NaN] and at [a = 0]. *)
Lemma central_angle_nan : 6371 * 2 * Math_atan2 M (sqrt nan) (sqrt (1 - nan)) = nan.
Proof. change (sqrt nan) with nan. now rewrite (atan2_nan_l M laws). Qed.

Lemma central_angle_zero : 6371 * 2 * Math_atan2 M (sqrt zero) (sqrt (1 - zero)) = zero.
Proof.
  change (sqrt zero) with zero. change (sqrt (1 - zero)) with one.
  now rewrite (atan2_zero_one M laws).
Qed.

Lemma haversineDistance_nan_lat lng0 la lo : haversineDistance M nan lng0 la lo = nan.
Proof.
  unfold haversineDistance. rewrite sub_nan_r, hav_nan, add_nan_l. apply central_angle_nan.
Qed.

(** The distance from a latitude whose cosine is NaN is NaN. *)
Lemma haversineDistance_cos_nan lat0 lng0 la lo :
  Math_cos M (toRad lat0) = nan -> haversineDistance M lat0 lng0 la lo = nan.
Proof.
  intros H. unfold haversineDistance. rewrite H, mul_nan_l, mul_nan_l, add_nan_r.
  apply central_angle_nan.
Qed.

Lemma haversineDistance_nan_lng lat0 la lo : haversineDistance M lat0 nan la lo = nan.
Proof.
  unfold haversineDistance. rewrite (sub_nan_r lo), hav_nan, mul_nan_r, add_nan_r.
  apply central_angle_nan.
Qed.

(** The distance from a point to itself. *)
Lemma haversineDistance_diag lat0 lng0 :
  haversineDistance M lat0 lng0 lat0 lng0 =
    if is_finite lat0 && is_finite lng0
       && is_finite (Math_cos M (toRad lat0) * Math_cos M (toRad lat0))
    then zero else nan.
Proof.
  unfold haversineDistance. cbv zeta. rewrite !sub_diag.
  destruct (is_finite lat0); cbn [andb].
  - rewrite hav_zero. destruct (is_finite lng0); cbn [andb].
    + rewrite hav_zero, add_zero_mul_zero.
      destruct (is_finite _); [apply central_angle_zero|apply central_angle_nan].
    + rewrite hav_nan, mul_nan_r, add_nan_r. apply central_angle_nan.
  - rewrite hav_nan, add_nan_l. apply central_angle_nan.
Qed.

Hypothesis symmetry : MathSymmetry M.

(** The haversine term of a difference does not depend on its direction. *)
Lemma hav_swap x y :
  pow2 M (Math_sin M (toRad (y - x) / 2)) = pow2 M (Math_sin M (toRad (x - y) / 2)).
Proof.
  destruct (sub_swap x y) as [E|[E1 E2]].
  - now rewrite E, toRad_opp, div_opp_l, (sin_odd M symmetry), (pow2_even M symmetry).
  - now rewrite E1, E2.
Qed.

Lemma haversineDistance_sym lat1 lng1 lat2 lng2 :
  haversineDistance M lat1 lng1 lat2 lng2 = haversineDistance M lat2 lng2 lat1 lng1.
Proof.
  unfold haversineDistance.
  now rewrite (hav_swap lat1 lat2), (hav_swap lng1 lng2),
    (mul_comm (Math_cos M (toRad lat1))).
Qed.

End Distance.

(** C8, as stated, fails: the distance from the pair (NaN, 0) to itself is
    NaN, which [==] does not equate with 0; so is the distance from the
    finite pair (1e308, 0) to itself, where [toRad] overflows to Infinity and
    the cosine is NaN.  Both hold in the reference library and in every
    library that follows ECMA-262. *)
Lemma haversineDistance_diag_nan :
  (haversineDistance RefMath.lib nan 0 nan 0 =? 0) = false
  /\ (haversineDistance RefMath.lib 1e308 0 1e308 0 =? 0) = false
  /\ forall M, MathLaws M ->
       (haversineDistance M nan 0 nan 0 =? 0) = false
       /\ (haversineDistance M 1e308 0 1e308 0 =? 0) = false.
Proof.
  split; [vm_compute; reflexivity|]. split; [vm_compute; reflexivity|].
  intros M laws. split.
  - now rewrite haversineDistance_nan_lat.
  - rewrite haversineDistance_diag by assumption.
    change (toRad 1e308) with infinity. rewrite (cos_infinity M laws).
    reflexivity.
Qed.

(** C8, amended: over a library with an odd sine and an even square,
    [haversineDistance] computes the same value in both argument orders, so
    that [==] holds between the two whenever that value is not NaN; the
    distance from a pair to itself is 0 when both coordinates are finite and
    the square of [Math.cos(toRad(lat))] is finite, and NaN otherwise. *)
Theorem haversineDistance_symmetric (M : MathLib) :
  MathLaws M -> MathSymmetry M ->
  (forall lat1 lng1 lat2 lng2,
     haversineDistance M lat1 lng1 lat2 lng2 = haversineDistance M lat2 lng2 lat1 lng1
     /\ (haversineDistance M lat1 lng1 lat2 lng2 =? haversineDistance M lat2 lng2 lat1 lng1)
        = negb (is_nan (haversineDistance M lat1 lng1 lat2 lng2)))
  /\ (forall lat0 lng0,
        haversineDistance M lat0 lng0 lat0 lng0 =
          if is_finite lat0 && is_finite lng0
             && is_finite (Math_cos M (toRad lat0) * Math_cos M (toRad lat0))
          then 0 else nan).
Proof.
  intros laws symmetry. split.
  - intros lat1 lng1 lat2 lng2. split; [now apply haversineDistance_sym|].
    rewrite <- (haversineDistance_sym M symmetry lat1 lng1 lat2 lng2).
    unfold is_nan. now rewrite negb_involutive.
  - intros lat0 lng0. now apply haversineDistance_diag.
Qed.

Lemma haversineDistance_symmetric_witness :
  haversineDistance RefMath.lib 51.47 (-0.45) 49.01 2.55
    = haversineDistance RefMath.lib 49.01 2.55 51.47 (-0.45)
  /\ haversineDistance RefMath.lib 51.47 (-0.45) 51.47 (-0.45) = 0.
Proof.
  destruct (haversineDistance_symmetric RefMath.lib RefMath_laws RefMath_symmetry)
    as [Hsym Hdiag].
  split.
  - exact (proj1 (Hsym 51.47 (-0.45) 49.01 2.55)).
  - rewrite Hdiag. reflexivity.
Defined.

(** C10: [findNearestEdge] returns an element of [EDGE_LOCATIONS] for every
    pair of numbers, NaN and the infinities included.  When an input is NaN
    every computed distance is NaN, no comparison [dist < minDist] succeeds
    and the element of index 0 is returned. *)
Theorem findNearestEdge_total (M : MathLib) (lat0 lng0 : float) :
  MathLaws M ->
  (exists e, findNearestEdge M lat0 lng0 = Some e /\ In e EDGE_LOCATIONS)
  /\ (is_nan lat0 || is_nan lng0 = true ->
      (forall e, dist M lat0 lng0 e = nan)
      /\ (forall e minDist, (dist M lat0 lng0 e <? minDist) = false)
      /\ findNearestEdge M lat0 lng0 = nth_error EDGE_LOCATIONS 0).
Proof.
  intros laws. split.
  - unfold findNearestEdge, findNearestEdgeIn.
    destruct EDGE_LOCATIONS as [|first rest] eqn:E; [discriminate|].
    destruct (nearestIn_minimal M lat0 lng0 first rest) as [_ (before & after & Hpos & _)].
    eexists. split; [reflexivity|]. cbv zeta in Hpos. rewrite Hpos at 2. apply in_elt.
  - intros Hnan.
    assert (Hd : forall e, dist M lat0 lng0 e = nan).
    { intros e. unfold dist. apply orb_true_iff in Hnan as [->%is_nan_spec| ->%is_nan_spec].
      - now apply haversineDistance_nan_lat.
      - now apply haversineDistance_nan_lng. }
    split; [exact Hd|]. split.
    + intros e m. rewrite Hd. apply ltb_nan_l.
    + unfold findNearestEdge, findNearestEdgeIn.
      destruct EDGE_LOCATIONS as [|first rest]; [reflexivity|].
      unfold nearestIn. rewrite scan_all_nan; [reflexivity|]. intros e _. apply Hd.
Qed.

Lemma findNearestEdge_total_witness :
  findNearestEdge RefMath.lib nan 2.35 = Some (edge "SJC" "San Jose" "US" 37.36 (-121.93)).
Proof.
  destruct (findNearestEdge_total RefMath.lib nan 2.35 RefMath_laws) as [_ H].
  destruct (H eq_refl) as (_ & _ & ->). reflexivity.
Defined.

(** C1, as stated, fails at a finite query outside the coordinate ranges.
    The pair (142.64, 58.07) denotes the place of San Jose, (37.36, -121.93),
    by its supplementary latitude on the opposite meridian.  There the
    cosine of the latitude is negative, the two terms of [a] cancel up to
    rounding and [a] is computed as [-1.11e-16]: the square root of [a], and
    with it the distance to SJC, is NaN.  The comparison [dist < minDist]
    fails for SJC, and LAX at 495.67 km is returned, which is not at most as
    far as every entry.  At the finite query (1e308, 0) the conversion to
    radians overflows, every distance is NaN in every library that follows
    ECMA-262, and the entry of index 0 is returned whatever the table holds
    there. *)
Lemma findNearestEdge_skips_nan :
  findNearestEdge RefMath.lib 142.64 58.07
    = Some (edge "LAX" "Los Angeles" "US" 33.94 (-118.41))
  /\ dist RefMath.lib 142.64 58.07 (edge "SJC" "San Jose" "US" 37.36 (-121.93)) = nan
  /\ dist RefMath.lib 142.64 58.07 (edge "LAX" "Los Angeles" "US" 33.94 (-118.41))
     = 495.67011134098124
  /\ (dist RefMath.lib 142.64 58.07 (edge "LAX" "Los Angeles" "US" 33.94 (-118.41))
      <=? dist RefMath.lib 142.64 58.07 (edge "SJC" "San Jose" "US" 37.36 (-121.93))) = false
  /\ dist RefMath.lib 37.36 (-121.93) (edge "SJC" "San Jose" "US" 37.36 (-121.93)) = 0
  /\ forall M, MathLaws M ->
       (forall e, dist M 1e308 0 e = nan)
       /\ findNearestEdge M 1e308 0 = nth_error EDGE_LOCATIONS 0.
Proof.
  split; [vm_compute; reflexivity|]. split; [vm_compute; reflexivity|].
  split; [vm_compute; reflexivity|]. split; [vm_compute; reflexivity|].
  split; [vm_compute; reflexivity|].
  intros M laws.
  assert (Hd : forall e, dist M 1e308 0 e = nan).
  { intros e. unfold dist. apply haversineDistance_cos_nan; [exact laws|].
    change (toRad 1e308) with infinity. apply (cos_infinity M laws). }
  split; [exact Hd|].
  unfold findNearestEdge, findNearestEdgeIn.
  destruct EDGE_LOCATIONS as [|first rest]; [reflexivity|].
  unfold nearestIn. rewrite scan_all_nan; [reflexivity|]. intros e _. apply Hd.
Qed.

(** C1, amended.  The distance the scan compares is the Haversine formula
    with the radius 6371, computed in binary64 over the library.  For every
    pair of numbers, finite or not, [findNearestEdge] returns an entry [r] of
    the table below whose computed distance no computed distance compares.
    When no entry has a distance below [Infinity], [r] is the entry of index
    0; otherwise the distance of [r] is below [Infinity] and at most that of
    every entry whose distance is below [Infinity]: an entry whose distance
    is computed as NaN is passed over.  When no computed distance is NaN,
    [r] is at most as far as every entry.  Among the entries at its distance
    [r] is the first of the stored sequence.  A point of the table that is
    strictly closer to the query than every other entry is the one
    returned; this covers the lookup of a point at its own coordinates. *)
Theorem findNearestEdge_minimizes (M : MathLib) (lat0 lng0 : float) :
  (forall deg, toRad deg = deg * 3.141592653589793 / 180)
  /\ (forall e,
        dist M lat0 lng0 e =
          let a := pow2 M (Math_sin M (toRad (lat e - lat0) / 2))
                   + Math_cos M (toRad lat0) * Math_cos M (toRad (lat e))
                     * pow2 M (Math_sin M (toRad (lng e - lng0) / 2)) in
          6371 * 2 * Math_atan2 M (sqrt a) (sqrt (1 - a)))
  /\ exists r,
      findNearestEdge M lat0 lng0 = Some r
      /\ In r EDGE_LOCATIONS
      /\ (forall e, In e EDGE_LOCATIONS ->
            (dist M lat0 lng0 e <? dist M lat0 lng0 r) = false)
      /\ ((forall e, In e EDGE_LOCATIONS -> (dist M lat0 lng0 e <? infinity) = false) ->
          nth_error EDGE_LOCATIONS 0 = Some r)
      /\ ((exists e, In e EDGE_LOCATIONS /\ (dist M lat0 lng0 e <? infinity) = true) ->
          (dist M lat0 lng0 r <? infinity) = true
          /\ forall e, In e EDGE_LOCATIONS -> (dist M lat0 lng0 e <? infinity) = true ->
               (dist M lat0 lng0 r <=? dist M lat0 lng0 e) = true)
      /\ ((forall e, In e EDGE_LOCATIONS -> is_nan (dist M lat0 lng0 e) = false) ->
          forall e, In e EDGE_LOCATIONS ->
            (dist M lat0 lng0 r <=? dist M lat0 lng0 e) = true)
      /\ (exists before after,
            EDGE_LOCATIONS = (before ++ r :: after)%list
            /\ forall e, In e before ->
                 (dist M lat0 lng0 e =? dist M lat0 lng0 r) = false)
      /\ (forall P, In P EDGE_LOCATIONS ->
            (forall e, In e EDGE_LOCATIONS -> e <> P ->
               (dist M lat0 lng0 P <? dist M lat0 lng0 e) = true) ->
            r = P).
Proof.
  split; [reflexivity|]. split; [reflexivity|].
  unfold findNearestEdge, findNearestEdgeIn.
  destruct EDGE_LOCATIONS as [|first rest] eqn:Etable; [discriminate|].
  destruct (nearestIn_minimal M lat0 lng0 first rest) as [Hmin Hpos].
  pose proof (nearestIn_cases M lat0 lng0 first rest) as Hcases. cbv zeta in Hcases.
  set (r := nearestIn M first (first :: rest) lat0 lng0) in *.
  assert (Hr : In r (first :: rest)).
  { destruct Hpos as (before & after & -> & _). apply in_elt. }
  exists r. split; [reflexivity|]. split; [exact Hr|]. split; [exact Hmin|].
  split; [|split; [|split; [|split]]].
  - intros Hnone. destruct Hcases as [[_ ->]|Hb]; [reflexivity|].
    now rewrite (Hnone r Hr) in Hb.
  - intros (e0 & He0 & Hb0). destruct Hcases as [[Hnone _]|Hb].
    + now rewrite (Hnone e0 He0) in Hb0.
    + split; [exact Hb|]. intros e He Hbe.
      apply ltb_total; auto using below_infinity_number.
  - intros Hnan e He. apply ltb_total; auto.
  - exact Hpos.
  - intros P HP Huniq. destruct (EdgeLocation_eq_dec r P) as [E|E]; [exact E|].
    pose proof (Hmin P HP) as C. now rewrite (Huniq r Hr E) in C.
Qed.

(** In the reference library the lookup of the coordinates of London
    Heathrow, an entry in the middle of the table, returns that entry, at
    the distance 0, which is at most the distance of every entry that has
    one. *)
Lemma findNearestEdge_minimizes_witness :
  findNearestEdge RefMath.lib 51.47 (-0.45) = Some (edge "LHR" "London" "GB" 51.47 (-0.45))
  /\ dist RefMath.lib 51.47 (-0.45) (edge "LHR" "London" "GB" 51.47 (-0.45)) = 0
  /\ forall e, In e EDGE_LOCATIONS -> (dist RefMath.lib 51.47 (-0.45) e <? infinity) = true ->
       (dist RefMath.lib 51.47 (-0.45) (edge "LHR" "London" "GB" 51.47 (-0.45))
        <=? dist RefMath.lib 51.47 (-0.45) e) = true.
Proof.
  destruct (findNearestEdge_minimizes RefMath.lib 51.47 (-0.45))
    as (_ & _ & r & Hr & Hin & _ & _ & Hleast & _).
  assert (E : findNearestEdge RefMath.lib 51.47 (-0.45)
              = Some (edge "LHR" "London" "GB" 51.47 (-0.45))) by (vm_compute; reflexivity).
  rewrite E in Hr. injection Hr as <-.
  split; [exact E|]. split; [vm_compute; reflexivity|].
  apply Hleast. exists (edge "LHR" "London" "GB" 51.47 (-0.45)).
  split; [exact Hin|vm_compute; reflexivity].
Defined.

(** A query in the South Pacific, far from every entry: the nearest is
    Santiago, at 5941.9 km, before Sydney. *)
Example findNearestEdge_far_query :
  findNearestEdge RefMath.lib (-42.9) (-139.6)
    = Some (edge "SCL" "Santiago" "CL" (-33.39) (-70.79))
  /\ dist RefMath.lib (-42.9) (-139.6) (edge "SCL" "Santiago" "CL" (-33.39) (-70.79))
     = 5941.92376921543.
Proof. split; vm_compute; reflexivity. Qed.

(** The scenario of the specification: of the two points AAA (0, 0) and
    BBB (10, 10) the nearest to (1, 1) is AAA. *)
Example nearest_of_two :
  findNearestEdgeIn RefMath.lib [edge "AAA" "" "" 0 0; edge "BBB" "" "" 10 10] 1 1
    = Some (edge "AAA" "" "" 0 0).
Proof. vm_compute. reflexivity. Qed.

End EdgesProofs.

(** ** The stream loop *)

Module StreamProofs.
Import JSON Stream.
#[local] Open Scope string_scope.
#[local] Open Scope list_scope.

(** *** Decoding is independent of the chunking *)

Lemma decode_app (d : TextDecoder.t) (a b : list Byte.byte) :
  TextDecoder.decode d (a ++ b) =
    let '(d1, out1) := TextDecoder.decode d a in
    let '(d2, out2) := TextDecoder.decode d1 b in
    (d2, out1 ++ out2).
Proof.
  revert d. induction a as [|x a IH]; intros d; simpl.
  - now destruct (TextDecoder.decode d b).
  - destruct (TextDecoder.decode_byte d x) as [d1 out1]. rewrite IH.
    destruct (TextDecoder.decode d1 a) as [d2 out2].
    destruct (TextDecoder.decode d2 b) as [d3 out3]. now rewrite app_assoc.
Qed.

(** *** Lines *)

Lemma split_lines_nonempty s : split_lines s <> [].
Proof.
  destruct s as [|c r]; simpl; [easy|].
  destruct (c =? 10)%N; [easy|]. now destruct (split_lines r).
Qed.

(** The lines of [s ++ t] are the complete lines of [s], followed by the
    lines of what [s] leaves unterminated, continued by [t]. *)
Lemma split_lines_app s t :
  split_lines (s ++ t) =
    removelast (split_lines s) ++ split_lines (last (split_lines s) [] ++ t).
Proof.
  induction s as [|c r IH]; simpl; [reflexivity|].
  destruct (c =? 10)%N eqn:E.
  - rewrite IH. pose proof (split_lines_nonempty r) as Hne.
    destruct (split_lines r) as [|l ls]; [easy|]. reflexivity.
  - rewrite IH. pose proof (split_lines_nonempty r) as Hne.
    destruct (split_lines r) as [|l ls]; [easy|].
    destruct ls as [|l' ls]; simpl.
    + now rewrite E.
    + reflexivity.
Qed.

Lemma last_app_nonempty {A} (l l' : list A) (d : A) :
  l' <> [] -> last (l ++ l') d = last l' d.
Proof.
  intros H. induction l as [|x l IH]; simpl; [reflexivity|].
  rewrite IH. destruct (l ++ l') eqn:E; [|reflexivity].
  now apply app_eq_nil in E as [_ ->].
Qed.

Lemma removelast_split_app s t :
  removelast (split_lines (s ++ t)) =
    removelast (split_lines s) ++ removelast (split_lines (last (split_lines s) [] ++ t)).
Proof.
  rewrite split_lines_app. apply removelast_app, split_lines_nonempty.
Qed.

Lemma last_split_app s t :
  last (split_lines (s ++ t)) [] = last (split_lines (last (split_lines s) [] ++ t)) [].
Proof.
  rewrite split_lines_app. apply last_app_nonempty, split_lines_nonempty.
Qed.

Lemma startsWith_app p s : startsWith (p ++ s) p = true.
Proof. induction p as [|c p IH]; simpl; [reflexivity|]. now rewrite N.eqb_refl. Qed.

Lemma concat_singletons {A} (l : list A) : List.concat (map (fun x => [x]) l) = l.
Proof. induction l as [|x l IH]; simpl; [reflexivity|]. now rewrite IH. Qed.

(** *** The decoder and the line feed *)

Lemma between_spec lo hi b : TextDecoder.between lo hi b = true <-> (lo <= b <= hi)%N.
Proof. unfold TextDecoder.between. rewrite andb_true_iff, !N.leb_le. tauto. Qed.

Lemma utf8_lead_wf b st out :
  TextDecoder.utf8_lead b = (st, out) ->
  TextDecoder.utf8_wf st /\ (forall c, In c out -> c = b /\ (b <= 0x7F)%N \/ c = 0xFFFD%N).
Proof.
  unfold TextDecoder.utf8_lead.
  destruct (TextDecoder.between 0 127 b) eqn:E1.
  { intros [= <- <-]. split; [now left|]. intros c [<-|[]]. left.
    apply between_spec in E1. split; [reflexivity|lia]. }
  destruct (TextDecoder.between 194 223 b) eqn:E2.
  { intros [= <- <-]. split; [|intros c []]. right. left. simpl.
    apply between_spec in E2. change 31%N with (N.ones 5). rewrite N.land_ones.
    change (2 ^ 5)%N with 32%N. intros H.
    pose proof (N.div_mod b 32). lia. }
  destruct (TextDecoder.between 224 239 b) eqn:E3.
  { intros [= <- <-]. split; [|intros c []]. apply between_spec in E3. simpl.
    destruct (b =? 224)%N eqn:E.
    - right. right. simpl. destruct (b =? 237)%N; repeat split; try lia; discriminate.
    - right. left. apply N.eqb_neq in E. change 15%N with (N.ones 4).
      rewrite N.land_ones. change (2 ^ 4)%N with 16%N. simpl. intros H.
      pose proof (N.div_mod b 16). lia. }
  destruct (TextDecoder.between 240 244 b) eqn:E4.
  { intros [= <- <-]. split; [|intros c []]. apply between_spec in E4. simpl.
    destruct (b =? 240)%N eqn:E.
    - right. right. simpl. destruct (b =? 244)%N; repeat split; try lia; discriminate.
    - right. left. apply N.eqb_neq in E. change 7%N with (N.ones 3).
      rewrite N.land_ones. change (2 ^ 3)%N with 8%N. simpl. intros H.
      pose proof (N.div_mod b 8). lia. }
  intros [= <- <-]. split; [now left|]. intros c [<-|[]]. now right.
Qed.

Lemma lor_shift_high cp x : cp <> 0%N -> N.testbit (N.lor (N.shiftl cp 6) x) (N.log2 cp + 6) = true.
Proof.
  intros H. rewrite N.lor_spec, N.shiftl_spec_high' by lia.
  replace (N.log2 cp + 6 - 6)%N with (N.log2 cp) by lia.
  rewrite N.bit_log2 by assumption. reflexivity.
Qed.

Lemma lor_shift_not_small cp x c :
  cp <> 0%N -> (c < 64)%N -> N.lor (N.shiftl cp 6) x <> c.
Proof.
  intros H Hc E. pose proof (lor_shift_high cp x H) as T. rewrite E in T.
  destruct c as [|p]; [now rewrite N.bits_0 in T|].
  rewrite N.bits_above_log2 in T; [discriminate|].
  assert (N.log2 (N.pos p) < 6)%N; [|lia].
  apply N.log2_lt_pow2; [lia|]. exact Hc.
Qed.

Lemma land_continuation b :
  (0x90 <= b <= 0xBF)%N -> N.land b 0x3F <> 0%N.
Proof.
  intros H. change 63%N with (N.ones 6). rewrite N.land_ones. change (2 ^ 6)%N with 64%N.
  intros E. pose proof (N.div_mod b 64). lia.
Qed.

(** A byte leaves the decoder well formed, and what it emits is the byte
    itself when it is ASCII, U+FFFD, or a code point from U+0040 on. *)
Lemma utf8_byte_wf st b st' out :
  TextDecoder.utf8_wf st ->
  TextDecoder.utf8_byte st b = (st', out) ->
  TextDecoder.utf8_wf st' /\ (forall c, In c out -> c = b \/ (64 <= c)%N).
Proof.
  intros Hwf. unfold TextDecoder.utf8_byte.
  destruct (TextDecoder.bytes_needed st =? 0)%N eqn:En.
  { intros H. destruct (utf8_lead_wf _ _ _ H) as [W O]. split; [exact W|].
    intros c Hc. destruct (O c Hc) as [[-> _]| ->]; [now left|right; lia]. }
  destruct (TextDecoder.between _ _ b) eqn:Eb; simpl.
  - apply N.eqb_neq in En. apply between_spec in Eb.
    assert (Hcp : N.lor (N.shiftl (TextDecoder.code_point st) 6) (N.land b 63) <> 0%N
                  /\ (TextDecoder.code_point st <> 0%N ->
                      (64 <= N.lor (N.shiftl (TextDecoder.code_point st) 6) (N.land b 63))%N)).
    { split.
      - destruct Hwf as [H|[H|(Hl & Hu & Hs)]]; [easy| |].
        + apply lor_shift_not_small; [assumption|lia].
        + intros E. apply N.lor_eq_0_iff in E as [_ E].
          revert E. apply land_continuation. lia.
      - intros H. destruct (N.lt_ge_cases
          (N.lor (N.shiftl (TextDecoder.code_point st) 6) (N.land b 63)) 64) as [L|L];
          [|exact L].
        now elim (lor_shift_not_small _ (N.land b 63) _ H L). }
    destruct (_ =? _)%N eqn:Es.
    + intros [= <- <-]. split; [now left|]. intros c [<-|[]]. right.
      apply N.eqb_eq in Es. destruct Hwf as [H|[H|(_ & _ & Hs)]]; [easy| |easy].
      now apply Hcp.
    + intros [= <- <-]. split; [|intros c []]. right. left. simpl. apply Hcp.
  - destruct (TextDecoder.utf8_lead b) as [st1 out1] eqn:El.
    intros [= <- <-]. destruct (utf8_lead_wf _ _ _ El) as [W O]. split; [exact W|].
    intros c [<-|Hc]; [right; lia|].
    destruct (O c Hc) as [[-> _]| ->]; [now left|right; lia].
Qed.

Lemma to_N_line_feed b : b <> Byte.x0a -> Byte.to_N b <> 10%N.
Proof.
  intros H E. apply H. apply (proj2 (Byte.to_of_N_iff 10 b)) in E.
  change (Byte.of_N 10) with (Some Byte.x0a) in E. congruence.
Qed.

Lemma code_units_no_line_feed c :
  c <> 10%N -> Forall (fun u => u <> 10%N) (TextDecoder.code_units c).
Proof.
  intros H. unfold TextDecoder.code_units. destruct (c <? 65536)%N.
  - now constructor.
  - repeat constructor; lia.
Qed.

Lemma serialize_all_no_line_feed cps : forall bom,
  Forall (fun c => c <> 10%N) cps ->
  Forall (fun u => u <> 10%N) (snd (TextDecoder.serialize_all bom cps)).
Proof.
  induction cps as [|c cps IH]; intros bom H; simpl; [constructor|].
  inversion_clear H as [|? ? Hc Hr]. specialize (IH true Hr).
  destruct (TextDecoder.serialize_all true cps) as [bom' out]. simpl in *.
  apply Forall_app. split; [|exact IH]. unfold TextDecoder.serialize.
  destruct (negb bom && (c =? 65279)%N); [constructor|now apply code_units_no_line_feed].
Qed.

Lemma decode_wf value : forall d,
  TextDecoder.utf8_wf (TextDecoder.utf8 d) ->
  TextDecoder.utf8_wf (TextDecoder.utf8 (fst (TextDecoder.decode d value)))
  /\ (Forall (fun b => b <> Byte.x0a) value ->
      Forall (fun u => u <> 10%N) (snd (TextDecoder.decode d value))).
Proof.
  induction value as [|b value IH]; intros d Hd; simpl.
  - split; [exact Hd|constructor].
  - unfold TextDecoder.decode_byte.
    destruct (TextDecoder.utf8_byte (TextDecoder.utf8 d) (Byte.to_N b)) as [st cps] eqn:Eb.
    destruct (utf8_byte_wf _ _ _ _ Hd Eb) as [Hst Hcps].
    pose proof (serialize_all_no_line_feed cps (TextDecoder.BOM_seen d)) as Hser.
    destruct (TextDecoder.serialize_all (TextDecoder.BOM_seen d) cps) as [bom out1].
    specialize (IH {| TextDecoder.utf8 := st; TextDecoder.BOM_seen := bom |} Hst).
    destruct (TextDecoder.decode _ value) as [d2 out2]. simpl in *.
    split; [apply IH|]. intros H. inversion_clear H as [|? ? Hb Hv].
    apply Forall_app. split; [|now apply IH].
    apply Hser. apply Forall_forall. intros c Hc.
    destruct (Hcps c Hc) as [->|H]; [now apply to_N_line_feed|lia].
Qed.

Lemma split_lines_no_line_feed s :
  Forall (Forall (fun u => u <> 10%N)) (split_lines s).
Proof.
  induction s as [|c r IH]; simpl; [repeat constructor|].
  destruct (c =? 10)%N eqn:E.
  - constructor; [constructor|exact IH].
  - apply N.eqb_neq in E. destruct (split_lines r) as [|l ls].
    + repeat constructor. exact E.
    + inversion_clear IH as [|? ? Hl Hls]. constructor; [|exact Hls]. now constructor.
Qed.

Lemma split_lines_single s :
  Forall (fun u => u <> 10%N) s -> split_lines s = [s].
Proof.
  induction s as [|c r IH]; intros H; simpl; [reflexivity|].
  inversion_clear H as [|? ? Hc Hr]. apply N.eqb_neq in Hc. rewrite Hc, (IH Hr). reflexivity.
Qed.

Lemma last_Forall {A} (P : A -> Prop) (l : list A) (d : A) :
  Forall P l -> P d -> P (last l d).
Proof.
  induction l as [|x l IH]; intros H Hd; simpl; [exact Hd|].
  inversion_clear H as [|? ? Hx Hl]. destruct l; [exact Hx|now apply IH].
Qed.

Section Loop.
Variable JSON_parse : jsstring -> option JSValue.
Variable Number_toString : float -> jsstring.

#[local] Abbreviation processData := (processData JSON_parse Number_toString).
#[local] Abbreviation processLine := (processLine JSON_parse Number_toString).
#[local] Abbreviation step := (step JSON_parse Number_toString).
#[local] Abbreviation run := (run JSON_parse Number_toString).
#[local] Abbreviation handleSendMessage := (handleSendMessage JSON_parse Number_toString).
#[local] Abbreviation handleSendMessage_with_flush :=
  (handleSendMessage_with_flush JSON_parse Number_toString).

(** Two successive chunks leave the loop in the state their concatenation
    leaves it in. *)
Lemma step_app st c1 c2 : step (step st c1) c2 = step st (c1 ++ c2).
Proof.
  unfold Stream.step. rewrite decode_app.
  destruct (TextDecoder.decode (decoder st) c1) as [d1 t1]. simpl.
  destruct (TextDecoder.decode d1 c2) as [d2 t2].
  rewrite app_assoc, (removelast_split_app (buffer st ++ t1) t2),
    (last_split_app (buffer st ++ t1) t2), fold_left_app.
  reflexivity.
Qed.

Lemma fold_step_concat chunks : forall st c,
  fold_left step chunks (step st c) = step st (c ++ List.concat chunks).
Proof.
  induction chunks as [|c' chunks IH]; intros st c; simpl.
  - now rewrite app_nil_r.
  - now rewrite step_app, IH, app_assoc.
Qed.

Lemma run_concat chunks : run chunks = step initial (List.concat chunks).
Proof.
  unfold Stream.run. destruct chunks as [|c chunks]; simpl.
  - reflexivity.
  - apply fold_step_concat.
Qed.

(** C3: chunking invariance.  However a byte sequence is cut into chunks,
    the loop ends with the accumulated string it ends with on the whole
    sequence as one chunk; in particular when the sequence is cut in two at
    any byte boundary, or into single bytes, that is at every boundary:
    inside a multi-byte UTF-8 sequence, a line or a JSON payload. *)
Theorem handleSendMessage_chunking_invariant :
  (forall chunks, handleSendMessage chunks = handleSendMessage [List.concat chunks])
  /\ (forall value k, handleSendMessage [firstn k value; skipn k value] = handleSendMessage [value])
  /\ (forall value, handleSendMessage (map (fun b => [b]) value) = handleSendMessage [value]).
Proof.
  assert (H : forall chunks, handleSendMessage chunks = handleSendMessage [List.concat chunks]).
  { intros chunks. unfold Stream.handleSendMessage. rewrite !run_concat. simpl.
    now rewrite app_nil_r. }
  split; [exact H|]. split.
  - intros value k. rewrite H. simpl. now rewrite app_nil_r, firstn_skipn.
  - intros value. rewrite H. now rewrite concat_singletons.
Qed.

(** *** The loop only ever appends *)

Lemma processData_extends acc data : exists x, processData acc data = acc ++ x.
Proof.
  unfold Stream.processData, try_block.
  destruct (JSON_parse data) as [parsed|]; [|now exists data].
  destruct (get_response parsed) as [response|]; [|now exists data].
  destruct (ToBoolean response); [|exists []; now rewrite app_nil_r].
  destruct response as [v|]; [|exists []; now rewrite app_nil_r].
  destruct (ToString Number_toString v) as [s|]; [now exists s|now exists data].
Qed.

Lemma processLine_extends acc line : exists x, processLine acc line = acc ++ x.
Proof.
  unfold Stream.processLine.
  destruct (startsWith _ _); [|exists []; now rewrite app_nil_r].
  destruct (str_eqb _ _); [exists []; now rewrite app_nil_r|].
  apply processData_extends.
Qed.

Lemma processLines_extends lines : forall acc,
  exists x, fold_left processLine lines acc = acc ++ x.
Proof.
  induction lines as [|l lines IH]; intros acc; simpl.
  - exists []. now rewrite app_nil_r.
  - destruct (processLine_extends acc l) as [x ->].
    destruct (IH (acc ++ x)) as [y ->]. exists (x ++ y). now rewrite app_assoc.
Qed.

(** C6: across every step of the loop, from any prior state and on any
    chunk, the accumulated string keeps what it held and its length does
    not decrease; so every content the message is set to from a state on
    extends the accumulated string of that state. *)
Theorem fullResponse_monotone (st : state) (value : list Byte.byte) :
  (exists x, fullResponse (step st value) = fullResponse st ++ x)
  /\ List.length (fullResponse st) <= List.length (fullResponse (step st value))
  /\ (forall chunks s, In s (snapshots JSON_parse Number_toString st chunks) ->
        exists x, s = fullResponse st ++ x).
Proof.
  assert (H : forall st value, exists x, fullResponse (step st value) = fullResponse st ++ x).
  { intros st0 value0. unfold Stream.step.
    destruct (TextDecoder.decode (decoder st0) value0) as [d chunk].
    simpl. apply processLines_extends. }
  split; [apply H|]. split.
  - destruct (H st value) as [x ->]. rewrite length_app. lia.
  - intros chunks. revert st. induction chunks as [|c chunks IH]; intros st s; simpl; [easy|].
    destruct (H st c) as [x Hx]. intros [<-|Hs]; [now exists x|].
    destruct (IH _ _ Hs) as [y ->]. exists (x ++ y). now rewrite Hx, app_assoc.
Qed.

(** *** The sentinel and the other payloads *)

Lemma processLine_data acc line data :
  trim line = lit "data: " ++ data ->
  processLine acc line =
    if str_eqb data (lit "[DONE]") then acc else processData acc data.
Proof.
  intros H. unfold Stream.processLine. rewrite H, startsWith_app. reflexivity.
Qed.

(** The lines that a line feed ends go through the per-line rule, one
    after the other, and the text after the last line feed is kept. *)
Lemma step_lines st value lines rest :
  split_lines (buffer st ++ snd (TextDecoder.decode (decoder st) value)) = lines ++ [rest] ->
  fullResponse (step st value) = fold_left processLine lines (fullResponse st)
  /\ buffer (step st value) = rest.
Proof.
  unfold Stream.step. destruct (TextDecoder.decode (decoder st) value) as [d chunk].
  simpl. intros ->. now rewrite removelast_last, last_last.
Qed.

(** C4: a complete line whose trimmed form is [data: [DONE]] leaves the
    accumulated string as it is and ends neither loop.  In the iteration
    that meets it, the complete lines before it and after it all go through
    the per-line rule, as if the line were absent, and the text after the
    last line feed is kept for the next chunk.  Over the whole exchange,
    wherever the line stands in the decoded stream and however the stream
    is cut into chunks, every complete line before it and after it is
    processed: the loop runs until the chunks are exhausted.  No other
    payload is skipped: a [data: ] line with any other payload goes to the
    parsing rule. *)
Theorem done_sentinel_skipped (line : jsstring) :
  trim line = lit "data: [DONE]" ->
  (forall acc, processLine acc line = acc)
  /\ (forall st value lines1 lines2 rest,
        split_lines (buffer st ++ snd (TextDecoder.decode (decoder st) value))
          = lines1 ++ line :: lines2 ++ [rest] ->
        fullResponse (step st value)
          = fold_left processLine (lines1 ++ lines2) (fullResponse st)
        /\ buffer (step st value) = rest)
  /\ (forall chunks lines1 lines2 rest,
        split_lines (decoded chunks) = lines1 ++ line :: lines2 ++ [rest] ->
        handleSendMessage chunks = fold_left processLine (lines1 ++ lines2) [])
  /\ (forall acc other data,
        trim other = lit "data: " ++ data -> data <> lit "[DONE]" ->
        processLine acc other = processData acc data).
Proof.
  intros H.
  assert (Hskip : forall a, processLine a line = a).
  { intros a. now rewrite (processLine_data a line (lit "[DONE]")). }
  assert (Hstep : forall st value lines1 lines2 rest,
            split_lines (buffer st ++ snd (TextDecoder.decode (decoder st) value))
              = lines1 ++ line :: lines2 ++ [rest] ->
            fullResponse (step st value)
              = fold_left processLine (lines1 ++ lines2) (fullResponse st)
            /\ buffer (step st value) = rest).
  { intros st value lines1 lines2 rest Hl.
    destruct (step_lines st value (lines1 ++ line :: lines2) rest) as [Hf Hb].
    - rewrite Hl, <- app_assoc. reflexivity.
    - split; [|exact Hb]. rewrite Hf, !fold_left_app. simpl. now rewrite Hskip. }
  split; [exact Hskip|]. split; [exact Hstep|]. split.
  - intros chunks lines1 lines2 rest Hl.
    unfold Stream.handleSendMessage. rewrite run_concat.
    exact (proj1 (Hstep initial (List.concat chunks) lines1 lines2 rest Hl)).
  - intros acc other data Hother Hdata. rewrite (processLine_data acc other data Hother).
    destruct (str_eqb data (lit "[DONE]")) eqn:E; [|reflexivity].
    now apply EdgesProofs.str_eqb_eq in E.
Qed.

(** C5: on a complete [data: ] line whose payload is not the sentinel, a
    payload that fails to parse is appended verbatim to the accumulated
    string, and a payload that parses to a value that has no [response]
    property appends nothing.  The payload [null] parses, but reading its
    property throws inside the [try] block, and the [catch] block appends
    the raw text as if the payload had not parsed.  The step is a total
    function of the line: no error leaves it. *)
Theorem malformed_payload_appended (acc line data : jsstring) :
  trim line = lit "data: " ++ data ->
  data <> lit "[DONE]" ->
  (JSON_parse data = None -> processLine acc line = acc ++ data)
  /\ (forall parsed, JSON_parse data = Some parsed ->
        get_response parsed = Normal None -> processLine acc line = acc)
  /\ (JSON_parse data = Some JNull -> processLine acc line = acc ++ data).
Proof.
  intros Hline Hdata. rewrite (processLine_data acc line data Hline).
  destruct (str_eqb data (lit "[DONE]")) eqn:E; [now apply EdgesProofs.str_eqb_eq in E|].
  unfold Stream.processData, try_block. split; [|split].
  - now intros ->.
  - now intros parsed -> ->.
  - now intros ->.
Qed.

(** *** The end of the data *)

Lemma step_ok st value : state_ok st -> state_ok (step st value).
Proof.
  intros [Hd Hb]. unfold Stream.step, state_ok.
  destruct (decode_wf value (decoder st) Hd) as [Hd' _].
  destruct (TextDecoder.decode (decoder st) value) as [d chunk]. simpl in *.
  split; [exact Hd'|]. apply last_Forall; [apply split_lines_no_line_feed|constructor].
Qed.

Lemma run_ok chunks : state_ok (run chunks).
Proof.
  unfold Stream.run.
  assert (H : forall st, state_ok st -> state_ok (fold_left step chunks st)).
  { induction chunks as [|c chunks IH]; intros st Hst; simpl; [exact Hst|].
    apply IH. now apply step_ok. }
  apply H. split; [now left|constructor].
Qed.

(** A chunk without a line feed completes no line. *)
Lemma step_no_line_feed st value :
  state_ok st -> Forall (fun b => b <> Byte.x0a) value ->
  fullResponse (step st value) = fullResponse st.
Proof.
  intros [Hd Hb] Hv. unfold Stream.step.
  destruct (decode_wf value (decoder st) Hd) as [_ Hout]. specialize (Hout Hv).
  destruct (TextDecoder.decode (decoder st) value) as [d chunk]. simpl in *.
  rewrite split_lines_single; [reflexivity|]. apply Forall_app. now split.
Qed.

Lemma handleSendMessage_unterminated_tail chunks tail :
  Forall (fun b => b <> Byte.x0a) tail ->
  handleSendMessage (chunks ++ [tail]) = handleSendMessage chunks.
Proof.
  intros H. unfold Stream.handleSendMessage, Stream.run. rewrite fold_left_app. simpl.
  apply step_no_line_feed; [apply run_ok|exact H].
Qed.

(** C2, amended: when the source signals the end of the data the loop exits
    without a final flush.  The accumulated string is the result of the
    per-line rule on the lines of the decoded stream that a line feed
    terminates; the text after the last line feed, a complete unterminated
    [data: ] line included, is never processed: a last chunk without a line
    feed changes nothing.  Processing that text as well is what the flush of
    the specification would add. *)
Theorem handleSendMessage_no_final_flush (chunks : list (list Byte.byte)) :
  handleSendMessage chunks = fold_left processLine (removelast (split_lines (decoded chunks))) []
  /\ handleSendMessage_with_flush chunks = fold_left processLine (split_lines (decoded chunks)) []
  /\ (forall tail, Forall (fun b => b <> Byte.x0a) tail ->
        handleSendMessage (chunks ++ [tail]) = handleSendMessage chunks).
Proof.
  split; [|split; [|now apply handleSendMessage_unterminated_tail]];
    unfold Stream.handleSendMessage, Stream.handleSendMessage_with_flush, final_flush, decoded;
    rewrite run_concat; unfold Stream.step; simpl decoder;
    destruct (TextDecoder.decode TextDecoder.create (List.concat chunks)) as [d text];
    simpl; [reflexivity|].
  rewrite (app_removelast_last [] (split_lines_nonempty text)) at 3.
  now rewrite fold_left_app.
Qed.

End Loop.

(** *** The loop on the reference platform *)

#[local] Abbreviation processLine := (processLine JSON.parse Number.toString).
#[local] Abbreviation handleSendMessage := (handleSendMessage JSON.parse Number.toString).
#[local] Abbreviation handleSendMessage_with_flush :=
  (handleSendMessage_with_flush JSON.parse Number.toString).

(** C2, as stated, fails: a stream that ends on the complete unterminated
    [data: ] line [frame "Hi"] ends with an empty accumulated string;
    the payload that a final flush would have appended is lost. *)
Lemma unterminated_line_lost :
  handleSendMessage [bytes (frame "Hi")] = []
  /\ handleSendMessage_with_flush [bytes (frame "Hi")] = lit "Hi".
Proof. split; vm_compute; reflexivity. Qed.

(** C5: the line [data: null].  Its payload is a JSON text, which parses to
    [null], a value without a [response] field; the specification has such
    a line append nothing.  Reading [parsed.response] throws a TypeError
    inside the [try] block, and the [catch] block, written for what is no
    JSON, appends the raw text: the accumulated string [Hi] becomes
    [Hinull], and a stream of that one line ends with the answer [null]. *)
Lemma null_payload_appended :
  trim (lit "data: null") = lit "data: " ++ lit "null"
  /\ JSON.parse (lit "null") = Some JNull
  /\ get_response JNull = Throw
  /\ processLine (lit "Hi") (lit "data: null") = lit "Hinull"
  /\ handleSendMessage [bytes ("data: null" ++ line_feed)] = lit "null".
Proof. repeat split; vm_compute; reflexivity. Qed.

(** A frame, the sentinel line with a carriage return and, in the next
    chunk, another frame: the frame after the sentinel is processed. *)
Lemma done_sentinel_skipped_witness :
  handleSendMessage [bytes (frame "Hi" ++ line_feed ++ "data: [DONE]") ++ [Byte.x0d; Byte.x0a];
                     bytes (frame " there" ++ line_feed)] = lit "Hi there".
Proof.
  destruct (done_sentinel_skipped JSON.parse Number.toString (lit "data: [DONE]" ++ [13%N])
              eq_refl) as (_ & _ & H & _).
  rewrite (H _ [lit (frame "Hi")] [lit (frame " there")] []) by (vm_compute; reflexivity).
  vm_compute. reflexivity.
Defined.

(** The partial JSON fragment of a payload cut inside its first key. *)
Lemma malformed_payload_appended_witness :
  processLine (lit "Hi") (lit ("data: {" ++ dquote ++ "respo"))
    = lit "Hi" ++ lit ("{" ++ dquote ++ "respo").
Proof.
  refine (proj1 (malformed_payload_appended JSON.parse Number.toString (lit "Hi")
                   (lit ("data: {" ++ dquote ++ "respo"))
                   (lit ("{" ++ dquote ++ "respo")) _ _) _).
  - reflexivity.
  - discriminate.
  - vm_compute. reflexivity.
Defined.

(** The scenarios of the specification.  A payload cut in the middle of its
    JSON text is withheld until its line feed arrives and parses once; the
    sentinel frame alone leaves the accumulated string empty; frames after
    the sentinel are still processed; a two-byte character cut between its
    bytes is decoded whole. *)
Example stream_scenarios :
  handleSendMessage [bytes ("data: {" ++ dquote ++ "respo");
                bytes ("nse" ++ dquote ++ ":" ++ dquote ++ "Hi" ++ dquote ++ "}"
                       ++ line_feed ++ line_feed)] = lit "Hi"
  /\ handleSendMessage [bytes ("data: [DONE]" ++ line_feed ++ line_feed)] = []
  /\ handleSendMessage [bytes (frame "Hi" ++ line_feed ++ "data: [DONE]" ++ line_feed);
                   bytes (frame " there" ++ line_feed)] = lit "Hi there"
  /\ handleSendMessage [bytes "data: " ++ [Byte.xc3]; [Byte.xa9; Byte.x0a]] = [233%N].
Proof. repeat split; vm_compute; reflexivity. Qed.

(** Values of a [response] field that are no strings are converted as
    [+=] converts them. *)
Example response_values :
  processLine [] (lit ("data: {" ++ dquote ++ "response" ++ dquote ++ ":[1.5,null,[true,{}]]}"))
    = lit "1.5,,true,[object Object]"
  /\ processLine [] (lit ("data: {" ++ dquote ++ "response" ++ dquote ++ ":0}")) = [].
Proof. repeat split; vm_compute; reflexivity. Qed.

End StreamProofs.

(** ** JSON texts *)

Module JSONTextProofs.
Import JSON JSONText.
#[local] Open Scope list_scope.

(** What [parse_chars] does with the text [x] after one more character
    [c] of the string. *)
#[local] Abbreviation continue c x :=
  (match parse_chars x with
   | Some (str, rest) => Some (c :: str, rest)
   | None => None
   end).

Lemma parse_chars_plain (c : N) (x : jsstring) :
  (0x20 <= c)%N -> c <> 34%N -> c <> 92%N -> parse_chars (c :: x) = continue c x.
Proof.
  intros Hc H34 H92.
  assert (E : (c <? 0x20)%N || (c =? 92)%N = false).
  { apply orb_false_iff. split; [now apply N.ltb_ge|now apply N.eqb_neq]. }
  transitivity (if (c <? 0x20)%N || (c =? 92)%N then None else continue c x);
    [|now rewrite E].
  clear Hc E. destruct c as [|p]; [reflexivity|].
  repeat (first [reflexivity | congruence | destruct p as [p|p|]]).
Qed.

Lemma hex_value_digit (n : N) : (n < 16)%N -> hex_value (hex_digit n) = Some n.
Proof.
  intros H. destruct n as [|p]; [reflexivity|].
  do 4 (try destruct p as [p|p|]); try reflexivity; lia.
Qed.

Lemma parse_chars_escape (c : N) (x : jsstring) :
  (c < 65536)%N -> parse_chars (UnicodeEscape c ++ x) = continue c x.
Proof.
  intros H. unfold UnicodeEscape.
  change (parse_chars ([92%N; 117%N; hex_digit (c / 4096); hex_digit ((c / 256) mod 16);
                        hex_digit ((c / 16) mod 16); hex_digit (c mod 16)] ++ x))
    with (match hex4 (hex_digit (c / 4096)) (hex_digit ((c / 256) mod 16))
                  (hex_digit ((c / 16) mod 16)) (hex_digit (c mod 16)),
                parse_chars x with
          | Some u, Some (str, rest) => Some (u :: str, rest)
          | _, _ => None
          end).
  unfold hex4.
  rewrite !hex_value_digit;
    try (apply N.mod_upper_bound; discriminate);
    try (apply N.Div0.div_lt_upper_bound; lia).
  replace (c / 4096 * 4096 + (c / 256) mod 16 * 256 + (c / 16) mod 16 * 16 + c mod 16)%N
    with c; [reflexivity|].
  pose proof (N.div_mod c 16 ltac:(discriminate)).
  pose proof (N.div_mod (c / 16) 16 ltac:(discriminate)).
  pose proof (N.div_mod (c / 256) 16 ltac:(discriminate)).
  rewrite (N.Div0.div_div c 16 16) in *.
  replace (c / 4096)%N with (c / 256 / 16)%N by (rewrite N.Div0.div_div; reflexivity).
  change (16 * 16)%N with 256%N in *. lia.
Qed.

Lemma parse_chars_unit (c : N) (x : jsstring) :
  parse_chars (quote_unit c ++ x) = continue c x.
Proof.
  unfold quote_unit.
  destruct (c =? 8)%N eqn:E8; [apply N.eqb_eq in E8; subst; reflexivity|].
  destruct (c =? 9)%N eqn:E9; [apply N.eqb_eq in E9; subst; reflexivity|].
  destruct (c =? 10)%N eqn:E10; [apply N.eqb_eq in E10; subst; reflexivity|].
  destruct (c =? 12)%N eqn:E12; [apply N.eqb_eq in E12; subst; reflexivity|].
  destruct (c =? 13)%N eqn:E13; [apply N.eqb_eq in E13; subst; reflexivity|].
  destruct (c =? 34)%N eqn:E34; [apply N.eqb_eq in E34; subst; reflexivity|].
  destruct (c =? 92)%N eqn:E92; [apply N.eqb_eq in E92; subst; reflexivity|].
  apply N.eqb_neq in E34, E92.
  destruct ((c <? 32)%N || is_leading_surrogate c || is_trailing_surrogate c) eqn:E.
  - apply parse_chars_escape.
    apply orb_true_iff in E as [E|E]; [apply orb_true_iff in E as [E|E]|].
    + apply N.ltb_lt in E. lia.
    + apply StreamProofs.between_spec in E. lia.
    + apply StreamProofs.between_spec in E. lia.
  - apply orb_false_iff in E as [E _]. apply orb_false_iff in E as [E _].
    apply N.ltb_ge in E. now apply parse_chars_plain.
Qed.

(** [JSON.parse] reads back the string that QuoteJSONString wrote, whatever
    its code units and whatever follows the closing quote. *)
Lemma parse_chars_quote_units (s x : jsstring) :
  parse_chars (quote_units s ++ 34%N :: x) = Some (s, x).
Proof.
  remember (List.length s) as n eqn:Hn.
  assert (Hle : List.length s <= n) by lia. clear Hn.
  revert s Hle. induction n as [|n IH]; intros s Hle.
  - destruct s; [reflexivity|simpl in Hle; lia].
  - destruct s as [|c r]; [reflexivity|]. simpl in Hle.
    destruct r as [|d r'].
    + simpl quote_units. rewrite parse_chars_unit. reflexivity.
    + change (quote_units (c :: d :: r'))
        with (if is_leading_surrogate c && is_trailing_surrogate d
              then c :: d :: quote_units r'
              else quote_unit c ++ quote_units (d :: r')).
      destruct (is_leading_surrogate c && is_trailing_surrogate d) eqn:E.
      * apply andb_true_iff in E as [Ec Ed].
        apply StreamProofs.between_spec in Ec, Ed. simpl app.
        rewrite parse_chars_plain by lia. rewrite parse_chars_plain by lia.
        simpl in Hle. rewrite IH by lia. reflexivity.
      * rewrite <- app_assoc, parse_chars_unit, IH by (simpl in *; lia). reflexivity.
Qed.

Lemma hex_digit_no_line_feed (n : N) : hex_digit n <> 10%N.
Proof. unfold hex_digit. destruct (n <? 10)%N; lia. Qed.

Lemma quote_unit_no_line_feed (c : N) : Forall (fun u => u <> 10%N) (quote_unit c).
Proof.
  unfold quote_unit.
  repeat match goal with
         | |- context [if (c =? ?k)%N then _ else _] =>
             destruct (c =? k)%N eqn:?; [repeat constructor; discriminate|]
         end.
  destruct ((c <? 32)%N || is_leading_surrogate c || is_trailing_surrogate c).
  - unfold UnicodeEscape.
    repeat constructor; try discriminate; apply hex_digit_no_line_feed.
  - repeat constructor. now apply N.eqb_neq.
Qed.

Lemma quote_units_no_line_feed (s : jsstring) : Forall (fun u => u <> 10%N) (quote_units s).
Proof.
  remember (List.length s) as n eqn:Hn.
  assert (Hle : List.length s <= n) by lia. clear Hn.
  revert s Hle. induction n as [|n IH]; intros s Hle.
  - destruct s; [constructor|simpl in Hle; lia].
  - destruct s as [|c r]; [constructor|]. simpl in Hle.
    destruct r as [|d r'].
    + apply quote_unit_no_line_feed.
    + change (quote_units (c :: d :: r'))
        with (if is_leading_surrogate c && is_trailing_surrogate d
              then c :: d :: quote_units r'
              else quote_unit c ++ quote_units (d :: r')).
      destruct (is_leading_surrogate c && is_trailing_surrogate d) eqn:E.
      * apply andb_true_iff in E as [Ec Ed].
        apply StreamProofs.between_spec in Ec, Ed. simpl in Hle.
        constructor; [lia|]. constructor; [lia|]. apply IH. lia.
      * apply Forall_app. split; [apply quote_unit_no_line_feed|].
        apply IH. simpl in *. lia.
Qed.

(** *** Numbers *)

(** The cases of a code unit: 0, and the patterns of its first seven
    bits. *)
Ltac code_unit_cases c :=
  destruct c as [|c]; [|do 7 (try (destruct c as [c|c|]))].

Lemma parse_number_stages (s : jsstring) :
  parse_number s =
    let '(negative, s1) := number_sign s in
    let '(int, n_int, s2) := digits s1 0%Z 0%Z in
    if (n_int =? 0)%Z || (leading_zero s1 && (1 <? n_int)%Z) then None
    else
      match number_fraction int s2 with
      | None => None
      | Some (m, n_frac, s3) =>
          match number_exponent s3 with
          | None => None
          | Some (x, s4) => Some (Number.of_decimal negative m (x - n_frac), s4)
          end
      end.
Proof. reflexivity. Qed.

Lemma number_sign_cons (c : N) (s : jsstring) :
  number_sign (c :: s) = if (c =? 45)%N then (true, s) else (false, c :: s).
Proof. code_unit_cases c; reflexivity. Qed.

Lemma exponent_sign_cons (c : N) (s : jsstring) :
  exponent_sign (c :: s) =
    if (c =? 45)%N then (true, s) else if (c =? 43)%N then (false, s) else (false, c :: s).
Proof. code_unit_cases c; reflexivity. Qed.

Lemma number_fraction_cons (int : Z) (c : N) (s : jsstring) :
  number_fraction int (c :: s) =
    if (c =? 46)%N then
      let '(m, n_frac, s3) := digits s int 0%Z in
      if (n_frac =? 0)%Z then None else Some (m, n_frac, s3)
    else Some (int, 0%Z, c :: s).
Proof. code_unit_cases c; reflexivity. Qed.

Lemma number_exponent_cons (c : N) (s : jsstring) :
  number_exponent (c :: s) =
    if (c =? 101)%N || (c =? 69)%N then
      let '(exp_negative, r1) := exponent_sign s in
      let '(x, n_exp, s4) := digits r1 0%Z 0%Z in
      if (n_exp =? 0)%Z then None
      else Some (if exp_negative then Z.opp x else x, s4)
    else Some (0%Z, c :: s).
Proof. code_unit_cases c; reflexivity. Qed.

(** The digits of a text are those of the text before what follows a
    value. *)
Lemma digits_app (s rest : jsstring) :
  closed rest ->
  forall value count,
    digits (s ++ rest) value count =
      let '(v, c, s') := digits s value count in (v, c, s' ++ rest).
Proof.
  intros Hrest. induction s as [|a s IH]; intros value count.
  - destruct Hrest as [->|(c & r & -> & [->|[->| ->]])]; reflexivity.
  - simpl. destruct (is_digit a); [apply IH|reflexivity].
Qed.

Lemma number_fraction_app (int : Z) (s2 rest : jsstring) :
  closed rest ->
  number_fraction int (s2 ++ rest) =
    match number_fraction int s2 with
    | Some (m, n_frac, s3) => Some (m, n_frac, s3 ++ rest)
    | None => None
    end.
Proof.
  intros Hrest. destruct s2 as [|c s2].
  - destruct Hrest as [->|(c & r & -> & [->|[->| ->]])]; reflexivity.
  - rewrite <- app_comm_cons, !number_fraction_cons.
    destruct (c =? 46)%N; [|reflexivity].
    rewrite (digits_app s2 rest Hrest).
    destruct (digits s2 int 0%Z) as [[m n_frac] s3].
    now destruct (n_frac =? 0)%Z.
Qed.

Lemma number_exponent_app (s3 rest : jsstring) :
  closed rest ->
  number_exponent (s3 ++ rest) =
    match number_exponent s3 with
    | Some (x, s4) => Some (x, s4 ++ rest)
    | None => None
    end.
Proof.
  intros Hrest. destruct s3 as [|c s3].
  - destruct Hrest as [->|(c & r & -> & [->|[->| ->]])]; reflexivity.
  - rewrite <- app_comm_cons, !number_exponent_cons.
    destruct ((c =? 101)%N || (c =? 69)%N); [|reflexivity].
    destruct s3 as [|e s3].
    + destruct Hrest as [->|(c' & r & -> & [->|[->| ->]])]; reflexivity.
    + rewrite <- app_comm_cons, !exponent_sign_cons.
      destruct (e =? 45)%N; [|destruct (e =? 43)%N].
      * rewrite (digits_app s3 rest Hrest).
        destruct (digits s3 0%Z 0%Z) as [[x n_exp] s4]. now destruct (n_exp =? 0)%Z.
      * rewrite (digits_app s3 rest Hrest).
        destruct (digits s3 0%Z 0%Z) as [[x n_exp] s4]. now destruct (n_exp =? 0)%Z.
      * rewrite (app_comm_cons s3 rest e), (digits_app (e :: s3) rest Hrest).
        destruct (digits (e :: s3) 0%Z 0%Z) as [[x n_exp] s4]. now destruct (n_exp =? 0)%Z.
Qed.

(** A number starts with its sign or with a digit. *)
Lemma parse_number_head (s : jsstring) (v : float) (t : jsstring) :
  parse_number s = Some (v, t) ->
  exists c r, s = c :: r /\ (c = 45%N \/ (48 <= c <= 57)%N).
Proof.
  destruct s as [|c r]; [discriminate|]. intros H. exists c, r. split; [reflexivity|].
  rewrite parse_number_stages, number_sign_cons in H.
  destruct (c =? 45)%N eqn:E; [left; now apply N.eqb_eq|right].
  cbn [digits] in H. destruct (is_digit c) eqn:Ed.
  - now apply StreamProofs.between_spec in Ed.
  - discriminate H.
Qed.

(** A number that ends a text is read as well before what follows a
    value. *)
Lemma parse_number_app (s : jsstring) (v : float) (rest : jsstring) :
  parse_number s = Some (v, []) -> closed rest ->
  parse_number (s ++ rest) = Some (v, rest).
Proof.
  intros H Hrest. rewrite parse_number_stages in *.
  destruct s as [|c s]; [discriminate H|].
  rewrite <- app_comm_cons, number_sign_cons in *.
  assert (Hint : forall negative s1,
            (let '(int, n_int, s2) := digits s1 0%Z 0%Z in
             if (n_int =? 0)%Z || (leading_zero s1 && (1 <? n_int)%Z) then None
             else
               match number_fraction int s2 with
               | None => None
               | Some (m, n_frac, s3) =>
                   match number_exponent s3 with
                   | None => None
                   | Some (x, s4) => Some (Number.of_decimal negative m (x - n_frac), s4)
                   end
               end) = Some (v, []) ->
            (let '(int, n_int, s2) := digits (s1 ++ rest) 0%Z 0%Z in
             if (n_int =? 0)%Z || (leading_zero (s1 ++ rest) && (1 <? n_int)%Z) then None
             else
               match number_fraction int s2 with
               | None => None
               | Some (m, n_frac, s3) =>
                   match number_exponent s3 with
                   | None => None
                   | Some (x, s4) => Some (Number.of_decimal negative m (x - n_frac), s4)
                   end
               end) = Some (v, rest)).
  { intros negative s1 H1. rewrite (digits_app s1 rest Hrest).
    destruct s1 as [|d s1]; [discriminate H1|].
    change (leading_zero ((d :: s1) ++ rest)) with (leading_zero (d :: s1)).
    destruct (digits (d :: s1) 0%Z 0%Z) as [[int n_int] s2].
    destruct ((n_int =? 0)%Z || (leading_zero (d :: s1) && (1 <? n_int)%Z));
      [discriminate H1|].
    rewrite (number_fraction_app int s2 rest Hrest).
    destruct (number_fraction int s2) as [[[m n_frac] s3]|]; [|discriminate H1].
    rewrite (number_exponent_app s3 rest Hrest).
    destruct (number_exponent s3) as [[x s4]|]; [|discriminate H1].
    injection H1 as <- ->. reflexivity. }
  destruct (c =? 45)%N.
  - exact (Hint true s H).
  - exact (Hint false (c :: s) H).
Qed.

Lemma reads_back_spec (n : float) :
  reads_back n = true ->
  is_finite n = true /\ parse_number (Number.toString n) = Some (n, []).
Proof.
  unfold reads_back. intros [Hf H]%andb_true_iff. split; [exact Hf|].
  destruct (parse_number (Number.toString n)) as [[m [|c r]]|]; try discriminate H.
  apply FloatAxioms.Leibniz.eqb_spec in H. now subst.
Qed.

(** The cases of a character that opens a number. *)
Lemma number_opening (c : N) :
  c = 45%N \/ (48 <= c <= 57)%N ->
  c = 45%N \/ c = 48%N \/ c = 49%N \/ c = 50%N \/ c = 51%N \/ c = 52%N \/ c = 53%N
  \/ c = 54%N \/ c = 55%N \/ c = 56%N \/ c = 57%N.
Proof. lia. Qed.

Lemma parse_value_number (fuel : nat) (n : float) (rest : jsstring) :
  reads_back n = true -> closed rest ->
  parse_value (S fuel) (stringify (JNumber n) ++ rest) = Some (JNumber n, rest).
Proof.
  intros [Hf H]%reads_back_spec Hrest. cbn [stringify]. rewrite Hf.
  pose proof (parse_number_app _ _ rest H Hrest) as Happ.
  destruct (parse_number_head _ _ _ H) as (c & r & E & Hc). rewrite E in *.
  transitivity (match parse_number ((c :: r) ++ rest) with
                | Some (m, rest') => Some (JNumber m, rest')
                | None => None
                end); [|now rewrite Happ].
  apply number_opening in Hc.
  repeat (destruct Hc as [->|Hc]; [reflexivity|]). subst c. reflexivity.
Qed.

(** *** The text of a value parses back *)

Lemma stringify_array (l : list JSValue) :
  stringify (JArray l) = 91%N :: join_values l ++ [93%N].
Proof. reflexivity. Qed.

Lemma stringify_object (l : list (jsstring * JSValue)) :
  stringify (JObject l) = 123%N :: join_members l ++ [125%N].
Proof. reflexivity. Qed.

(** The text of a value starts with a character that is neither white
    space nor a closing bracket or brace. *)
Lemma stringify_opening (v : JSValue) (y : jsstring) :
  readable v = true -> exists c r, stringify v ++ y = c :: r /\ opening c.
Proof.
  unfold opening. destruct v as [|[]|n| | |]; intros Hv.
  - eexists _, _. split; [reflexivity|]. tauto.
  - eexists _, _. split; [reflexivity|]. tauto.
  - eexists _, _. split; [reflexivity|]. tauto.
  - apply reads_back_spec in Hv as [Hf H]. cbn [stringify]. rewrite Hf.
    destruct (parse_number_head _ _ _ H) as (c & r & -> & Hc).
    exists c, (r ++ y). split; [reflexivity|]. tauto.
  - eexists _, _. split; [reflexivity|]. tauto.
  - rewrite stringify_array. eexists _, _. split; [reflexivity|]. tauto.
  - rewrite stringify_object. eexists _, _. split; [reflexivity|]. tauto.
Qed.

Lemma parse_value_array (fuel : nat) (r : jsstring) (c : N) (r' : jsstring) :
  r = c :: r' -> opening c ->
  parse_value (S fuel) (91%N :: r) =
    match parse_elements fuel r with
    | Some (vs, rest) => Some (JArray vs, rest)
    | None => None
    end.
Proof.
  intros -> [->|[->|[->|[->|[->|[->|Hc]]]]]]; try reflexivity.
  apply number_opening in Hc.
  repeat (destruct Hc as [->|Hc]; [reflexivity|]). subst c. reflexivity.
Qed.

Lemma parse_elements_step (fuel : nat) (s : jsstring) :
  parse_elements (S fuel) s =
    match parse_value fuel s with
    | Some (v, r) =>
        match skip_ws r with
        | 44%N :: r' =>
            match parse_elements fuel r' with
            | Some (vs, rest) => Some (v :: vs, rest)
            | None => None
            end
        | 93%N :: rest => Some ([v], rest)
        | _ => None
        end
    | None => None
    end.
Proof. reflexivity. Qed.

Lemma parse_members_step (fuel : nat) (k r : jsstring) :
  parse_members (S fuel) (QuoteJSONString k ++ 58%N :: r) =
    match parse_value fuel r with
    | Some (v, r3) =>
        match skip_ws r3 with
        | 44%N :: r4 =>
            match parse_members fuel r4 with
            | Some (ms, rest) => Some ((k, v) :: ms, rest)
            | None => None
            end
        | 125%N :: rest => Some ([(k, v)], rest)
        | _ => None
        end
    | None => None
    end.
Proof.
  unfold QuoteJSONString.
  change (parse_members (S fuel) ((34%N :: quote_units k ++ [34%N]) ++ 58%N :: r))
    with (match parse_chars ((quote_units k ++ [34%N]) ++ 58%N :: r) with
          | Some (key, r1) =>
              match skip_ws r1 with
              | 58%N :: r2 =>
                  match parse_value fuel r2 with
                  | Some (v, r3) =>
                      match skip_ws r3 with
                      | 44%N :: r4 =>
                          match parse_members fuel r4 with
                          | Some (ms, rest) => Some ((key, v) :: ms, rest)
                          | None => None
                          end
                      | 125%N :: rest => Some ([(key, v)], rest)
                      | _ => None
                      end
                  | None => None
                  end
              | _ => None
              end
          | None => None
          end).
  rewrite <- app_assoc. simpl app. rewrite parse_chars_quote_units. reflexivity.
Qed.

Lemma bracket_app (o c : N) (inner rest : jsstring) :
  (o :: inner ++ [c]) ++ rest = o :: inner ++ c :: rest.
Proof. simpl. now rewrite <- app_assoc. Qed.

Lemma closed_comma (rest : jsstring) : closed (44%N :: rest).
Proof. right. exists 44%N, rest. tauto. Qed.

Lemma closed_bracket (rest : jsstring) : closed (93%N :: rest).
Proof. right. exists 93%N, rest. tauto. Qed.

Lemma closed_brace (rest : jsstring) : closed (125%N :: rest).
Proof. right. exists 125%N, rest. tauto. Qed.

Lemma parse_roundtrip (n : nat) :
  (forall v rest, readable v = true -> closed rest -> size v <= n ->
     parse_value n (stringify v ++ rest) = Some (v, rest))
  /\ (forall x l rest, forallb readable (x :: l) = true ->
        list_sum (map (fun x => S (size x)) (x :: l)) <= n ->
        parse_elements n (join_values (x :: l) ++ 93%N :: rest) = Some (x :: l, rest))
  /\ (forall m l rest, forallb (fun m => readable (snd m)) (m :: l) = true ->
        list_sum (map (fun m => S (size (snd m))) (m :: l)) <= n ->
        parse_members n (join_members (m :: l) ++ 125%N :: rest) = Some (m :: l, rest)).
Proof.
  induction n as [|n (IHv & IHe & IHm)].
  - split; [|split].
    + intros v rest _ _ H. destruct v; simpl in H; lia.
    + intros x l rest _ H. simpl in H. lia.
    + intros m l rest _ H. simpl in H. lia.
  - split; [|split].
    + intros v rest Hnf Hrest Hsize. destruct v as [|[]|f|s|l|l].
      * reflexivity.
      * reflexivity.
      * reflexivity.
      * now apply parse_value_number.
      * unfold stringify, QuoteJSONString.
        change (parse_value (S n) ((34%N :: quote_units s ++ [34%N]) ++ rest))
          with (match parse_chars ((quote_units s ++ [34%N]) ++ rest) with
                | Some (str, rest') => Some (JString str, rest')
                | None => None
                end).
        rewrite <- app_assoc. simpl app. now rewrite parse_chars_quote_units.
      * rewrite stringify_array. destruct l as [|x l]; [reflexivity|].
        cbn [readable] in Hnf. simpl in Hsize.
        destruct (stringify_opening x (match l with
                                       | [] => []
                                       | _ :: _ => 44%N :: join_values l
                                       end ++ 93%N :: rest))
          as (c & r & Hr & Hc); [now apply andb_true_iff in Hnf|].
        assert (E : join_values (x :: l) ++ 93%N :: rest = c :: r).
        { rewrite <- Hr. simpl. destruct l; [reflexivity|].
          now rewrite <- app_assoc. }
        rewrite bracket_app.
        rewrite (parse_value_array n _ c r E Hc).
        rewrite IHe; [reflexivity|exact Hnf|simpl; lia].
      * rewrite stringify_object. destruct l as [|[k x] l]; [reflexivity|].
        cbn [readable] in Hnf. simpl in Hsize.
        rewrite bracket_app.
        transitivity (match parse_members n (join_members ((k, x) :: l) ++ 125%N :: rest) with
                      | Some (ms, rest') => Some (JObject ms, rest')
                      | None => None
                      end).
        { simpl join_members. unfold QuoteJSONString. destruct l; reflexivity. }
        rewrite IHm; [reflexivity|exact Hnf|simpl; lia].
    + intros x l rest Hnf Hsize. rewrite parse_elements_step.
      cbn [forallb] in Hnf. simpl in Hsize. apply andb_true_iff in Hnf as [Hx Hl].
      destruct l as [|y l].
      * simpl join_values.
        rewrite IHv by (try assumption; try apply closed_bracket; simpl in *; lia).
        reflexivity.
      * change (join_values (x :: y :: l)) with (stringify x ++ 44%N :: join_values (y :: l)).
        rewrite <- app_assoc.
        rewrite IHv by (try assumption; try (rewrite <- app_comm_cons; apply closed_comma);
                        simpl in *; lia).
        rewrite <- app_comm_cons. change (skip_ws (44%N :: join_values (y :: l) ++ 93%N :: rest))
          with (44%N :: join_values (y :: l) ++ 93%N :: rest).
        cbv iota. rewrite IHe; [reflexivity|exact Hl|simpl in *; lia].
    + intros [k x] l rest Hnf Hsize.
      cbn [forallb snd] in Hnf. simpl in Hsize. apply andb_true_iff in Hnf as [Hx Hl].
      destruct l as [|[k' y] l].
      * change (join_members [(k, x)]) with (QuoteJSONString k ++ 58%N :: stringify x).
        rewrite <- app_assoc, <- app_comm_cons, parse_members_step.
        rewrite IHv by (try assumption; try apply closed_brace; simpl in *; lia).
        reflexivity.
      * change (join_members ((k, x) :: (k', y) :: l))
          with (QuoteJSONString k ++ 58%N :: stringify x
                ++ 44%N :: join_members ((k', y) :: l)).
        rewrite <- app_assoc, <- app_comm_cons, parse_members_step.
        rewrite <- app_assoc.
        rewrite IHv by (try assumption; try (rewrite <- app_comm_cons; apply closed_comma);
                        simpl in *; lia).
        rewrite <- app_comm_cons. change (skip_ws (44%N :: join_members ((k', y) :: l) ++ 125%N :: rest))
          with (44%N :: join_members ((k', y) :: l) ++ 125%N :: rest).
        cbv iota. rewrite IHm; [reflexivity|exact Hl|simpl in *; lia].
Qed.

Lemma size_bound (n : nat) :
  (forall v, readable v = true -> size v <= n ->
     size v <= 2 * List.length (stringify v))
  /\ (forall l, forallb readable l = true ->
        list_sum (map (fun x => S (size x)) l) <= n ->
        list_sum (map (fun x => S (size x)) l) <= 2 * List.length (join_values l) + 1)
  /\ (forall l, forallb (fun m => readable (snd m)) l = true ->
        list_sum (map (fun m => S (size (snd m))) l) <= n ->
        list_sum (map (fun m => S (size (snd m))) l)
          <= 2 * List.length (join_members l) + 1).
Proof.
  induction n as [|n (IHv & IHe & IHm)].
  - split; [|split].
    + intros v _ H. destruct v; simpl in H; lia.
    + intros [|x l] _ H; simpl in *; lia.
    + intros [|m l] _ H; simpl in *; lia.
  - split; [|split].
    + intros v Hnf Hsize. destruct v as [|[]|f|s|l|l].
      * simpl. lia.
      * simpl. lia.
      * simpl. lia.
      * destruct (stringify_opening (JNumber f) [] Hnf) as (c & r & E & _).
        rewrite app_nil_r in E. rewrite E. simpl. lia.
      * unfold stringify, QuoteJSONString. simpl. lia.
      * rewrite stringify_array. cbn [readable] in Hnf. simpl in Hsize.
        specialize (IHe l Hnf ltac:(lia)).
        change (size (JArray l)) with (S (list_sum (map (fun x => S (size x)) l))).
        simpl List.length. rewrite length_app. simpl List.length. lia.
      * rewrite stringify_object. cbn [readable] in Hnf. simpl in Hsize.
        specialize (IHm l Hnf ltac:(lia)).
        change (size (JObject l)) with (S (list_sum (map (fun m => S (size (snd m))) l))).
        simpl List.length. rewrite length_app. simpl List.length. lia.
    + intros [|x l] Hnf Hsize; [simpl; lia|].
      cbn [forallb] in Hnf. simpl in Hsize. apply andb_true_iff in Hnf as [Hx Hl].
      specialize (IHv x Hx ltac:(lia)).
      destruct l as [|y l]; [simpl in *; lia|].
      specialize (IHe (y :: l) Hl ltac:(simpl in *; lia)).
      change (join_values (x :: y :: l)) with (stringify x ++ 44%N :: join_values (y :: l)).
      rewrite length_app.
      change (List.length (44%N :: join_values (y :: l)))
        with (S (List.length (join_values (y :: l)))).
      change (list_sum (map (fun x => S (size x)) (x :: y :: l)))
        with (S (size x) + list_sum (map (fun x => S (size x)) (y :: l))).
      lia.
    + intros [|[k x] l] Hnf Hsize; [simpl; lia|].
      cbn [forallb snd] in Hnf. simpl in Hsize. apply andb_true_iff in Hnf as [Hx Hl].
      specialize (IHv x Hx ltac:(lia)).
      destruct l as [|[k' y] l].
      * change (join_members [(k, x)]) with (QuoteJSONString k ++ 58%N :: stringify x).
        rewrite length_app. simpl in *. lia.
      * specialize (IHm ((k', y) :: l) Hl ltac:(simpl in *; lia)).
        change (join_members ((k, x) :: (k', y) :: l))
          with (QuoteJSONString k ++ 58%N :: stringify x
                ++ 44%N :: join_members ((k', y) :: l)).
        rewrite length_app.
        change (List.length (58%N :: stringify x ++ 44%N :: join_members ((k', y) :: l)))
          with (S (List.length (stringify x ++ 44%N :: join_members ((k', y) :: l)))).
        rewrite length_app.
        change (List.length (44%N :: join_members ((k', y) :: l)))
          with (S (List.length (join_members ((k', y) :: l)))).
        change (list_sum (map (fun m => S (size (snd m))) ((k, x) :: (k', y) :: l)))
          with (S (size x) + list_sum (map (fun m => S (size (snd m))) ((k', y) :: l))).
        lia.
Qed.

(** [JSON.parse] reads back the value whose text [JSON.stringify] wrote,
    for every value whose numbers read back. *)
Lemma parse_stringify (v : JSValue) :
  readable v = true -> JSON.parse (stringify v) = Some v.
Proof.
  intros H. unfold JSON.parse.
  rewrite <- (app_nil_r (stringify v)) at 2.
  rewrite (proj1 (parse_roundtrip _) v [] H); [reflexivity|now left|].
  pose proof (proj1 (size_bound (size v)) v H (le_n _)). lia.
Qed.

End JSONTextProofs.

(** ** The events of the chat stream *)

Module EventStreamProofs.
Import JSON JSONText Stream EventStream JSONTextProofs.
#[local] Open Scope list_scope.

#[local] Abbreviation processLine := (Stream.processLine JSON.parse Number.toString).
#[local] Abbreviation handleSendMessage := (Stream.handleSendMessage JSON.parse Number.toString).

Lemma trim_start_fixed (c : N) (s : jsstring) :
  is_white_space c = false -> trim_start (c :: s) = c :: s.
Proof. intros H. simpl. now rewrite H. Qed.

Lemma trim_fixed (c e : N) (s : jsstring) :
  is_white_space c = false -> is_white_space e = false ->
  trim (c :: s ++ [e]) = c :: s ++ [e].
Proof.
  intros Hc He. unfold trim. rewrite (trim_start_fixed c _ Hc).
  replace (rev (c :: s ++ [e])) with (e :: rev (c :: s))
    by (change (c :: s ++ [e]) with ((c :: s) ++ [e]); now rewrite rev_app_distr).
  rewrite (trim_start_fixed e _ He).
  change (e :: rev (c :: s)) with ([e] ++ rev (c :: s)).
  now rewrite rev_app_distr, rev_involutive.
Qed.

Lemma data_token (response : jsstring) :
  data (Token response) =
    lit ("{" ++ dquote ++ "response" ++ dquote ++ ":" ++ dquote)
    ++ quote_units response ++ [34%N; 125%N].
Proof.
  unfold data, stringify, QuoteJSONString. simpl. now rewrite <- app_assoc.
Qed.

Lemma parse_token (response : jsstring) :
  JSON.parse (data (Token response)) = Some (JObject [(lit "response", JString response)]).
Proof.
  rewrite data_token. unfold JSON.parse.
  destruct (2 * List.length
                  (lit ("{" ++ dquote ++ "response" ++ dquote ++ ":" ++ dquote)
                   ++ quote_units response ++ [34%N; 125%N]) + 2) as [|[|[|n]]] eqn:E;
    try (simpl in E; lia).
  simpl. rewrite parse_chars_quote_units. reflexivity.
Qed.

(** The line of an event appends the response of its token, and nothing
    for the sentinel. *)
Lemma processLine_event (acc : jsstring) (e : Event) :
  processLine acc (lit "data: " ++ data e) =
    acc ++ match e with Token response => response | Done => [] end.
Proof.
  destruct e as [response|].
  - rewrite (StreamProofs.processLine_data JSON.parse Number.toString acc _
               (data (Token response))).
    + replace (str_eqb (data (Token response)) (lit "[DONE]")) with false
        by (rewrite data_token; reflexivity).
      unfold processData, try_block. rewrite parse_token.
      destruct response as [|c r]; [now rewrite app_nil_r|reflexivity].
    + rewrite data_token.
      replace (lit "data: " ++ lit ("{" ++ dquote ++ "response" ++ dquote ++ ":" ++ dquote)
               ++ quote_units response ++ [34%N; 125%N])
        with (100%N :: (lit ("ata: {" ++ dquote ++ "response" ++ dquote ++ ":" ++ dquote)
                        ++ quote_units response ++ [34%N]) ++ [125%N])
        by (simpl; now rewrite <- app_assoc).
      now apply trim_fixed.
  - rewrite app_nil_r. reflexivity.
Qed.

Lemma event_no_line_feed (e : Event) :
  Forall (fun u => u <> 10%N) (lit "data: " ++ data e).
Proof.
  destruct e as [response|].
  - rewrite data_token. repeat (apply Forall_app; split).
    + repeat constructor; discriminate.
    + repeat constructor; discriminate.
    + apply quote_units_no_line_feed.
    + repeat constructor; discriminate.
  - repeat constructor; discriminate.
Qed.

Lemma split_lines_line (line rest : jsstring) :
  Forall (fun u => u <> 10%N) line ->
  split_lines (line ++ 10%N :: rest) = line :: split_lines rest.
Proof.
  induction 1 as [|c line Hc _ IH]; [reflexivity|].
  simpl. apply N.eqb_neq in Hc. now rewrite Hc, IH.
Qed.

Lemma removelast_cons {A : Type} (a : A) (l : list A) :
  l <> [] -> removelast (a :: l) = a :: removelast l.
Proof. now destruct l. Qed.

Lemma processLines_events (events : list Event) (tail : jsstring) :
  Forall (fun u => u <> 10%N) tail ->
  forall acc,
    fold_left processLine (removelast (split_lines (stream_text events ++ tail))) acc =
      acc ++ responses events.
Proof.
  intros Htail. induction events as [|e events IH]; intros acc.
  - simpl. rewrite (StreamProofs.split_lines_single _ Htail). simpl.
    now rewrite app_nil_r.
  - change (stream_text (e :: events))
      with ((lit "data: " ++ data e ++ [10%N; 10%N]) ++ stream_text events).
    replace (((lit "data: " ++ data e ++ [10%N; 10%N]) ++ stream_text events) ++ tail)
      with ((lit "data: " ++ data e) ++ 10%N :: 10%N :: stream_text events ++ tail)
      by (rewrite <- !app_assoc; reflexivity).
    rewrite (split_lines_line _ _ (event_no_line_feed e)).
    change (split_lines (10%N :: stream_text events ++ tail))
      with ([] :: split_lines (stream_text events ++ tail)).
    rewrite !removelast_cons by (try discriminate; apply StreamProofs.split_lines_nonempty).
    cbn [fold_left]. rewrite processLine_event.
    change (processLine (acc ++ match e with Token r => r | Done => [] end) [])
      with (acc ++ match e with Token r => r | Done => [] end).
    rewrite IH. unfold responses. simpl. now rewrite app_assoc.
Qed.

(** The accumulated string is the result of the per-line rule on the lines
    of the decoded stream that a line feed ends. *)
Lemma handleSendMessage_lines (chunks : list (list Byte.byte)) :
  handleSendMessage chunks =
    fold_left processLine (removelast (split_lines (decoded chunks))) [].
Proof.
  unfold Stream.handleSendMessage, decoded. rewrite StreamProofs.run_concat.
  unfold Stream.step. simpl decoder.
  destruct (TextDecoder.decode TextDecoder.create (List.concat chunks)) as [d text].
  reflexivity.
Qed.

(** The lines that add a string or nothing, one after the other. *)
Lemma processLines_adds (lines added : list jsstring) :
  Forall2 adds lines added ->
  forall acc, fold_left processLine lines acc = acc ++ List.concat added.
Proof.
  induction 1 as [|line response lines added Hline _ IH]; intros acc.
  - simpl. now rewrite app_nil_r.
  - cbn [fold_left List.concat]. rewrite IH, app_assoc. f_equal. f_equal.
    destruct Hline as [line data members response Htrim Hparse Hown|line Htrim|line Hother].
    + rewrite (StreamProofs.processLine_data JSON.parse Number.toString acc line data Htrim).
      destruct (str_eqb data (lit "[DONE]")) eqn:E.
      { apply EdgesProofs.str_eqb_eq in E. subst data. discriminate Hparse. }
      unfold processData, try_block. rewrite Hparse. cbn [get_response]. rewrite Hown.
      destruct response as [|c r]; [now rewrite app_nil_r|reflexivity].
    + rewrite (StreamProofs.processLine_data JSON.parse Number.toString acc line
                 (lit "[DONE]") Htrim).
      now rewrite app_nil_r.
    + unfold Stream.processLine. rewrite Hother. now rewrite app_nil_r.
Qed.

(** X1: the loop reassembles the reply.  When every line of the decoded
    stream that a line feed ends is a [data: ] line whose payload parses to
    an object with the member [response], a string, or the sentinel line,
    or no [data: ] line at all, the accumulated string at the end is the
    concatenation of those strings in order: whatever else the objects
    hold, whatever white space stands in the JSON texts and around the
    lines, wherever the sentinel stands and however the bytes are cut into
    chunks; the text after the last line feed is dropped.  In particular,
    when the stream is a sequence of events as [JSON.stringify] writes
    them, each followed by an empty line, the accumulated string is the
    concatenation of their responses, whatever code units these hold, also
    when the stream is cut off after the events inside a line. *)
Theorem handleSendMessage_events (chunks : list (list Byte.byte)) :
  (forall lines rest added,
     split_lines (decoded chunks) = lines ++ [rest] ->
     Forall2 adds lines added ->
     handleSendMessage chunks = List.concat added)
  /\ (forall events tail,
        decoded chunks = stream_text events ++ tail ->
        Forall (fun u => u <> 10%N) tail ->
        handleSendMessage chunks = responses events).
Proof.
  split.
  - intros lines rest added H Hadds.
    rewrite handleSendMessage_lines, H, removelast_last.
    exact (processLines_adds lines added Hadds []).
  - intros events tail H Htail. rewrite handleSendMessage_lines, H.
    now apply processLines_events.
Qed.

(** A stream as another server may write it: a token with white space
    inside its JSON text and a carriage return at the end of its line, its
    letter U+00E9 cut between two chunks; a comment; a token among other
    members; the sentinel; a token with an escape; then the start of a line
    that never ends. *)
Lemma handleSendMessage_events_witness :
  handleSendMessage
    [bytes ("data: { " ++ dquote ++ "response" ++ dquote ++ " : " ++ dquote ++ "H")
     ++ [Byte.xc3];
     Byte.xa9 :: bytes (dquote ++ " }") ++ [Byte.x0d; Byte.x0a; Byte.x0a]
     ++ bytes (": keep-alive" ++ line_feed ++ "data: {" ++ dquote ++ "p" ++ dquote ++ ":1,"
               ++ dquote ++ "response" ++ dquote ++ ":" ++ dquote ++ " there" ++ dquote ++ ","
               ++ dquote ++ "usage" ++ dquote ++ ":null}" ++ line_feed);
     bytes (line_feed ++ "data: [DONE]" ++ line_feed ++ line_feed ++ "  data: {" ++ dquote
            ++ "response" ++ dquote ++ ":" ++ dquote ++ "!" ++ dquote ++ "}" ++ line_feed
            ++ "data: {" ++ dquote ++ "resp")]
  = [72%N; 233%N] ++ lit " there" ++ lit "!".
Proof.
  match goal with
  | |- Stream.handleSendMessage _ _ ?chunks = _ =>
      let lines := eval vm_compute in (removelast (split_lines (decoded chunks))) in
      refine (proj1 (handleSendMessage_events chunks) lines
                (lit ("data: {" ++ dquote ++ "resp"))
                [[72%N; 233%N]; []; []; lit " there"; []; []; []; lit "!"] _ _)
  end.
  - vm_compute. reflexivity.
  - repeat (first
      [ apply Forall2_nil
      | apply Forall2_cons;
        [ first [ eapply adds_token; [vm_compute; reflexivity ..]
                | apply adds_sentinel; vm_compute; reflexivity
                | apply adds_other; vm_compute; reflexivity ] | ] ]).
Defined.

End EventStreamProofs.

(** ** The Worker *)

Module WorkerProofs.
Import JSON Stream Worker.
#[local] Open Scope list_scope.

Lemma history_map_Forall2 (elements : list JSValue) : forall mapped,
  history_map elements = Normal mapped ->
  Forall2 (fun m msg => get "role" m = Normal (role msg)
                        /\ get "content" m = Normal (content msg)) elements mapped.
Proof.
  induction elements as [|m r IH]; simpl; intros mapped H.
  - injection H as <-. constructor.
  - unfold bind in H.
    destruct (get "role" m) as [ro|] eqn:Er; [|discriminate].
    destruct (get "content" m) as [co|] eqn:Ec; [|discriminate].
    destruct (history_map r) as [rest|]; [|discriminate].
    injection H as <-. constructor; [now split|now apply IH].
Qed.

(** X5: the messages given to the model.  Whenever the handler builds the
    array, its first element has the role [system] and a content that
    starts with [SYSTEM_PROMPT], which nothing in the body can shorten or
    replace; its last element has the role [user] and the [message] of the
    body as content; in between stand the elements of [history], in order
    and as many, each with the [role] and [content] it came with: no role
    is checked, so that an element of the history with the role [system]
    reaches the model as such. *)
Theorem chat_messages_shape (body : JSValue) (messages : list Message) :
  chat_messages body = Normal messages ->
  exists info mapped message history,
    messages =
      {| role := Some (JString (lit "system"));
         content := Some (JString (SYSTEM_PROMPT ++ info)) |}
      :: mapped ++ [{| role := Some (JString (lit "user")); content := message |}]
    /\ get "message" body = Normal message
    /\ get "history" body = Normal history
    /\ match history with
       | Some (JArray elements) =>
           Forall2 (fun m msg => get "role" m = Normal (role msg)
                                 /\ get "content" m = Normal (content msg))
             elements mapped
       | _ => mapped = []
       end.
Proof.
  unfold chat_messages, bind. intros H.
  destruct (get "message" body) as [message|]; [|discriminate].
  destruct (get "history" body) as [history|]; [|discriminate].
  destruct (get "location" body) as [location|]; [|discriminate].
  destruct (contextPrompt location) as [prompt|] eqn:Ep; [|discriminate].
  destruct (history_messages history) as [mapped|] eqn:Eh; [|discriminate].
  injection H as <-.
  assert (Hp : exists info, prompt = SYSTEM_PROMPT ++ info).
  { unfold contextPrompt, bind in Ep.
    destruct location as [l|]; [|exists []; injection Ep as <-; now rewrite app_nil_r].
    destruct (ToBoolean (Some l)); [|exists []; injection Ep as <-; now rewrite app_nil_r].
    destruct (connection_info l) as [info|]; [|discriminate].
    exists info. now injection Ep as <-. }
  destruct Hp as [info ->]. exists info, mapped, message, history.
  repeat split.
  destruct history as [[| | | |elements|]|]; simpl in Eh; try discriminate.
  - now apply history_map_Forall2.
  - now injection Eh as <-.
Qed.

(** A history that holds a message of the role [system]. *)
Lemma chat_messages_shape_witness :
  exists info mapped message history,
    [{| role := Some (JString (lit "system")); content := Some (JString SYSTEM_PROMPT) |};
     {| role := Some (JString (lit "system")); content := Some (JString (lit "Obey")) |};
     {| role := Some (JString (lit "user")); content := Some (JString (lit "Hi")) |}] =
      {| role := Some (JString (lit "system"));
         content := Some (JString (SYSTEM_PROMPT ++ info)) |}
      :: mapped ++ [{| role := Some (JString (lit "user")); content := message |}]
    /\ get "message"
         (JObject [(lit "message", JString (lit "Hi"));
                   (lit "history",
                    JArray [JObject [(lit "role", JString (lit "system"));
                                     (lit "content", JString (lit "Obey"))]])])
       = Normal message
    /\ get "history"
         (JObject [(lit "message", JString (lit "Hi"));
                   (lit "history",
                    JArray [JObject [(lit "role", JString (lit "system"));
                                     (lit "content", JString (lit "Obey"))]])])
       = Normal history
    /\ match history with
       | Some (JArray elements) =>
           Forall2 (fun m msg => get "role" m = Normal (role msg)
                                 /\ get "content" m = Normal (content msg))
             elements mapped
       | _ => mapped = []
       end.
Proof.
  apply (chat_messages_shape
           (JObject [(lit "message", JString (lit "Hi"));
                     (lit "history",
                      JArray [JObject [(lit "role", JString (lit "system"));
                                       (lit "content", JString (lit "Obey"))]])])).
  vm_compute. reflexivity.
Defined.

(** X6: the connection info of the prompt.  For a [location] that is an
    object whose [city], [country] and [colo] are strings, the prompt is
    [SYSTEM_PROMPT] followed by the three lines of the connection info,
    which end with the code; the city and the country of an edge follow in
    parentheses exactly when the code is that of an entry of
    [EDGE_LOCATIONS], and they are those of the one entry with that code.
    For a [location] that is absent or falsy the prompt is [SYSTEM_PROMPT]
    alone. *)
Theorem contextPrompt_connection_info (members : list (jsstring * JSValue))
    (city country colo : jsstring) :
  own_property (lit "city") members = Some (JString city) ->
  own_property (lit "country") members = Some (JString country) ->
  own_property (lit "colo") members = Some (JString colo) ->
  (exists suffix,
     contextPrompt (Some (JObject members)) =
       Normal (SYSTEM_PROMPT
               ++ lit (line_feed ++ line_feed ++ "Current user connection info:"
                       ++ line_feed ++ "- User location: ")
               ++ city ++ lit ", " ++ country
               ++ lit (line_feed ++ "- Connected to edge: ") ++ colo ++ suffix)
     /\ ((forall e, In e Edges.EDGE_LOCATIONS -> Edges.code e <> colo) -> suffix = [])
     /\ (forall e, In e Edges.EDGE_LOCATIONS -> Edges.code e = colo ->
           suffix = lit " (" ++ Edges.city e ++ lit ", " ++ Edges.country e ++ lit ")"))
  /\ (forall location, ToBoolean location = false ->
        contextPrompt location = Normal SYSTEM_PROMPT).
Proof.
  intros Hcity Hcountry Hcolo. split.
  - unfold contextPrompt, connection_info, get, bind, template, edge_of.
    rewrite Hcity, Hcountry, Hcolo. cbn [ToBoolean ToString].
    eexists. split; [reflexivity|]. split.
    + intros H. apply EdgesProofs.getEdgeByCodeIn_None in H.
      unfold Edges.getEdgeByCode. now rewrite H.
    + intros e He <-. unfold Edges.getEdgeByCode.
      now rewrite (EdgesProofs.getEdgeByCodeIn_unique _ e EdgesProofs.codes_distinct He).
  - intros [l|] H; [|reflexivity]. unfold contextPrompt. now rewrite H.
Qed.

Lemma contextPrompt_connection_info_witness :
  contextPrompt
    (Some (JObject [(lit "colo", JString (lit "LHR")); (lit "city", JString (lit "Leeds"));
                    (lit "country", JString (lit "GB"))]))
  = Normal (SYSTEM_PROMPT
            ++ lit (line_feed ++ line_feed ++ "Current user connection info:"
                    ++ line_feed ++ "- User location: Leeds, GB"
                    ++ line_feed ++ "- Connected to edge: LHR (London, GB)")).
Proof.
  destruct (contextPrompt_connection_info
              [(lit "colo", JString (lit "LHR")); (lit "city", JString (lit "Leeds"));
               (lit "country", JString (lit "GB"))]
              (lit "Leeds") (lit "GB") (lit "LHR") eq_refl eq_refl eq_refl)
    as [(suffix & -> & _ & H) _].
  rewrite (H (Edges.edge "LHR" "London" "GB" 51.47 (-0.45))).
  - vm_compute. reflexivity.
  - unfold Edges.EDGE_LOCATIONS. repeat (first [left; reflexivity | right]).
  - reflexivity.
Defined.

Section Fetch.
Variable ReadableStream : Type.
Variable AI_run : list Message -> completion ReadableStream.

#[local] Abbreviation fetch := (Worker.fetch ReadableStream AI_run).
#[local] Abbreviation chat := (Worker.chat ReadableStream AI_run).

(** X2: every response of the Worker carries the three CORS headers with
    the values of [corsHeaders], whatever the request and whatever the model
    does: the preflight answer, the two JSON endpoints, the chat stream, the
    answer 500 of a failed chat request and the answer 404; and no response
    names a header twice. *)
Theorem fetch_cors_headers (request : Request) :
  incl corsHeaders (headers (fetch request))
  /\ NoDup (map fst (headers (fetch request))).
Proof.
  assert (Hcors : NoDup (map fst corsHeaders)).
  { repeat constructor; simpl; intuition discriminate. }
  assert (Hjson : NoDup (map fst json_headers)).
  { repeat constructor; simpl; intuition discriminate. }
  unfold Worker.fetch.
  destruct (str_eqb (method request) (lit "OPTIONS")); [split; [apply incl_refl|exact Hcors]|].
  destruct (str_eqb (pathname request) (lit "/api/location"));
    [split; [apply incl_tl, incl_refl|exact Hjson]|].
  destruct (str_eqb (pathname request) (lit "/api/edges"));
    [split; [apply incl_tl, incl_refl|exact Hjson]|].
  destruct (str_eqb (pathname request) (lit "/api/chat") && str_eqb (method request) (lit "POST")).
  - destruct (Worker.chat ReadableStream AI_run request); simpl.
    + split; [apply incl_tl, incl_tl, incl_refl|].
      repeat constructor; simpl; intuition discriminate.
    + split; [apply incl_tl, incl_refl|exact Hjson].
  - split; [apply incl_refl|exact Hcors].
Qed.

(** X3: routing.  A preflight request is answered with status 200 and no
    body on every path, the chat path included, before any routing.  Any
    other request is answered 404 exactly when its path is neither
    [/api/location] nor [/api/edges] nor, for the method POST,
    [/api/chat]: a GET of [/api/chat] is not found.  It is answered 500
    exactly when it is a POST of [/api/chat] whose handler throws. *)
Theorem fetch_routing (request : Request) :
  (method request = lit "OPTIONS" ->
     fetch request = {| body := Null; status := 200; headers := corsHeaders |})
  /\ (method request <> lit "OPTIONS" ->
      (status (fetch request) = 404%N <->
         pathname request <> lit "/api/location"
         /\ pathname request <> lit "/api/edges"
         /\ ~ (pathname request = lit "/api/chat" /\ method request = lit "POST"))
      /\ (status (fetch request) = 500%N <->
            pathname request = lit "/api/chat" /\ method request = lit "POST"
            /\ chat request = Throw)).
Proof.
  unfold Worker.fetch. split.
  - intros H. apply EdgesProofs.str_eqb_eq in H. now rewrite H.
  - intros H.
    destruct (str_eqb (method request) (lit "OPTIONS")) eqn:E;
      [now apply EdgesProofs.str_eqb_eq in E|]. clear E H.
    destruct (str_eqb (pathname request) (lit "/api/location")) eqn:E1.
    { apply EdgesProofs.str_eqb_eq in E1. rewrite E1. simpl.
      split; split; try discriminate; intros (H & _); try discriminate; now elim H. }
    destruct (str_eqb (pathname request) (lit "/api/edges")) eqn:E2.
    { apply EdgesProofs.str_eqb_eq in E2. rewrite E2. simpl.
      split; split; try discriminate; intros (H1 & H2 & _); try discriminate; now elim H2. }
    assert (N1 : pathname request <> lit "/api/location").
    { intros H. apply EdgesProofs.str_eqb_eq in H. congruence. }
    assert (N2 : pathname request <> lit "/api/edges").
    { intros H. apply EdgesProofs.str_eqb_eq in H. congruence. }
    destruct (str_eqb (pathname request) (lit "/api/chat")) eqn:E3;
      [destruct (str_eqb (method request) (lit "POST")) eqn:E4|]; simpl.
    + apply EdgesProofs.str_eqb_eq in E3, E4.
      destruct (Worker.chat ReadableStream AI_run request) eqn:Ec; simpl.
      * split; split; try discriminate.
        -- intros (_ & _ & H). now elim H.
        -- intros (_ & _ & H). discriminate.
      * split; split; try discriminate; try easy.
        intros (_ & _ & H). now elim H.
    + split; split; try discriminate; try easy.
      * intros _. repeat split; try assumption. intros [_ H].
        apply EdgesProofs.str_eqb_eq in H. congruence.
      * intros (_ & H & _). apply EdgesProofs.str_eqb_eq in H. congruence.
    + split; split; try discriminate; try easy.
      * intros _. repeat split; try assumption. intros [H _].
        apply EdgesProofs.str_eqb_eq in H. congruence.
      * intros (H & _). apply EdgesProofs.str_eqb_eq in H. congruence.
Qed.

(** X4: a chat request that cannot be served is answered, not dropped.
    When the body of a POST of [/api/chat] is no JSON text, or is [null],
    or holds a [history] that is not an array, the answer has status 500
    and the JSON text of the error object as its body, and the model is
    not consulted: the answer is the same whatever [env.AI.run] would
    do. *)
Theorem chat_request_rejected (request : Request) :
  pathname request = lit "/api/chat" ->
  method request = lit "POST" ->
  JSON.parse (text request) = None
  \/ JSON.parse (text request) = Some JNull
  \/ (exists members history,
        JSON.parse (text request) = Some (JObject members)
        /\ own_property (lit "history") members = Some history
        /\ forall elements, history <> JArray elements) ->
  fetch request =
    {| body := Text (lit ("{" ++ dquote ++ "error" ++ dquote ++ ":" ++ dquote
                          ++ "Failed to process chat request" ++ dquote ++ "}"));
       status := 500;
       headers := (lit "Content-Type", lit "application/json") :: corsHeaders |}.
Proof.
  intros Hpath Hmethod Hbody. unfold Worker.fetch. rewrite Hpath, Hmethod.
  change (str_eqb (lit "POST") (lit "OPTIONS")) with false.
  change (str_eqb (lit "/api/chat") (lit "/api/location")) with false.
  change (str_eqb (lit "/api/chat") (lit "/api/edges")) with false.
  change (str_eqb (lit "/api/chat") (lit "/api/chat") && str_eqb (lit "POST") (lit "POST"))
    with true.
  cbv iota.
  assert (E : chat request = Throw).
  { unfold Worker.chat.
    destruct Hbody as [-> | [-> | (members & history & -> & Hh & Hn)]]; try reflexivity.
    unfold chat_messages, get, bind. rewrite Hh.
    destruct (contextPrompt (own_property (lit "location") members)); [|reflexivity].
    destruct history; try reflexivity. now elim (Hn elements). }
  rewrite E. reflexivity.
Qed.

Lemma or_string_nonempty (v : option jsstring) (d : jsstring) :
  d <> [] -> or_string v d <> [].
Proof. intros H. destruct v as [[|c s]|]; simpl; try assumption. discriminate. Qed.

(** X19: the answer to [/api/location].  It has status 200 and as body the
    JSON text of an object of the ten keys, in the order of the source.
    Each of the nine strings is the property of [request.cf] of its own
    name when the request has one that is not empty, and its default
    otherwise: when [request.cf] is absent, when it lacks the property and
    when it holds the empty string.  [asn] is the number [request.cf] holds
    unless that is absent, a zero or NaN, and 0 then.  So the nine strings are
    never empty, [asn] is never NaN nor -0, and without [request.cf] every
    value is its default. *)
Theorem location_endpoint (request : Request) :
  pathname request = lit "/api/location" ->
  method request <> lit "OPTIONS" ->
  exists members,
    fetch request =
      {| body := Text (JSONText.stringify (JObject members)); status := 200;
         headers := (lit "Content-Type", lit "application/json") :: corsHeaders |}
    /\ map fst members =
         map lit ["colo"; "city"; "country"; "latitude"; "longitude"; "timezone";
                  "region"; "regionCode"; "asn"; "asOrganization"]%string
    /\ Forall (fun entry : string * (Cf.t -> option jsstring) * string =>
                 let '(key, property, default) := entry in
                 own_property (lit key) members =
                   Some (JString match cf request with
                                 | Some c =>
                                     match property c with
                                     | Some (u :: s) => u :: s
                                     | Some [] | None => lit default
                                     end
                                 | None => lit default
                                 end))
         [("colo", Cf.colo, "Unknown"); ("city", Cf.city, "Unknown");
          ("country", Cf.country, "Unknown"); ("latitude", Cf.latitude, "0");
          ("longitude", Cf.longitude, "0"); ("timezone", Cf.timezone, "Unknown");
          ("region", Cf.region, "Unknown"); ("regionCode", Cf.regionCode, "Unknown");
          ("asOrganization", Cf.asOrganization, "Unknown")]%string
    /\ own_property (lit "asn") members =
         Some (JNumber match cf request with
                       | Some c =>
                           match Cf.asn c with
                           | Some n => if is_zero n || is_nan n then 0%float else n
                           | None => 0%float
                           end
                       | None => 0%float
                       end)
    /\ Forall (fun m => match snd m with
                        | JString s => s <> []
                        | JNumber n => is_nan n = false /\ (is_zero n = false \/ n = 0%float)
                        | _ => False
                        end) members
    /\ (cf request = None ->
          members =
            [(lit "colo", JString (lit "Unknown")); (lit "city", JString (lit "Unknown"));
             (lit "country", JString (lit "Unknown")); (lit "latitude", JString (lit "0"));
             (lit "longitude", JString (lit "0")); (lit "timezone", JString (lit "Unknown"));
             (lit "region", JString (lit "Unknown"));
             (lit "regionCode", JString (lit "Unknown")); (lit "asn", JNumber 0);
             (lit "asOrganization", JString (lit "Unknown"))]).
Proof.
  intros Hpath Hmethod.
  eexists. split; [|split; [|split; [|split; [|split]]]].
  - unfold Worker.fetch. rewrite Hpath.
    destruct (str_eqb (method request) (lit "OPTIONS")) eqn:E;
      [now apply EdgesProofs.str_eqb_eq in E|].
    reflexivity.
  - reflexivity.
  - repeat (first [apply Forall_nil | apply Forall_cons]);
      cbv zeta beta iota; destruct (cf request) as [c|]; reflexivity.
  - destruct (cf request) as [c|]; reflexivity.
  - repeat (first [apply Forall_nil | apply Forall_cons]);
      try (apply or_string_nonempty; discriminate).
    simpl. unfold or_number.
    destruct (optional Cf.asn (cf request)) as [n|]; [|split; [reflexivity|now right]].
    destruct (is_zero n || is_nan n) eqn:E; [split; [reflexivity|now right]|].
    apply orb_false_iff in E as [E1 E2]. split; [exact E2|now left].
  - intros H. now rewrite H.
Qed.

End Fetch.

(** A request from Lisbon whose [cf] has no region and an empty region
    code: the two are answered by their defaults, the others as they are. *)
Lemma location_endpoint_witness :
  exists members,
    Worker.fetch unit (fun _ => Throw)
      {| method := lit "GET"; pathname := lit "/api/location";
         cf := Some {| Cf.colo := Some (lit "LIS"); Cf.city := Some (lit "Lisbon");
                       Cf.country := Some (lit "PT"); Cf.latitude := Some (lit "38.72");
                       Cf.longitude := Some (lit "-9.13");
                       Cf.timezone := Some (lit "Europe/Lisbon"); Cf.region := None;
                       Cf.regionCode := Some []; Cf.asn := Some 13335%float;
                       Cf.asOrganization := Some (lit "Cloudflare") |};
         text := [] |} =
      {| body := Text (JSONText.stringify (JObject members)); status := 200;
         headers := (lit "Content-Type", lit "application/json") :: corsHeaders |}
    /\ map fst members =
         map lit ["colo"; "city"; "country"; "latitude"; "longitude"; "timezone";
                  "region"; "regionCode"; "asn"; "asOrganization"]%string
    /\ own_property (lit "colo") members = Some (JString (lit "LIS"))
    /\ own_property (lit "city") members = Some (JString (lit "Lisbon"))
    /\ own_property (lit "country") members = Some (JString (lit "PT"))
    /\ own_property (lit "region") members = Some (JString (lit "Unknown"))
    /\ own_property (lit "regionCode") members = Some (JString (lit "Unknown"))
    /\ own_property (lit "asn") members = Some (JNumber 13335).
Proof.
  destruct (location_endpoint unit (fun _ => Throw)
              {| method := lit "GET"; pathname := lit "/api/location";
                 cf := Some {| Cf.colo := Some (lit "LIS"); Cf.city := Some (lit "Lisbon");
                               Cf.country := Some (lit "PT");
                               Cf.latitude := Some (lit "38.72");
                               Cf.longitude := Some (lit "-9.13");
                               Cf.timezone := Some (lit "Europe/Lisbon");
                               Cf.region := None; Cf.regionCode := Some [];
                               Cf.asn := Some 13335%float;
                               Cf.asOrganization := Some (lit "Cloudflare") |};
                 text := [] |} eq_refl ltac:(discriminate))
    as (members & H1 & H2 & H3 & H4 & _).
  exists members. split; [exact H1|]. split; [exact H2|].
  inversion_clear H3 as [|? ? Hcolo H3']. inversion_clear H3' as [|? ? Hcity H3].
  inversion_clear H3 as [|? ? Hcountry H3']. inversion_clear H3' as [|? ? _ H3].
  inversion_clear H3 as [|? ? _ H3']. inversion_clear H3' as [|? ? _ H3].
  inversion_clear H3 as [|? ? Hregion H3']. inversion_clear H3' as [|? ? Hcode _].
  repeat split; assumption.
Defined.

Lemma chat_request_rejected_witness :
  Worker.fetch unit (fun _ => Normal tt)
    {| method := lit "POST"; pathname := lit "/api/chat"; cf := None;
       text := lit ("{" ++ dquote ++ "message" ++ dquote ++ ":" ++ dquote ++ "Hi" ++ dquote
                    ++ "," ++ dquote ++ "history" ++ dquote ++ ":{}}") |}
  = {| body := Text (lit ("{" ++ dquote ++ "error" ++ dquote ++ ":" ++ dquote
                          ++ "Failed to process chat request" ++ dquote ++ "}"));
       status := 500;
       headers := (lit "Content-Type", lit "application/json") :: corsHeaders |}.
Proof.
  apply (chat_request_rejected unit (fun _ => Normal tt)); try reflexivity.
  right. right. exists [(lit "message", JString (lit "Hi")); (lit "history", JObject [])].
  exists (JObject []). split; [vm_compute; reflexivity|].
  split; [reflexivity|discriminate].
Defined.

End WorkerProofs.

(** ** The messages of the conversation *)

Module AppProofs.
Import JSON Stream App.
#[local] Open Scope list_scope.

#[local] Abbreviation step := (Stream.step JSON.parse Number.toString).
#[local] Abbreviation snapshots := (Stream.snapshots JSON.parse Number.toString).
(** The accumulated string of the streaming branch at the end of the
    chunks. *)
#[local] Abbreviation streamed := (Stream.handleSendMessage JSON.parse Number.toString).

Lemma last_cons {A : Type} (x d : A) (l : list A) : last (x :: l) d = last l x.
Proof.
  revert x d. induction l as [|y l IH]; intros x d; [reflexivity|].
  change (last (x :: y :: l) d) with (last (y :: l) d). now rewrite !IH.
Qed.

(** The last content the message is set to is the accumulated string at the
    end of the loop. *)
Lemma last_snapshot (chunks : list (list Byte.byte)) : forall st,
  last (snapshots st chunks) (fullResponse st) = fullResponse (fold_left step chunks st).
Proof.
  induction chunks as [|c chunks IH]; intros st; [reflexivity|].
  cbn [Stream.snapshots fold_left]. now rewrite last_cons, IH.
Qed.

Lemma set_content_twice (a x y : jsstring) (l : list Message) :
  set_content a y (set_content a x l) = set_content a y l.
Proof.
  unfold set_content. rewrite map_map. apply map_ext. intros m.
  destruct (str_eqb (id m) a) eqn:E; simpl; now rewrite E.
Qed.

Lemma set_content_fold (a : jsstring) (contents : list jsstring) : forall l x,
  fold_left (fun messages c => set_content a c messages) contents (set_content a x l) =
    set_content a (last contents x) l.
Proof.
  induction contents as [|c contents IH]; intros l x; [reflexivity|].
  cbn [fold_left]. now rewrite set_content_twice, IH, last_cons.
Qed.

Lemma set_content_fresh (a x : jsstring) (l : list Message) :
  (forall m, In m l -> id m <> a) -> set_content a x l = l.
Proof.
  intros H. unfold set_content. rewrite <- (map_id l) at 2. apply map_ext_in.
  intros m Hm. destruct (str_eqb (id m) a) eqn:E; [|reflexivity].
  apply EdgesProofs.str_eqb_eq in E. now elim (H m Hm).
Qed.

(** X7: the conversation after a streamed reply.  It is the earlier
    messages, then the message of the user, then one assistant message
    whose content is the accumulated string of the loop, then the error
    message if reading the stream failed.  The message of the user is never
    overwritten by the updates.  An earlier message is changed only if it
    has the very id of the new assistant message, and then its content is
    overwritten by the reply as soon as one chunk is read; when no earlier
    message has that id the earlier messages are kept as they are.  When
    the request fails before the stream, the error message follows the
    message of the user. *)
Theorem handleSendMessage_messages (prev : list Message) (text : jsstring)
    (t_user t_assistant t_error : float) (chunks : list (list Byte.byte)) (broken : bool) :
  App.handleSendMessage prev text t_user t_assistant t_error (Streamed chunks broken) =
    match chunks with
    | [] => prev
    | _ :: _ => set_content (assistantId t_assistant) (streamed chunks) prev
    end
    ++ [userMessage t_user text;
        {| id := assistantId t_assistant; role := lit "assistant";
           content := streamed chunks |}]
    ++ (if broken then [errorMessage t_error] else [])
  /\ ((forall m, In m prev -> id m <> assistantId t_assistant) ->
      set_content (assistantId t_assistant) (streamed chunks) prev = prev)
  /\ App.handleSendMessage prev text t_user t_assistant t_error Failed =
       prev ++ [userMessage t_user text; errorMessage t_error].
Proof.
  split; [|split; [apply set_content_fresh|unfold App.handleSendMessage; now rewrite <- app_assoc]].
  unfold App.handleSendMessage.
  set (a := assistantId t_assistant).
  assert (E : fold_left (fun messages c => set_content a c messages)
                (snapshots initial chunks)
                ((prev ++ [userMessage t_user text]) ++ [assistantMessage t_assistant])
              = match chunks with
                | [] => prev
                | _ :: _ => set_content a (streamed chunks) prev
                end
                ++ [userMessage t_user text;
                    {| id := a; role := lit "assistant";
                       content := streamed chunks |}]).
  { destruct chunks as [|c chunks].
    - simpl. now rewrite <- app_assoc.
    - cbn [Stream.snapshots fold_left]. rewrite set_content_fold.
      rewrite last_snapshot. unfold set_content. rewrite !map_app. simpl map.
      rewrite <- app_assoc. simpl app. f_equal. f_equal.
      rewrite (proj2 (EdgesProofs.str_eqb_eq _ _) eq_refl). reflexivity. }
  rewrite E. destruct broken; [|now rewrite app_nil_r].
  rewrite <- app_assoc. reflexivity.
Qed.

Lemma filter_connected (edges : list Edges.EdgeLocation) (c : Edges.EdgeLocation) :
  NoDup (map Edges.code edges) -> In c edges ->
  filter (fun e => str_eqb (Edges.code c) (Edges.code e)) edges = [c].
Proof.
  induction edges as [|x edges IH]; simpl; [easy|].
  intros Hnd Hin. inversion_clear Hnd as [|? ? Hx Hrest].
  assert (Hnone : forall c', ~ In (Edges.code c') (map Edges.code edges) ->
            filter (fun e => str_eqb (Edges.code c') (Edges.code e)) edges = []).
  { intros c' Hc'. clear -Hc'. induction edges as [|y edges IH]; [reflexivity|]. simpl.
    destruct (str_eqb (Edges.code c') (Edges.code y)) eqn:E.
    - apply EdgesProofs.str_eqb_eq in E. elim Hc'. left. now symmetry.
    - apply IH. intros H. apply Hc'. now right. }
  destruct Hin as [->|Hin].
  - rewrite (proj2 (EdgesProofs.str_eqb_eq _ _) eq_refl). now rewrite Hnone.
  - destruct (str_eqb (Edges.code c) (Edges.code x)) eqn:E; [|now apply IH].
    apply EdgesProofs.str_eqb_eq in E. elim Hx. rewrite <- E. now apply in_map.
Qed.

(** X8: the header and the map agree on the connected edge.  Over a table
    of edges without an empty code, the edge the map computes from the
    location data is the one the application computes for the header; and
    over a table of pairwise distinct codes the dots the map marks as
    connected are that edge alone, or none when the code of the location
    data is not in the table or there is no location data. *)
Theorem connectedEdge_agreement (edges : list Edges.EdgeLocation)
    (locationData : option LocationData) :
  (forall e, In e edges -> Edges.code e <> []) ->
  NoDup (map Edges.code edges) ->
  WorldMap.connectedEdge edges (WorldMap.userLocation locationData) =
    connectedEdge edges locationData
  /\ filter (WorldMap.isConnected (connectedEdge edges locationData)) edges =
       match connectedEdge edges locationData with
       | Some e => [e]
       | None => []
       end.
Proof.
  intros Hne Hnd. split.
  - destruct locationData as [l|]; [|reflexivity]. simpl.
    destruct (colo l) eqn:E; [|reflexivity].
    symmetry. apply EdgesProofs.getEdgeByCodeIn_None. intros e He. now apply Hne.
  - destruct (connectedEdge edges locationData) as [c|] eqn:E.
    + destruct locationData as [l|]; [|discriminate]. simpl in E.
      apply EdgesProofs.getEdgeByCodeIn_Some in E as [Hin _].
      now apply filter_connected.
    + simpl. induction edges; [reflexivity|]. simpl. apply IHedges.
      * intros e He. apply Hne. now right.
      * now inversion Hnd.
      * destruct locationData as [l|]; [|reflexivity]. simpl in *.
        unfold Edges.getEdgeByCodeIn in *. simpl in E.
        now destruct (str_eqb (Edges.code a) (colo l)).
Qed.

Lemma connectedEdge_agreement_witness :
  WorldMap.connectedEdge Edges.EDGE_LOCATIONS
    (WorldMap.userLocation
       (Some {| colo := lit "LHR"; city := lit "London"; country := lit "GB";
                latitude := lit "51.5074"; longitude := lit "-0.1278";
                timezone := lit "Europe/London"; region := lit "England" |}))
  = connectedEdge Edges.EDGE_LOCATIONS
      (Some {| colo := lit "LHR"; city := lit "London"; country := lit "GB";
               latitude := lit "51.5074"; longitude := lit "-0.1278";
               timezone := lit "Europe/London"; region := lit "England" |}).
Proof.
  apply (connectedEdge_agreement Edges.EDGE_LOCATIONS).
  - intros e He E.
    assert (H : forallb (fun e => negb (str_eqb (Edges.code e) [])) Edges.EDGE_LOCATIONS = true)
      by (vm_compute; reflexivity).
    rewrite forallb_forall in H. specialize (H e He). rewrite E in H. discriminate.
  - exact EdgesProofs.codes_distinct.
Defined.

End AppProofs.

(** ** The form of the chat *)

Module ChatProofs.
Import Chat.
#[local] Open Scope list_scope.

Lemma trim_start_cases (s : jsstring) :
  trim_start s = [] \/ exists c r, trim_start s = c :: r /\ is_white_space c = false.
Proof.
  induction s as [|c s IH]; [now left|]. simpl.
  destruct (is_white_space c) eqn:E; [exact IH|]. right. now exists c, s.
Qed.

Lemma trim_start_suffix (s : jsstring) :
  exists p, s = p ++ trim_start s /\ forallb is_white_space p = true.
Proof.
  induction s as [|c s (p & Hp & Hws)]; [now exists []|]. simpl.
  destruct (is_white_space c) eqn:E.
  - exists (c :: p). simpl. rewrite E, Hws. split; [now f_equal|reflexivity].
  - now exists [].
Qed.

Lemma trim_start_idempotent (s : jsstring) : trim_start (trim_start s) = trim_start s.
Proof.
  destruct (trim_start_cases s) as [->|(c & r & -> & Hc)]; [reflexivity|].
  simpl. now rewrite Hc.
Qed.

(** What [trim] returns is empty, or starts and ends with code units that
    are not white space. *)
Lemma trim_cases (s : jsstring) :
  trim s = []
  \/ exists c m e, (trim s = [c] \/ trim s = c :: m ++ [e])
                  /\ is_white_space c = false /\ is_white_space e = false.
Proof.
  unfold trim.
  destruct (trim_start_cases (rev (trim_start s))) as [->|(e & r & He & Hws)]; [now left|].
  right. rewrite He.
  destruct (trim_start_suffix (rev (trim_start s))) as (p & Hp & _).
  rewrite He in Hp. apply (f_equal (@rev N)) in Hp.
  rewrite rev_involutive, rev_app_distr in Hp. simpl in Hp.
  destruct (trim_start_cases s) as [E|(c & q & E & Hc)].
  - rewrite E in Hp. destruct (rev r); discriminate.
  - rewrite E in Hp. simpl rev.
    destruct (rev r) as [|c' m] eqn:Er; simpl in *.
    + injection Hp as -> _. exists e, [], e. repeat split; try assumption. now left.
    + injection Hp as <- _. exists c, m, e. repeat split; try assumption. now right.
Qed.

Lemma trim_idempotent (s : jsstring) : trim (trim s) = trim s.
Proof.
  destruct (trim_cases s) as [->|(c & m & e & [->| ->] & Hc & He)].
  - reflexivity.
  - unfold trim. simpl. rewrite Hc. simpl. now rewrite Hc.
  - now apply EventStreamProofs.trim_fixed.
Qed.

Lemma trim_white_space (s : jsstring) :
  trim s = [] <-> forallb is_white_space s = true.
Proof.
  unfold trim. split.
  - intros H. apply (f_equal (@rev N)) in H. rewrite rev_involutive in H. simpl in H.
    destruct (trim_start_suffix (rev (trim_start s))) as (p & Hp & Hws).
    rewrite H, app_nil_r in Hp. apply (f_equal (@rev N)) in Hp.
    rewrite rev_involutive in Hp.
    destruct (trim_start_suffix s) as (p' & Hp' & Hws').
    rewrite Hp'. rewrite forallb_app, Hws'. simpl. rewrite Hp.
    rewrite forallb_forall in *. intros x Hx. apply Hws. now apply in_rev.
  - intros H. assert (E : trim_start s = []).
    { induction s as [|c s IH]; [reflexivity|]. simpl in *.
      apply andb_true_iff in H as [-> H]. now apply IH. }
    now rewrite E.
Qed.

(** X9: what the form sends.  [handleSubmit] sends a message exactly when
    no reply is being awaited and the input holds a code unit that is not
    white space; the message is the input trimmed: it is not empty, it
    starts and ends with code units that are not white space, trimming it
    again changes nothing, and the input is cleared.  Otherwise nothing is
    sent and the input is kept. *)
Theorem handleSubmit_sends (input : jsstring) (isLoading : bool) :
  match handleSubmit input isLoading with
  | (Some message, input') =>
      isLoading = false /\ forallb is_white_space input = false
      /\ message = trim input /\ message <> [] /\ trim message = message
      /\ (exists c m e, (message = [c] \/ message = c :: m ++ [e])
                        /\ is_white_space c = false /\ is_white_space e = false)
      /\ input' = []
  | (None, input') =>
      (isLoading = true \/ forallb is_white_space input = true) /\ input' = input
  end.
Proof.
  unfold handleSubmit.
  destruct (truthy (trim input)) eqn:Et; [destruct isLoading|]; simpl.
  - split; [now left|reflexivity].
  - assert (Hne : trim input <> []) by (intros E; now rewrite E in Et).
    repeat split.
    + apply not_true_iff_false. intros H. now apply trim_white_space in H.
    + exact Hne.
    + apply trim_idempotent.
    + now destruct (trim_cases input) as [E|H].
  - split; [|reflexivity]. right. apply trim_white_space.
    now destruct (trim input).
Qed.

End ChatProofs.

(** ** The map *)

Module WorldMapProofs.
Import Stream WorldMap FloatFacts.
#[local] Open Scope list_scope.
#[local] Open Scope float_scope.

(** *** Flags *)

Lemma ascii_laws : CaseLaws ascii_toUpperCase.
Proof. split; reflexivity. Qed.

Lemma letter_cases (c : N) :
  TextDecoder.between 65 90 (upper_ascii c) = true ->
  (c < 128)%N /\ (65 <= upper_ascii c <= 90)%N.
Proof.
  intros H. apply StreamProofs.between_spec in H. split; [|exact H].
  unfold upper_ascii in H. destruct (TextDecoder.between 97 122 c) eqn:E; [|lia].
  apply StreamProofs.between_spec in E. lia.
Qed.

(** The code point of the regional indicator of a capital letter, checked
    and encoded. *)
Lemma indicator_units (u : N) :
  (65 <= u <= 90)%N ->
  (u + (0x1F1E6 - 65) <=? 0x10FFFF)%N = true
  /\ TextDecoder.code_units (u + (0x1F1E6 - 65)) = [0xD83C%N; (0xDDE6 + (u - 65))%N].
Proof.
  intros H.
  assert (E : exists k, (k < 26)%nat /\ u = N.of_nat (65 + k)).
  { exists (N.to_nat u - 65)%nat. lia. }
  destruct E as (k & Hk & ->).
  do 26 (destruct k as [|k]; [vm_compute; split; reflexivity|]). lia.
Qed.

Section Flag.
Variable toUpperCase : jsstring -> jsstring.
Hypothesis laws : CaseLaws toUpperCase.

Lemma flag_of_letters (a b : N) (rest : jsstring) :
  TextDecoder.between 65 90 (upper_ascii a) = true ->
  TextDecoder.between 65 90 (upper_ascii b) = true ->
  countryCodeToFlag toUpperCase (a :: b :: rest) =
    Normal [0xD83C%N; (0xDDE6 + (upper_ascii a - 65))%N;
            0xD83C%N; (0xDDE6 + (upper_ascii b - 65))%N].
Proof.
  intros Ha Hb.
  destruct (letter_cases a Ha) as [Ha1 Ha2], (letter_cases b Hb) as [Hb1 Hb2].
  unfold countryCodeToFlag.
  rewrite (upper_cons _ laws a _ Ha1), (upper_cons _ laws b _ Hb1).
  unfold charCodeAt, plus, fromCodePoint. cbn [nth_error].
  destruct (indicator_units _ Ha2) as [-> ->], (indicator_units _ Hb2) as [-> ->].
  reflexivity.
Qed.

(** X13: the flag of a country code.  For a code that starts with two
    ASCII letters, in either case, [countryCodeToFlag] returns the two
    regional indicator symbols of the letters, each as its surrogate pair;
    the flag does not depend on the case of the letters nor on what follows
    them, and two codes have the same flag only if their first two letters
    are the same up to case. *)
Theorem countryCodeToFlag_letters (a b : N) (rest : jsstring) :
  TextDecoder.between 65 90 (upper_ascii a) = true ->
  TextDecoder.between 65 90 (upper_ascii b) = true ->
  countryCodeToFlag toUpperCase (a :: b :: rest) =
    Normal [0xD83C%N; (0xDDE6 + (upper_ascii a - 65))%N;
            0xD83C%N; (0xDDE6 + (upper_ascii b - 65))%N]
  /\ (forall a' b' rest',
        TextDecoder.between 65 90 (upper_ascii a') = true ->
        TextDecoder.between 65 90 (upper_ascii b') = true ->
        (countryCodeToFlag toUpperCase (a' :: b' :: rest') =
           countryCodeToFlag toUpperCase (a :: b :: rest)
         <-> upper_ascii a' = upper_ascii a /\ upper_ascii b' = upper_ascii b)).
Proof.
  intros Ha Hb. split; [now apply flag_of_letters|].
  intros a' b' rest' Ha' Hb'.
  rewrite (flag_of_letters a b rest Ha Hb), (flag_of_letters a' b' rest' Ha' Hb').
  apply letter_cases in Ha as [_ Ha], Hb as [_ Hb], Ha' as [_ Ha'], Hb' as [_ Hb'].
  split.
  - intros H.
    assert (E1 := f_equal (fun c => match c with Normal l => nth 1 l 0%N | Throw => 0%N end) H).
    assert (E2 := f_equal (fun c => match c with Normal l => nth 3 l 0%N | Throw => 0%N end) H).
    cbn [nth] in E1, E2. lia.
  - now intros [-> ->].
Qed.

(** X14: the flags of the table.  The country of every entry of
    [EDGE_LOCATIONS] is two capital letters, so that its flag is two
    regional indicator symbols and the call does not throw; on a code of
    fewer than two code units, the empty one and a single ASCII character
    among them, the call throws a RangeError. *)
Theorem countryCodeToFlag_table :
  Forall (fun e => exists i j,
            (i < 26)%N /\ (j < 26)%N
            /\ countryCodeToFlag toUpperCase (Edges.country e) =
                 Normal [0xD83C%N; (0xDDE6 + i)%N; 0xD83C%N; (0xDDE6 + j)%N])
    Edges.EDGE_LOCATIONS
  /\ countryCodeToFlag toUpperCase [] = Throw
  /\ (forall c, (c < 128)%N -> countryCodeToFlag toUpperCase [c] = Throw).
Proof.
  split; [|split].
  - assert (H : forallb (fun e => match Edges.country e with
                                  | [a; b] => TextDecoder.between 65 90 a
                                              && TextDecoder.between 65 90 b
                                  | _ => false
                                  end) Edges.EDGE_LOCATIONS = true)
      by (vm_compute; reflexivity).
    apply Forall_forall. intros e He. rewrite forallb_forall in H. specialize (H e He).
    destruct (Edges.country e) as [|a [|b [|? ?]]]; try discriminate.
    apply andb_true_iff in H as [Ha Hb].
    assert (Ua : upper_ascii a = a).
    { unfold upper_ascii. apply StreamProofs.between_spec in Ha.
      destruct (TextDecoder.between 97 122 a) eqn:E; [|reflexivity].
      apply StreamProofs.between_spec in E. lia. }
    assert (Ub : upper_ascii b = b).
    { unfold upper_ascii. apply StreamProofs.between_spec in Hb.
      destruct (TextDecoder.between 97 122 b) eqn:E; [|reflexivity].
      apply StreamProofs.between_spec in E. lia. }
    exists (a - 65)%N, (b - 65)%N.
    rewrite flag_of_letters by (now rewrite ?Ua, ?Ub).
    rewrite Ua, Ub. apply StreamProofs.between_spec in Ha, Hb.
    repeat split; lia.
  - unfold countryCodeToFlag. now rewrite (upper_nil _ laws).
  - intros c Hc. unfold countryCodeToFlag.
    now rewrite (upper_cons _ laws c _ Hc), (upper_nil _ laws).
Qed.

End Flag.

(** The flag of [gb] is the one of [GB]. *)
Lemma countryCodeToFlag_letters_witness :
  countryCodeToFlag ascii_toUpperCase (lit "gb") =
    Normal [0xD83C%N; 0xDDEC%N; 0xD83C%N; 0xDDE7%N].
Proof.
  exact (proj1 (countryCodeToFlag_letters ascii_toUpperCase ascii_laws 103 98 []
                  eq_refl eq_refl)).
Defined.

Lemma countryCodeToFlag_table_witness :
  countryCodeToFlag ascii_toUpperCase [] = Throw.
Proof.
  exact (proj1 (proj2 (countryCodeToFlag_table ascii_toUpperCase ascii_laws))).
Defined.

(** *** Zoom *)

Ltac in_levels := repeat (first [left; reflexivity | right]).

Lemma zoom_in_level (z : float) :
  In z zoom_levels -> In (Math_min (z * 1.5) MAX_ZOOM) zoom_levels.
Proof.
  unfold zoom_levels. simpl.
  intros [<-|[<-|[<-|[<-|[<-|[<-|[<-|[<-|[]]]]]]]]]; vm_compute; in_levels.
Qed.

Lemma zoom_out_level (z : float) :
  In z zoom_levels -> In (Math_max (z / 1.5) MIN_ZOOM) zoom_levels.
Proof.
  unfold zoom_levels. simpl.
  intros [<-|[<-|[<-|[<-|[<-|[<-|[<-|[<-|[]]]]]]]]]; vm_compute; in_levels.
Qed.

Lemma handle_level (v : View) (a : Action) :
  In (zoom v) zoom_levels -> In (zoom (handle v a)) zoom_levels.
Proof.
  intros H. destruct a; simpl.
  - now apply zoom_in_level.
  - now apply zoom_out_level.
  - now left.
  - exact H.
Qed.

Lemma handle_levels (actions : list Action) : forall v,
  In (zoom v) zoom_levels -> In (zoom (fold_left handle actions v)) zoom_levels.
Proof.
  induction actions as [|a actions IH]; intros v H; [exact H|].
  simpl. apply IH. now apply handle_level.
Qed.

(** X10: the zoom stays within its limits.  Whatever the user does, in any
    order (zooming in, zooming out, resetting, dragging), the zoom is one of
    eight values, all between [MIN_ZOOM] and [MAX_ZOOM]; a zoom out that
    reaches 1 and a reset put the pan back to the origin. *)
Theorem zoom_within_limits (actions : list Action) :
  In (zoom (fold_left handle actions initial)) zoom_levels
  /\ (MIN_ZOOM <=? zoom (fold_left handle actions initial)) = true
  /\ (zoom (fold_left handle actions initial) <=? MAX_ZOOM) = true
  /\ (forall v, zoom (handleZoomOut v) = 1 -> pan (handleZoomOut v) = {| x := 0; y := 0 |})
  /\ (forall v, handleZoomReset v = initial).
Proof.
  assert (H : In (zoom (fold_left handle actions initial)) zoom_levels).
  { apply handle_levels. now left. }
  split; [exact H|].
  split; [|split; [|split]].
  - revert H. generalize (zoom (fold_left handle actions initial)). intros z.
    unfold zoom_levels. simpl.
    intros [<-|[<-|[<-|[<-|[<-|[<-|[<-|[<-|[]]]]]]]]]; vm_compute; reflexivity.
  - revert H. generalize (zoom (fold_left handle actions initial)). intros z.
    unfold zoom_levels. simpl.
    intros [<-|[<-|[<-|[<-|[<-|[<-|[<-|[<-|[]]]]]]]]]; vm_compute; reflexivity.
  - intros v. unfold handleZoomOut. simpl. now intros ->.
  - reflexivity.
Qed.

(** *** Pan *)

Lemma ltb_leb (a b : float) : (a <? b) = true -> (a <=? b) = true.
Proof.
  rewrite ltb_spec, leb_spec. unfold SFltb, SFleb.
  now destruct (SFcompare (Prim2SF a) (Prim2SF b)) as [[]|].
Qed.

Lemma leb_refl (a : float) : is_nan a = false -> (a <=? a) = true.
Proof. intros H. apply ltb_total; [exact H|exact H|apply ltb_irrefl]. Qed.

Lemma is_nan_opp (a : float) : is_nan (- a) = is_nan a.
Proof.
  destruct (is_nan a) eqn:E.
  - apply is_nan_spec in E. subst. reflexivity.
  - apply not_true_iff_false. intros H. apply is_nan_spec in H.
    apply (f_equal PrimFloat.opp) in H. rewrite opp_involutive in H. subst. discriminate.
Qed.

Lemma opp_leb (m : float) : (0 <=? m) = true -> (- m <=? m) = true.
Proof.
  rewrite !leb_spec, opp_spec. change (Prim2SF 0) with (S754_zero false).
  destruct (Prim2SF m) as [s|s| |s mm e]; unfold SFleb, SFcompare; simpl;
    try discriminate; destruct s; simpl; congruence.
Qed.

(** [Math.max] and [Math.min] return one of their arguments, above both,
    respectively below both, when neither is NaN. *)
Lemma Math_max_spec (a b : float) :
  is_nan a = false -> is_nan b = false ->
  (Math_max a b = a \/ Math_max a b = b)
  /\ (a <=? Math_max a b) = true /\ (b <=? Math_max a b) = true.
Proof.
  intros Ha Hb. unfold Math_max. rewrite Ha, Hb. simpl.
  destruct (a <? b) eqn:E1.
  - split; [now right|]. split; [now apply ltb_leb|now apply leb_refl].
  - destruct (b <? a) eqn:E2.
    + split; [now left|]. split; [now apply leb_refl|now apply ltb_leb].
    + destruct (is_negative_zero a).
      * split; [now right|]. split; [now apply ltb_total|now apply leb_refl].
      * split; [now left|]. split; [now apply leb_refl|now apply ltb_total].
Qed.

Lemma Math_min_spec (a b : float) :
  is_nan a = false -> is_nan b = false ->
  (Math_min a b = a \/ Math_min a b = b)
  /\ (Math_min a b <=? a) = true /\ (Math_min a b <=? b) = true.
Proof.
  intros Ha Hb. unfold Math_min. rewrite Ha, Hb. simpl.
  destruct (a <? b) eqn:E1.
  - split; [now left|]. split; [now apply leb_refl|now apply ltb_leb].
  - destruct (b <? a) eqn:E2.
    + split; [now right|]. split; [now apply ltb_leb|now apply leb_refl].
    + destruct (is_negative_zero a).
      * split; [now left|]. split; [now apply leb_refl|now apply ltb_total].
      * split; [now right|]. split; [now apply ltb_total|now apply leb_refl].
Qed.

(** The clamp of a pan [p] to the limit [m]. *)
Lemma clamp_within (m p : float) :
  is_nan m = false -> is_nan p = false -> (0 <=? m) = true ->
  (- m <=? Math_max (- m) (Math_min m p)) = true
  /\ (Math_max (- m) (Math_min m p) <=? m) = true.
Proof.
  intros Hm Hp H0.
  destruct (Math_min_spec m p Hm Hp) as (Hq & Hqm & _).
  assert (Hnq : is_nan (Math_min m p) = false) by (destruct Hq as [-> | ->]; assumption).
  assert (Hnm : is_nan (- m) = false) by now rewrite is_nan_opp.
  destruct (Math_max_spec (- m) (Math_min m p) Hnm Hnq) as (Hr & Hlo & _).
  split; [exact Hlo|].
  destruct Hr as [-> | ->]; [now apply opp_leb|exact Hqm].
Qed.

Lemma limits (z : float) :
  In z zoom_levels ->
  is_nan (Math_max 0 ((WIDTH - WIDTH / z) / 2)) = false
  /\ (0 <=? Math_max 0 ((WIDTH - WIDTH / z) / 2)) = true
  /\ is_nan (Math_max 0 ((HEIGHT - HEIGHT / z) / 2)) = false
  /\ (0 <=? Math_max 0 ((HEIGHT - HEIGHT / z) / 2)) = true.
Proof.
  unfold zoom_levels. simpl.
  intros [<-|[<-|[<-|[<-|[<-|[<-|[<-|[<-|[]]]]]]]]]; vm_compute; auto.
Qed.

(** X11: the pan the view box is drawn with stays within its limits.  In
    every state the user can reach, when the pan is a number, the clamped
    pan lies between [-maxPan] and [maxPan] in each direction, however far
    the drags went. *)
Theorem pan_clamped (actions : list Action) :
  is_nan (x (pan (fold_left handle actions initial))) = false ->
  is_nan (y (pan (fold_left handle actions initial))) = false ->
  (- maxPanX (fold_left handle actions initial)
     <=? clampedPanX (fold_left handle actions initial)) = true
  /\ (clampedPanX (fold_left handle actions initial)
        <=? maxPanX (fold_left handle actions initial)) = true
  /\ (- maxPanY (fold_left handle actions initial)
        <=? clampedPanY (fold_left handle actions initial)) = true
  /\ (clampedPanY (fold_left handle actions initial)
        <=? maxPanY (fold_left handle actions initial)) = true.
Proof.
  intros Hx Hy.
  assert (H : In (zoom (fold_left handle actions initial)) zoom_levels).
  { apply handle_levels. now left. }
  destruct (limits _ H) as (Nx & Px & Ny & Py).
  unfold clampedPanX, clampedPanY, maxPanX, maxPanY, viewBoxWidth, viewBoxHeight.
  destruct (clamp_within _ _ Nx Hx Px) as [A B].
  destruct (clamp_within _ _ Ny Hy Py) as [C D].
  now repeat split.
Qed.

(** A drag far to the left at the second zoom level. *)
Lemma pan_clamped_witness :
  (- maxPanX (fold_left handle
                [ZoomIn; Move {| x := 800; y := 400 |} {| x := 10; y := 10 |}
                              {| x := 900; y := 10 |}] initial)
     <=? clampedPanX (fold_left handle
                        [ZoomIn; Move {| x := 800; y := 400 |} {| x := 10; y := 10 |}
                                      {| x := 900; y := 10 |}] initial)) = true.
Proof.
  apply (pan_clamped [ZoomIn; Move {| x := 800; y := 400 |} {| x := 10; y := 10 |}
                                   {| x := 900; y := 10 |}]); reflexivity.
Defined.

Lemma ltb_zero_negative (p : float) :
  (p <? 0) = true -> (0 <? p) = false /\ (- 0 <? p) = false /\ (p <? - 0) = true.
Proof.
  rewrite !ltb_spec. change (Prim2SF 0) with (S754_zero false).
  change (Prim2SF (- 0)) with (S754_zero true).
  destruct (Prim2SF p) as [s|s| |s m e]; unfold SFltb, SFcompare; try discriminate;
    destruct s; try discriminate; auto.
Qed.

Lemma zero_cases (p : float) :
  is_nan p = false -> p = 0 \/ p = - 0 \/ (0 <? p) = true \/ (p <? 0) = true.
Proof.
  intros H. rewrite !ltb_spec. change (Prim2SF 0) with (S754_zero false).
  destruct (Prim2SF p) as [s|s| |s m e] eqn:E; unfold SFltb, SFcompare.
  - destruct s; [right; left|left]; apply Prim2SF_inj; now rewrite E.
  - destruct s; auto.
  - assert (p = nan) by (apply Prim2SF_inj; now rewrite E). subst. discriminate.
  - destruct s; auto.
Qed.

(** The clamp to the limit 0 is a zero, and adding it to +0 gives +0. *)
Lemma clamp_zero (p : float) :
  is_nan p = false -> 0 + Math_max (- 0) (Math_min 0 p) = 0.
Proof.
  intros H. destruct (zero_cases p H) as [-> | [-> | [Hp | Hp]]]; try reflexivity.
  - unfold Math_min. rewrite H, Hp. reflexivity.
  - destruct (ltb_zero_negative p Hp) as (H1 & H2 & H3).
    unfold Math_min. rewrite H, H1, Hp. change (is_nan 0 || false) with false. cbv iota.
    unfold Math_max. rewrite H, H2, H3. reflexivity.
Qed.

(** X12: at the zoom 1 the whole map is shown.  Whatever number the pan
    is, the view box is the rectangle of origin (0, 0), width 1000 and
    height 500. *)
Theorem viewBox_unzoomed (v : View) :
  zoom v = 1 ->
  is_nan (x (pan v)) = false ->
  is_nan (y (pan v)) = false ->
  viewBoxX v = 0 /\ viewBoxY v = 0 /\ viewBoxWidth v = WIDTH /\ viewBoxHeight v = HEIGHT.
Proof.
  intros Hz Hx Hy.
  unfold viewBoxX, viewBoxY, clampedPanX, clampedPanY, maxPanX, maxPanY,
    viewBoxWidth, viewBoxHeight.
  rewrite Hz.
  change (WIDTH / 2 - WIDTH / 1 / 2) with 0.
  change (HEIGHT / 2 - HEIGHT / 1 / 2) with 0.
  change (Math_max 0 ((WIDTH - WIDTH / 1) / 2)) with 0.
  change (Math_max 0 ((HEIGHT - HEIGHT / 1) / 2)) with 0.
  rewrite (clamp_zero _ Hx), (clamp_zero _ Hy). repeat split.
Qed.

(** A state at the zoom 1 whose stored pan is not the origin. *)
Lemma viewBox_unzoomed_witness :
  viewBoxX {| zoom := 1; pan := {| x := -250; y := 80 |} |} = 0.
Proof.
  apply (viewBox_unzoomed {| zoom := 1; pan := {| x := -250; y := 80 |} |}); reflexivity.
Defined.

End WorldMapProofs.

(** ** From the application to the Worker *)

Module RequestProofs.
Import JSON JSONText Stream.
#[local] Open Scope list_scope.

Lemma history_map_messages (messages : list App.Message) :
  Worker.history_map
    (map (fun m => JObject [(lit "role", JString (App.role m));
                            (lit "content", JString (App.content m))]) messages)
  = Normal (map (fun m => {| Worker.role := Some (JString (App.role m));
                             Worker.content := Some (JString (App.content m)) |}) messages).
Proof.
  induction messages as [|m messages IH]; [reflexivity|].
  simpl map. cbn [Worker.history_map]. rewrite IH. reflexivity.
Qed.

Lemma readable_history (messages : list App.Message) :
  forallb readable
    (map (fun m => JObject [(lit "role", JString (App.role m));
                            (lit "content", JString (App.content m))]) messages) = true.
Proof. induction messages as [|m messages IH]; [reflexivity|exact IH]. Qed.

Lemma readable_request_body (text : jsstring) (messages : list App.Message)
    (location : JSValue) :
  readable location = true -> readable (App.request_body text messages location) = true.
Proof.
  intros H. unfold App.request_body. cbn [readable forallb snd].
  now rewrite readable_history, H.
Qed.

Lemma readable_locationData (cf : option Worker.Cf.t) :
  reads_back (Worker.or_number (Worker.optional Worker.Cf.asn cf) 0) = true ->
  readable (Worker.locationData cf) = true.
Proof. intros H. unfold Worker.locationData. cbn [readable forallb snd]. now rewrite H. Qed.

(** The messages built from the body of the application, when the prompt
    is built without an exception. *)
Lemma chat_messages_request_body (text : jsstring) (messages : list App.Message)
    (location : JSValue) (prompt : jsstring) :
  Worker.contextPrompt (Some location) = Normal prompt ->
  Worker.chat_messages (App.request_body text messages location) =
    Normal ({| Worker.role := Some (JString (lit "system"));
               Worker.content := Some (JString prompt) |}
            :: map (fun m => {| Worker.role := Some (JString (App.role m));
                                Worker.content := Some (JString (App.content m)) |})
                 messages
            ++ [{| Worker.role := Some (JString (lit "user"));
                   Worker.content := Some (JString text) |}]).
Proof.
  intros Hprompt.
  unfold Worker.chat_messages, App.request_body, Worker.get.
  change (own_property (lit "message") _) with (Some (JString text)).
  change (own_property (lit "location") _) with (Some location).
  match goal with
  | |- context [own_property (lit "history") ?ms] =>
      change (own_property (lit "history") ms)
        with (Some (JArray (map (fun m => JObject [(lit "role", JString (App.role m));
                                                   (lit "content", JString (App.content m))])
                              messages)))
  end.
  unfold Worker.bind at 1 2 3. rewrite Hprompt.
  unfold Worker.bind at 1. unfold Worker.history_messages.
  rewrite history_map_messages. reflexivity.
Qed.

(** The prompt for an object whose [colo], [city] and [country] are
    strings. *)
Lemma contextPrompt_strings (members : list (jsstring * JSValue))
    (colo city country : jsstring) :
  own_property (lit "colo") members = Some (JString colo) ->
  own_property (lit "city") members = Some (JString city) ->
  own_property (lit "country") members = Some (JString country) ->
  Worker.contextPrompt (Some (JObject members)) =
    Normal (Worker.SYSTEM_PROMPT
            ++ lit (line_feed ++ line_feed ++ "Current user connection info:"
                    ++ line_feed ++ "- User location: ")
            ++ city ++ lit ", " ++ country
            ++ lit (line_feed ++ "- Connected to edge: ") ++ colo
            ++ match Edges.getEdgeByCode colo with
               | Some e => lit " (" ++ Edges.city e ++ lit ", " ++ Edges.country e ++ lit ")"
               | None => []
               end).
Proof.
  intros Hcolo Hcity Hcountry.
  unfold Worker.contextPrompt, Worker.connection_info, Worker.get, Worker.bind,
    Worker.template, Worker.edge_of.
  rewrite Hcity, Hcountry, Hcolo. reflexivity.
Qed.

(** X15: the Worker reads the request of the application back.  The state
    [locationData] is [null] before [fetchData], then the value the answer
    of [/api/location] parses to, or the demo data.  When the number [asn]
    of the answer reads back from its decimal form, that value is the
    object of the ten members the Worker wrote.  For a message of any code
    units, a conversation of any length and every location whose numbers
    read back, parsing the text that [JSON.stringify] gave the request
    returns the object that was written.  From it the handler builds the
    system message, then the messages of the conversation in order, each
    with its role and its content, then the new message, once; the system
    message is the prompt alone for [null], and the prompt followed by the
    connection info of the city, the country and the code of the location
    otherwise, with the city and the country of the edge of that code when
    the table has it. *)
Theorem chat_request_received (text : jsstring) (messages : list App.Message)
    (cf : option Worker.Cf.t) (edges : JSValue) :
  reads_back (Worker.or_number (Worker.optional Worker.Cf.asn cf) 0) = true ->
  let answered :=
    App.fetchData (JSON.parse (stringify (Worker.locationData cf))) (Some edges) in
  let built prompt :=
    Normal ({| Worker.role := Some (JString (lit "system"));
               Worker.content := Some (JString prompt) |}
            :: map (fun m => {| Worker.role := Some (JString (App.role m));
                                Worker.content := Some (JString (App.content m)) |})
                 messages
            ++ [{| Worker.role := Some (JString (lit "user"));
                   Worker.content := Some (JString text) |}]) in
  let info colo city country :=
    lit (line_feed ++ line_feed ++ "Current user connection info:"
         ++ line_feed ++ "- User location: ")
    ++ city ++ lit ", " ++ country
    ++ lit (line_feed ++ "- Connected to edge: ") ++ colo
    ++ match Edges.getEdgeByCode colo with
       | Some e => lit " (" ++ Edges.city e ++ lit ", " ++ Edges.country e ++ lit ")"
       | None => []
       end in
  answered = Worker.locationData cf
  /\ (forall location,
        readable location = true ->
        JSON.parse (stringify (App.request_body text messages location)) =
          Some (App.request_body text messages location))
  /\ readable answered = true
  /\ readable App.demo_location = true
  /\ Worker.chat_messages (App.request_body text messages answered) =
       built (Worker.SYSTEM_PROMPT
              ++ info (Worker.or_string (Worker.optional Worker.Cf.colo cf) (lit "Unknown"))
                   (Worker.or_string (Worker.optional Worker.Cf.city cf) (lit "Unknown"))
                   (Worker.or_string (Worker.optional Worker.Cf.country cf) (lit "Unknown")))
  /\ Worker.chat_messages (App.request_body text messages JNull) = built Worker.SYSTEM_PROMPT
  /\ Worker.chat_messages (App.request_body text messages App.demo_location) =
       built (Worker.SYSTEM_PROMPT ++ info (lit "LHR") (lit "London") (lit "GB")).
Proof.
  intros Hasn answered built info.
  assert (Hanswered : answered = Worker.locationData cf).
  { unfold answered. rewrite JSONTextProofs.parse_stringify by now apply readable_locationData.
    reflexivity. }
  split; [exact Hanswered|]. split; [|split; [|split; [|split; [|split]]]].
  - intros location H. apply JSONTextProofs.parse_stringify. now apply readable_request_body.
  - rewrite Hanswered. now apply readable_locationData.
  - reflexivity.
  - rewrite Hanswered. apply chat_messages_request_body.
    unfold Worker.locationData. now apply contextPrompt_strings.
  - now apply chat_messages_request_body.
  - apply chat_messages_request_body.
    unfold App.demo_location. now apply contextPrompt_strings.
Qed.

(** A message with a quote, a backslash, a line feed and a lone surrogate,
    after one exchange, from Madrid: the location has the ten members of the
    answer of [/api/location], the number 13335 among them. *)
Lemma chat_request_received_witness :
  JSON.parse
    (stringify
       (App.request_body [34%N; 92%N; 10%N; 0xD83C%N]
          [App.userMessage 1 (lit "Hi"); App.assistantMessage 2]
          (JObject
             [(lit "colo", JString (lit "MAD")); (lit "city", JString (lit "Madrid"));
              (lit "country", JString (lit "ES")); (lit "latitude", JString (lit "40.42"));
              (lit "longitude", JString (lit "-3.70"));
              (lit "timezone", JString (lit "Europe/Madrid"));
              (lit "region", JString (lit "Unknown"));
              (lit "regionCode", JString (lit "Unknown")); (lit "asn", JNumber 13335);
              (lit "asOrganization", JString (lit "Cloudflare"))])))
  = Some (App.request_body [34%N; 92%N; 10%N; 0xD83C%N]
            [App.userMessage 1 (lit "Hi"); App.assistantMessage 2]
            (JObject
               [(lit "colo", JString (lit "MAD")); (lit "city", JString (lit "Madrid"));
                (lit "country", JString (lit "ES")); (lit "latitude", JString (lit "40.42"));
                (lit "longitude", JString (lit "-3.70"));
                (lit "timezone", JString (lit "Europe/Madrid"));
                (lit "region", JString (lit "Unknown"));
                (lit "regionCode", JString (lit "Unknown")); (lit "asn", JNumber 13335);
                (lit "asOrganization", JString (lit "Cloudflare"))]))
  /\ Worker.chat_messages
       (App.request_body [34%N; 92%N; 10%N; 0xD83C%N]
          [App.userMessage 1 (lit "Hi"); App.assistantMessage 2]
          (JObject
             [(lit "colo", JString (lit "MAD")); (lit "city", JString (lit "Madrid"));
              (lit "country", JString (lit "ES")); (lit "latitude", JString (lit "40.42"));
              (lit "longitude", JString (lit "-3.70"));
              (lit "timezone", JString (lit "Europe/Madrid"));
              (lit "region", JString (lit "Unknown"));
              (lit "regionCode", JString (lit "Unknown")); (lit "asn", JNumber 13335);
              (lit "asOrganization", JString (lit "Cloudflare"))]))
     = Normal
         [{| Worker.role := Some (JString (lit "system"));
             Worker.content :=
               Some (JString
                       (Worker.SYSTEM_PROMPT
                        ++ lit (line_feed ++ line_feed ++ "Current user connection info:"
                                ++ line_feed ++ "- User location: Madrid, ES"
                                ++ line_feed ++ "- Connected to edge: MAD (Madrid, ES)"))) |};
          {| Worker.role := Some (JString (lit "user"));
             Worker.content := Some (JString (lit "Hi")) |};
          {| Worker.role := Some (JString (lit "assistant"));
             Worker.content := Some (JString []) |};
          {| Worker.role := Some (JString (lit "user"));
             Worker.content := Some (JString [34%N; 92%N; 10%N; 0xD83C%N]) |}].
Proof.
  destruct (chat_request_received [34%N; 92%N; 10%N; 0xD83C%N]
              [App.userMessage 1 (lit "Hi"); App.assistantMessage 2]
              (Some {| Worker.Cf.colo := Some (lit "MAD"); Worker.Cf.city := Some (lit "Madrid");
                       Worker.Cf.country := Some (lit "ES"); Worker.Cf.latitude := Some (lit "40.42");
                       Worker.Cf.longitude := Some (lit "-3.70");
                       Worker.Cf.timezone := Some (lit "Europe/Madrid"); Worker.Cf.region := None;
                       Worker.Cf.regionCode := Some []; Worker.Cf.asn := Some 13335%float;
                       Worker.Cf.asOrganization := Some (lit "Cloudflare") |})
              JNull ltac:(vm_compute; reflexivity))
    as (Hanswered & Hparse & Hreadable & _ & Hbuilt & _).
  rewrite Hanswered in Hreadable, Hbuilt. split.
  - exact (Hparse _ Hreadable).
  - refine (eq_trans Hbuilt _). vm_compute. reflexivity.
Defined.

End RequestProofs.

(** ** Lines and white space *)

Module LineProofs.
Import JSON Stream.
#[local] Open Scope list_scope.

Lemma trim_start_white_space (w s : jsstring) :
  forallb is_white_space w = true -> trim_start (w ++ s) = trim_start s.
Proof.
  induction w as [|c w IH]; [reflexivity|]. simpl.
  intros [-> H]%andb_true_iff. now apply IH.
Qed.

Lemma trim_start_app (s t : jsstring) :
  trim_start s <> [] -> trim_start (s ++ t) = trim_start s ++ t.
Proof.
  induction s as [|c s IH]; [easy|]. simpl.
  destruct (is_white_space c); [exact IH|reflexivity].
Qed.

Lemma trim_start_nil (s : jsstring) :
  trim_start s = [] -> forallb is_white_space s = true.
Proof.
  induction s as [|c s IH]; [reflexivity|]. simpl.
  destruct (is_white_space c); [exact IH|discriminate].
Qed.

(** White space around a line is not seen. *)
Lemma trim_white_space_around (w1 w2 s : jsstring) :
  forallb is_white_space w1 = true -> forallb is_white_space w2 = true ->
  trim (w1 ++ s ++ w2) = trim s.
Proof.
  intros H1 H2. unfold trim. rewrite (trim_start_white_space w1 _ H1).
  destruct (trim_start s) as [|c r] eqn:E.
  - replace (trim_start (s ++ w2)) with (@nil N); [reflexivity|].
    symmetry. rewrite <- (app_nil_r (s ++ w2)). apply trim_start_white_space.
    now rewrite forallb_app, (trim_start_nil s E), H2.
  - rewrite trim_start_app by (rewrite E; discriminate). rewrite E.
    rewrite rev_app_distr. rewrite trim_start_white_space; [reflexivity|].
    rewrite forallb_forall in *. intros u Hu. apply H2. now apply in_rev.
Qed.

Section Loop.
Variable JSON_parse : jsstring -> option JSValue.
Variable Number_toString : float -> jsstring.

#[local] Abbreviation processLine := (Stream.processLine JSON_parse Number_toString).

(** X16: white space around a line does not count.  A line with white
    space before and after it is processed as the line without it; so a
    stream whose lines end with a carriage return and a line feed gives
    what the stream with line feeds alone gives, line by line. *)
Theorem processLine_white_space (acc line w1 w2 : jsstring) :
  forallb is_white_space w1 = true ->
  forallb is_white_space w2 = true ->
  processLine acc (w1 ++ line ++ w2) = processLine acc line
  /\ (forall lines acc',
        fold_left processLine (map (fun l => l ++ [13%N]) lines) acc' =
          fold_left processLine lines acc').
Proof.
  intros H1 H2. split.
  - unfold Stream.processLine. now rewrite trim_white_space_around.
  - induction lines as [|l lines IH]; intros acc'; [reflexivity|].
    cbn [map fold_left]. rewrite IH. f_equal. unfold Stream.processLine.
    change (l ++ [13%N]) with ([] ++ l ++ [13%N]).
    now rewrite (trim_white_space_around [] [13%N] l).
Qed.

End Loop.

(** A line of a token, indented and ended by a carriage return. *)
Lemma processLine_white_space_witness :
  Stream.processLine JSON.parse Number.toString (lit "Hi")
    (lit "  " ++ lit ("data: {" ++ dquote ++ "response" ++ dquote ++ ":"
                      ++ dquote ++ "!" ++ dquote ++ "}") ++ [13%N])
  = Stream.processLine JSON.parse Number.toString (lit "Hi")
      (lit ("data: {" ++ dquote ++ "response" ++ dquote ++ ":" ++ dquote ++ "!" ++ dquote ++ "}")).
Proof.
  apply (processLine_white_space JSON.parse Number.toString); reflexivity.
Defined.

End LineProofs.

(** ** The nearest edge and its code *)

Module DirectoryProofs.
Import Edges.
#[local] Open Scope list_scope.

(** X17: the nearest edge is found again by its code.  For every query
    [findNearestEdge] returns an entry of the table, and [getEdgeByCode] on
    the code of that entry returns the same entry; over any table of
    pairwise distinct codes the same holds of the scan and of the lookup. *)
Theorem nearest_edge_by_code (M : MathLib) (lat0 lng0 : float) :
  (exists e, findNearestEdge M lat0 lng0 = Some e /\ getEdgeByCode (code e) = Some e)
  /\ (forall table e, NoDup (map code table) ->
        findNearestEdgeIn M table lat0 lng0 = Some e ->
        getEdgeByCodeIn table (code e) = Some e).
Proof.
  assert (H : forall table e, NoDup (map code table) ->
            findNearestEdgeIn M table lat0 lng0 = Some e ->
            getEdgeByCodeIn table (code e) = Some e).
  { intros table e Hnd He. unfold findNearestEdgeIn in He.
    destruct table as [|first rest]; [discriminate|]. injection He as <-.
    apply EdgesProofs.getEdgeByCodeIn_unique; [exact Hnd|].
    destruct (EdgesProofs.nearestIn_minimal M lat0 lng0 first rest)
      as [_ (before & after & Hpos & _)].
    cbv zeta in Hpos. rewrite Hpos at 2. apply in_elt. }
  split; [|exact H].
  unfold findNearestEdge, getEdgeByCode.
  destruct (findNearestEdgeIn M EDGE_LOCATIONS lat0 lng0) as [e|] eqn:E.
  - exists e. split; [reflexivity|]. now apply H; [apply EdgesProofs.codes_distinct|].
  - discriminate.
Qed.

End DirectoryProofs.

(** ** The table on the wire *)

Module EdgesEndpointProofs.
Import JSON Stream Worker.
#[local] Open Scope list_scope.

(** X18: the application receives the table.  The body of the answer to
    [/api/edges] is a JSON text that parses back to the array of the 53
    entries of [EDGE_LOCATIONS] in their order, each with its code, city
    and country and with the very numbers of its latitude and longitude;
    the answer has status 200, whatever the method other than OPTIONS. *)
Theorem edges_endpoint (ReadableStream : Type)
    (AI_run : list Message -> completion ReadableStream) (request : Request) :
  pathname request = lit "/api/edges" ->
  method request <> lit "OPTIONS" ->
  exists body,
    fetch ReadableStream AI_run request =
      {| body := Text body; status := 200;
         headers := (lit "Content-Type", lit "application/json") :: corsHeaders |}
    /\ JSON.parse body = Some (edges_value Edges.EDGE_LOCATIONS)
    /\ List.length Edges.EDGE_LOCATIONS = 53.
Proof.
  intros Hpath Hmethod. exists (JSONText.stringify (edges_value Edges.EDGE_LOCATIONS)).
  split; [|split].
  - unfold fetch. rewrite Hpath.
    destruct (str_eqb (method request) (lit "OPTIONS")) eqn:E;
      [now apply EdgesProofs.str_eqb_eq in E|].
    reflexivity.
  - vm_compute. reflexivity.
  - reflexivity.
Qed.

Lemma edges_endpoint_witness :
  exists body,
    fetch unit (fun _ => Throw)
      {| method := lit "GET"; pathname := lit "/api/edges"; cf := None; text := [] |} =
      {| body := Text body; status := 200;
         headers := (lit "Content-Type", lit "application/json") :: corsHeaders |}
    /\ JSON.parse body = Some (edges_value Edges.EDGE_LOCATIONS)
    /\ List.length Edges.EDGE_LOCATIONS = 53.
Proof.
  apply (edges_endpoint unit (fun _ => Throw)); [reflexivity|discriminate].
Defined.

End EdgesEndpointProofs.
